(** * The standards version store of [modules/version_service.py]

    A shallow embedding of [StandardVersionControl]: the version ledger, the
    backup directory, the integrity gate and the comparison of two versions,
    together with the parts of Python's [difflib] that [compare_versions]
    calls.

    Conventions of the embedding
    - a Python [str] is the list of its code points ([pystr]); a file holds
      bytes;
    - a path is the string the program builds; [self.repo / p] is [p], the
      backup directory is the prefix [version_backups/];
    - an operation is a function from the state before the call to its
      outcome ([Ok v] or [Raise e]) and the state after it: an exception leaves
      whatever was mutated before it was raised;
    - logging is not modelled. *)

From Stdlib.Strings Require Import String Ascii Byte.
From Stdlib Require Import List Bool Arith ZArith NArith Lia QArith Sorted.
Import ListNotations.
Close Scope Q_scope.

Set Implicit Arguments.

(* ------------------------------------------------------------------ *)
(** ** Python strings *)

Module PyStr.

Definition pystr := list N.

(** A literal: the code points of an ASCII string. *)
Definition u (s : string) : pystr := map N_of_ascii (list_ascii_of_string s).
Arguments u s%_string.

Fixpoint eqb (a b : pystr) : bool :=
  match a, b with
  | [], [] => true
  | x :: a', y :: b' => N.eqb x y && eqb a' b'
  | _, _ => false
  end.

(** [s.lstrip(c)] for a one-character argument. *)
Fixpoint lstrip (c : N) (s : pystr) : pystr :=
  match s with
  | x :: s' => if N.eqb x c then lstrip c s' else s
  | [] => []
  end.

(** [s.split(sep)] for a one-character separator: never the empty list. *)
Fixpoint split (sep : N) (s : pystr) : list pystr :=
  match s with
  | [] => [[]]
  | x :: s' =>
      if N.eqb x sep then [] :: split sep s'
      else match split sep s' with
           | w :: ws => (x :: w) :: ws
           | [] => [[x]]
           end
  end.

(** [s.startswith(c)] for a one-character prefix. *)
Definition startswith (c : N) (s : pystr) : bool :=
  match s with
  | x :: _ => N.eqb x c
  | [] => false
  end.

(** [Path(p).name] of a normalised POSIX path: what follows the last [/]. *)
Definition basename (p : pystr) : pystr := last (split 47 p) [].

End PyStr.
Import PyStr.

(* ------------------------------------------------------------------ *)
(** ** Python integers: [int(s)] and [str(n)] *)

Module PyInt.

(** The whitespace [int] skips around an ASCII literal. *)
Definition is_space (c : N) : bool :=
  N.eqb c 32 || (N.leb 9 c && N.leb c 13).

Definition digit_val (c : N) : option Z :=
  if N.leb 48 c && N.leb c 57 then Some (Z.of_N (c - 48)) else None.

(** The digits after the first one: a single [_] may sit between two
    digits. *)
Fixpoint int_digits (acc : Z) (s : pystr) : option Z :=
  match s with
  | [] => Some acc
  | c :: s' =>
      if N.eqb c 95 then
        match s' with
        | d :: s'' =>
            match digit_val d with
            | Some v => int_digits (acc * 10 + v) s''
            | None => None
            end
        | [] => None
        end
      else
        match digit_val c with
        | Some v => int_digits (acc * 10 + v) s'
        | None => None
        end
  end.

Definition int_unsigned (s : pystr) : option Z :=
  match s with
  | c :: s' =>
      match digit_val c with
      | Some v => int_digits v s'
      | None => None
      end
  | [] => None
  end.

Fixpoint lskip (s : pystr) : pystr :=
  match s with
  | c :: s' => if is_space c then lskip s' else s
  | [] => []
  end.

Definition rskip (s : pystr) : pystr := rev (lskip (rev s)).

(** [int(s)] on a string of ASCII characters; [None] is [ValueError].
    CPython also refuses, with [ValueError], a string of more than 4300
    digits (since 3.11); that limit is left out here, so [int_ascii] is
    [int] on the strings of at most 4300 digits. *)
Definition int_ascii (s : pystr) : option Z :=
  let t := rskip (lskip s) in
  match t with
  | c :: s' =>
      if N.eqb c 45 then option_map Z.opp (int_unsigned s')
      else if N.eqb c 43 then int_unsigned s'
      else int_unsigned t
  | [] => None
  end.

Definition is_ascii (s : pystr) : bool := forallb (fun c => N.ltb c 128) s.

(** [str(n)] for a natural number, most significant digit first. *)
Fixpoint digits_fuel (fuel : nat) (n : N) (acc : pystr) : pystr :=
  match fuel with
  | O => acc
  | S f =>
      let acc' := (48 + n mod 10)%N :: acc in
      if N.ltb n 10 then acc' else digits_fuel f (n / 10)%N acc'
  end.

Definition str_N (n : N) : pystr := digits_fuel (S (N.size_nat n)) n [].

(** [str(z)], as an f-string prints an [int]. The same limit makes
    CPython raise [ValueError] for a number of more than 4300 digits;
    [str] is the program's conversion on the numbers below [10 ^ 4300]. *)
Definition str (z : Z) : pystr :=
  match z with
  | Zneg p => 45%N :: str_N (Npos p)
  | _ => str_N (Z.to_N z)
  end.

(** Vocabulary for the facts about [int] and [str]: the decimal digits, the
    value of a string of digits, and the characters [str] prints. *)
Definition is_digit (c : N) : bool := N.leb 48 c && N.leb c 57.

Definition value (acc : Z) (s : pystr) : Z :=
  fold_left (fun v c => (v * 10 + Z.of_N (c - 48))%Z) s acc.

Definition numeric (c : N) : bool := N.eqb c 45 || is_digit c.

End PyInt.
Import PyInt.

(* ------------------------------------------------------------------ *)
(** ** The data model: the dictionaries of [standards_versions.json] *)

(** One entry of [self.versions['versions']], with the keys
    [create_version] writes. *)
Record Version := mkVersion {
  version_id : pystr;
  timestamp : pystr;
  file : pystr;
  hash : pystr;
  description : pystr;
  active : bool;
  stable : bool;
  compatibility : list pystr
}.

(** One entry of [self.versions['history']]. *)
Record HistoryEntry := mkHistory {
  action : pystr;
  h_version_id : pystr;
  h_timestamp : pystr;
  user : pystr
}.

(** [self.versions]: the key [history] may be absent from a loaded file
    ([_add_history] creates it). *)
Record Ledger := mkLedger {
  versions : list Version;
  history : option (list HistoryEntry)
}.

Definition empty_ledger : Ledger := {| versions := []; history := Some [] |}.

Definition history_list (l : Ledger) : list HistoryEntry :=
  match history l with Some h => h | None => [] end.

(** What [json.load] makes of the bytes of the version file. An object
    whose [versions] has a length without being a list of version records
    passes the constructor and fails in a later call; such a file is
    outside the model. *)
Inductive json_result :=
| JsonLedger (l : Ledger)      (* a dictionary of the expected shape *)
| JsonDecodeError              (* json.JSONDecodeError *)
| JsonUnicodeError             (* the bytes are not UTF-8: UnicodeDecodeError *)
| JsonOtherShape               (* a JSON object without the key [versions] *)
| JsonNotObject.               (* JSON that cannot be subscripted by
                                  ['versions'] (an array, a number, a
                                  string, null), or whose [versions] has
                                  no [len] *)

(** The libraries and the machine the program runs on. *)
Record Platform := mkPlatform {
  (** [hashlib.sha256(b).hexdigest()] *)
  sha256_hex : list byte -> pystr;
  (** [json.dump(d, f, indent=2, ensure_ascii=False)] into a file opened
      with [encoding='utf-8']: the bytes the file holds when it is closed,
      which are the whole text, or its beginning when the dump raises on
      the way (a lone surrogate in a string cannot be encoded) *)
  json_dump : Ledger -> list byte;
  (** whether that [json.dump] raises *)
  json_dump_raises : Ledger -> bool;
  json_load : list byte -> json_result;
  (** [int(s)] when [s] has a character outside ASCII (the Unicode
      database decides which of them are digits and spaces) *)
  int_unicode : pystr -> option Z;
  (** the n-th reading of [datetime.now()], as [isoformat()] and as
      [strftime('%Y%m%d%H%M%S')] *)
  now_iso : nat -> pystr;
  now_compact : nat -> pystr;
  (** [os.getlogin()], [None] when it raises *)
  getlogin : option pystr
}.

(** The file system under the repository root and the clock: the bytes of
    each regular file that can be read, the directories, the paths at which
    nothing can be written (a file cannot be opened for writing, a directory
    cannot be made), and how often the clock was read. A path that names a
    directory or an unreadable file where the program opens a file
    ([IsADirectoryError], [PermissionError]) and a device that fails in the
    middle of a write are outside this model. *)
Record World := mkWorld {
  files : pystr -> option (list byte);
  dirs : pystr -> bool;
  readonly : pystr -> bool;
  tick : nat
}.

(** A controller and its surroundings: [self.versions] and the world. *)
Record State := mkState {
  mem : Ledger;
  world : World
}.

Inductive exn :=
| FileNotFoundError
| VersionNotFoundError
| VersionIntegrityError
| ValueError
| UnicodeDecodeError
| KeyError
| TypeError
| IndexError
| OSError.

Inductive outcome (A : Type) :=
| Ok (a : A)
| Raise (e : exn).
Arguments Ok {A} a.
Arguments Raise {A} e.

(** ** The monad of operations: state and exceptions *)

Module Op.

Definition M (A : Type) : Type := State -> outcome A * State.

Definition ret {A} (a : A) : M A := fun s => (Ok a, s).
Definition raise {A} (e : exn) : M A := fun s => (Raise e, s).
Definition bind {A B} (m : M A) (f : A -> M B) : M B :=
  fun s => match m s with
           | (Ok a, s') => f a s'
           | (Raise e, s') => (Raise e, s')
           end.

(** [try: m  except Exception: h] *)
Definition try_except {A} (m : M A) (h : M A) : M A :=
  fun s => match m s with
           | (Ok a, s') => (Ok a, s')
           | (Raise _, s') => h s'
           end.

Definition get : M State := fun s => (Ok s, s).
Definition put (s : State) : M unit := fun _ => (Ok tt, s).

Definition of_option {A} (e : exn) (o : option A) : M A :=
  match o with Some a => ret a | None => raise e end.

End Op.
Import Op.

Declare Scope op_scope.
Delimit Scope op_scope with op.
Notation "x <- m ;; k" := (bind m (fun x => k))
  (at level 100, m at next level, right associativity) : op_scope.
Notation "m ;;; k" := (bind m (fun _ => k))
  (at level 100, right associativity) : op_scope.
Open Scope op_scope.

(** ** Files *)

Definition VERSION_FILE : pystr := u "standards_versions.json".
Definition BACKUP_DIR : pystr := u "version_backups".

(** [self.backup_dir / name] *)
Definition backup_path (name : pystr) : pystr := BACKUP_DIR ++ 47%N :: name.

Definition fs_set (p : pystr) (c : list byte) (w : World) : World :=
  {| files := fun q => if PyStr.eqb q p then Some c else files w q;
     dirs := dirs w;
     readonly := readonly w;
     tick := tick w |}.

Definition add_dir (p : pystr) (w : World) : World :=
  {| files := files w;
     dirs := fun q => if PyStr.eqb q p then true else dirs w q;
     readonly := readonly w;
     tick := tick w |}.

Definition exists_ (p : pystr) : M bool :=
  fun s => (Ok (match files (world s) p with Some _ => true | None => false end), s).

(** [open(p, 'rb').read()] of a regular file that can be read, or of a
    path where there is nothing *)
Definition read_bytes (p : pystr) : M (list byte) :=
  s <- get ;; of_option FileNotFoundError (files (world s) p).

(** [open(p, 'w')], which empties the file, and the writes until the file
    is closed, after which it holds [c]. *)
Definition write_bytes (p : pystr) (c : list byte) : M unit :=
  fun s => if readonly (world s) p then (Raise OSError, s)
           else (Ok tt, {| mem := mem s; world := fs_set p c (world s) |}).

(** [Path(p).mkdir(exist_ok=True)]: nothing to do when the directory is
    there; [FileExistsError] when a file has its name and
    [PermissionError] or [FileNotFoundError] when it cannot be made are
    [OSError]s. *)
Definition mkdir_exist_ok (p : pystr) : M unit :=
  fun s => if dirs (world s) p then (Ok tt, s)
           else match files (world s) p with
                | Some _ => (Raise OSError, s)
                | None =>
                    if readonly (world s) p then (Raise OSError, s)
                    else (Ok tt, {| mem := mem s;
                                    world := add_dir p (world s) |})
                end.

(** [shutil.copy2(src, dst)]: [SameFileError] and [PermissionError] are
    [OSError]s. *)
Definition copy2 (src dst : pystr) : M unit :=
  c <- read_bytes src ;;
  if PyStr.eqb src dst then raise OSError else write_bytes dst c.

(** [datetime.now()]: every reading advances the clock. *)
Definition now : M nat :=
  fun s => (Ok (tick (world s)),
            {| mem := mem s;
               world := {| files := files (world s);
                           dirs := dirs (world s);
                           readonly := readonly (world s);
                           tick := S (tick (world s)) |} |}).

(* ------------------------------------------------------------------ *)
(** ** Version identifiers and their order *)

Module SemVer.

Fixpoint map_opt {A B} (f : A -> option B) (l : list A) : option (list B) :=
  match l with
  | [] => Some []
  | x :: l' =>
      match f x with
      | Some y => option_map (cons y) (map_opt f l')
      | None => None
      end
  end.

(** Python's [<] on two lists of integers. *)
Fixpoint key_lt (a b : list Z) : bool :=
  match a, b with
  | [], [] => false
  | [], _ :: _ => true
  | _ :: _, [] => false
  | x :: a', y :: b' =>
      if Z.ltb x y then true
      else if Z.ltb y x then false
      else key_lt a' b'
  end.

(** [sorted(l, key=..., reverse=True)] on a list of keyed elements: the
    sort is stable, elements of equal key keep their order. *)
Fixpoint insert_desc {A} (x : list Z * A) (l : list (list Z * A)) :
  list (list Z * A) :=
  match l with
  | [] => [x]
  | y :: l' => if key_lt (fst x) (fst y) then y :: insert_desc x l' else x :: l
  end.

Definition sorted_desc {A} (l : list (list Z * A)) : list (list Z * A) :=
  fold_right insert_desc [] l.

(** [while len(parts) < 3: parts.append(0)] *)
Definition pad3 (parts : list Z) : list Z :=
  parts ++ repeat 0%Z (3 - length parts).

(** The identifier an f-string [v{a}.{b}.{c}] prints. *)
Definition fmt (a b c : Z) : pystr :=
  u "v" ++ str a ++ u "." ++ str b ++ u "." ++ str c.

(** [a <= b] on keys: [not (b < a)]. *)
Definition key_le (a b : list Z) : Prop := key_lt b a = false.

(** The first element of a list of keyed elements is a greatest one. *)
Definition head_max {A} (l : list (list Z * A)) : Prop :=
  match l with
  | [] => True
  | h :: _ => forall y, In y l -> key_le (fst y) (fst h)
  end.

(** What [_increment_version] does to a key, by the kind of version. *)
Definition bump (kind : pystr) (k : list Z) : list Z :=
  let parts := pad3 k in
  if PyStr.eqb kind (u "major") then [nth 0 parts 0 + 1; 0; 0]%Z
  else if PyStr.eqb kind (u "minor") then [nth 0 parts 0; nth 1 parts 0 + 1; 0]%Z
  else [nth 0 parts 0; nth 1 parts 0; nth 2 parts 0 + 1]%Z.

End SemVer.
Import SemVer.

(* ------------------------------------------------------------------ *)
(** ** Reading a text file: [open(p, 'r', encoding='utf-8').readlines()] *)

Module Text.

Definition cont (b : N) : bool := N.leb 128 b && N.leb b 191.
Definition between (lo hi b : N) : bool := N.leb lo b && N.leb b hi.

(** The strict UTF-8 decoder; [None] is [UnicodeDecodeError]. *)
Fixpoint utf8_decode (bs : list N) : option pystr :=
  match bs with
  | [] => Some []
  | b0 :: r0 =>
      if N.ltb b0 128 then option_map (cons b0) (utf8_decode r0)
      else if between 194 223 b0 then
        match r0 with
        | b1 :: r1 =>
            if cont b1
            then option_map (cons ((b0 - 192) * 64 + (b1 - 128))%N)
                            (utf8_decode r1)
            else None
        | _ => None
        end
      else if between 224 239 b0 then
        match r0 with
        | b1 :: b2 :: r2 =>
            if between (if N.eqb b0 224 then 160 else 128)
                       (if N.eqb b0 237 then 159 else 191) b1 && cont b2
            then option_map
                   (cons ((b0 - 224) * 4096 + (b1 - 128) * 64 + (b2 - 128))%N)
                   (utf8_decode r2)
            else None
        | _ => None
        end
      else if between 240 244 b0 then
        match r0 with
        | b1 :: b2 :: b3 :: r3 =>
            if between (if N.eqb b0 240 then 144 else 128)
                       (if N.eqb b0 244 then 143 else 191) b1
               && cont b2 && cont b3
            then option_map
                   (cons ((b0 - 240) * 262144 + (b1 - 128) * 4096
                          + (b2 - 128) * 64 + (b3 - 128))%N)
                   (utf8_decode r3)
            else None
        | _ => None
        end
      else None
  end.

(** Universal newlines: [\r\n] and [\r] are read as [\n]. *)
Fixpoint universal_newlines (s : pystr) : pystr :=
  match s with
  | [] => []
  | c :: s' =>
      if N.eqb c 13 then
        10%N :: match s' with
                | d :: s'' =>
                    if N.eqb d 10 then universal_newlines s''
                    else universal_newlines s'
                | [] => []
                end
      else c :: universal_newlines s'
  end.

(** [readlines()]: every line keeps its [\n]. *)
Fixpoint readlines (s : pystr) : list pystr :=
  match s with
  | [] => []
  | c :: s' =>
      if N.eqb c 10 then [c] :: readlines s'
      else match readlines s' with
           | l :: ls => (c :: l) :: ls
           | [] => [[c]]
           end
  end.

Definition read_text_lines (content : list byte) : option (list pystr) :=
  option_map (fun t => readlines (universal_newlines t))
             (utf8_decode (map Byte.to_N content)).

End Text.

(* ------------------------------------------------------------------ *)
(** ** [difflib]: [SequenceMatcher(None, a, b)] and [unified_diff] *)

Module Difflib.

Inductive tag := replace | delete | insert | equal.

Definition is_equal (t : tag) : bool :=
  match t with equal => true | _ => false end.

Definition opcode : Type := tag * nat * nat * nat * nat.
Definition block : Type := nat * nat * nat.

(** Python's [<] on two triples of integers. *)
Definition block_lt (x y : block) : bool :=
  let '(i1, j1, k1) := x in
  let '(i2, j2, k2) := y in
  if i1 <? i2 then true else if i2 <? i1 then false
  else if j1 <? j2 then true else if j2 <? j1 then false
  else k1 <? k2.

Fixpoint insert_block (x : block) (l : list block) : list block :=
  match l with
  | [] => [x]
  | y :: l' => if block_lt x y then x :: l else y :: insert_block x l'
  end.

(** [matching_blocks.sort()] *)
Definition sort_blocks (l : list block) : list block :=
  fold_right insert_block [] l.

(** The loop that merges adjacent blocks, with its running triple. *)
Fixpoint collapse (cur : block) (l : list block) : list block :=
  let '(i1, j1, k1) := cur in
  match l with
  | [] => if k1 =? 0 then [] else [cur]
  | (i2, j2, k2) :: l' =>
      if (i1 + k1 =? i2) && (j1 + k1 =? j2) then collapse (i1, j1, k1 + k2) l'
      else (if k1 =? 0 then [] else [cur]) ++ collapse (i2, j2, k2) l'
  end.

Definition upd (j k : nat) (f : nat -> nat) : nat -> nat :=
  fun x => if x =? j then k else f x.

Section Matcher.

Variable E : Type.
Variable eqb : E -> E -> bool.

(** [d.setdefault(elt, []).append(i)] on a dictionary kept in insertion
    order. *)
Fixpoint setdefault_append (elt : E) (i : nat) (d : list (E * list nat))
  : list (E * list nat) :=
  match d with
  | [] => [(elt, [i])]
  | (y, idxs) :: d' =>
      if eqb y elt then (y, idxs ++ [i]) :: d'
      else (y, idxs) :: setdefault_append elt i d'
  end.

Fixpoint build_b2j (i : nat) (b : list E) (d : list (E * list nat))
  : list (E * list nat) :=
  match b with
  | [] => d
  | elt :: b' => build_b2j (S i) b' (setdefault_append elt i d)
  end.

(** [__chain_b] with [isjunk=None] and [autojunk=True]: no junk, and the
    popular elements of a long [b] are purged. *)
Definition chain_b (b : list E) : list (E * list nat) :=
  let b2j := build_b2j 0 b [] in
  let n := length b in
  if 200 <=? n then
    let ntest := n / 100 + 1 in
    filter (fun p => negb (ntest <? length (snd p))) b2j
  else b2j.

(** [b2j.get(x, [])] *)
Definition b2j_get (b2j : list (E * list nat)) (x : option E) : list nat :=
  match x with
  | Some x =>
      match find (fun p => eqb (fst p) x) b2j with
      | Some p => snd p
      | None => []
      end
  | None => []
  end.

(** [self.bjunk] is the empty set. *)
Definition isbjunk (x : option E) : bool := false.

Definition elem_eq (x y : option E) : bool :=
  match x, y with
  | Some x, Some y => eqb x y
  | _, _ => false
  end.

Variables a b : list E.
Variable b2j : list (E * list nat).

(** The loop over the places [j] of [a[i]] in [b]. *)
Fixpoint row (blo bhi i : nat) (js : list nat) (j2len newj2len : nat -> nat)
  (best : block) : (nat -> nat) * block :=
  match js with
  | [] => (newj2len, best)
  | j :: js' =>
      if j <? blo then row blo bhi i js' j2len newj2len best
      else if bhi <=? j then (newj2len, best)
      else
        let k := (match j with O => 0 | S j' => j2len j' end) + 1 in
        let '(_, _, bestsize) := best in
        row blo bhi i js' j2len (upd j k newj2len)
            (if bestsize <? k then (i + 1 - k, j + 1 - k, k) else best)
  end.

(** [for i in range(alo, ahi)], given as the list of its indices. *)
Fixpoint rows (blo bhi : nat) (is_ : list nat) (j2len : nat -> nat)
  (best : block) : block :=
  match is_ with
  | [] => best
  | i :: is' =>
      let '(newj2len, best') :=
        row blo bhi i (b2j_get b2j (nth_error a i)) j2len (fun _ => 0) best in
      rows blo bhi is' newj2len best'
  end.

(** The two loops that extend a match to the left: over elements that are
    not junk ([junk = false]), then over junk. *)
Fixpoint extend_left (junk : bool) (alo blo besti bestj bestsize : nat)
  : block :=
  match besti, bestj with
  | S i', S j' =>
      if (alo <? besti) && (blo <? bestj)
         && Bool.eqb (isbjunk (nth_error b j')) junk
         && elem_eq (nth_error a i') (nth_error b j')
      then extend_left junk alo blo i' j' (S bestsize)
      else (besti, bestj, bestsize)
  | _, _ => (besti, bestj, bestsize)
  end.

(** The loops that extend it to the right run at most [ahi] times. *)
Fixpoint extend_right (fuel : nat) (junk : bool) (ahi bhi besti bestj
  bestsize : nat) : block :=
  match fuel with
  | O => (besti, bestj, bestsize)
  | S fuel' =>
      if (besti + bestsize <? ahi) && (bestj + bestsize <? bhi)
         && Bool.eqb (isbjunk (nth_error b (bestj + bestsize))) junk
         && elem_eq (nth_error a (besti + bestsize))
                    (nth_error b (bestj + bestsize))
      then extend_right fuel' junk ahi bhi besti bestj (S bestsize)
      else (besti, bestj, bestsize)
  end.

Definition find_longest_match (alo ahi blo bhi : nat) : block :=
  let '(besti, bestj, bestsize) :=
    rows blo bhi (seq alo (ahi - alo)) (fun _ => 0) (alo, blo, 0) in
  let '(besti, bestj, bestsize) :=
    extend_left false alo blo besti bestj bestsize in
  let '(besti, bestj, bestsize) :=
    extend_right ahi false ahi bhi besti bestj bestsize in
  let '(besti, bestj, bestsize) :=
    extend_left true alo blo besti bestj bestsize in
  extend_right ahi true ahi bhi besti bestj bestsize.

(** [while queue:] of [get_matching_blocks]; the list [queue] has the top of
    the stack first. [None]: more than [fuel] iterations. *)
Fixpoint blocks_loop (fuel : nat) (queue : list (nat * nat * nat * nat))
  (matching_blocks : list block) : option (list block) :=
  match queue with
  | [] => Some matching_blocks
  | (alo, ahi, blo, bhi) :: queue' =>
      match fuel with
      | O => None
      | S fuel' =>
          let '(i, j, k) := find_longest_match alo ahi blo bhi in
          if k =? 0 then blocks_loop fuel' queue' matching_blocks
          else
            let q1 := if (alo <? i) && (blo <? j)
                      then (alo, i, blo, j) :: queue' else queue' in
            let q2 := if (i + k <? ahi) && (j + k <? bhi)
                      then (i + k, ahi, j + k, bhi) :: q1 else q1 in
            blocks_loop fuel' q2 (matching_blocks ++ [(i, j, k)])
      end
  end.

End Matcher.

Section SequenceMatcher.

Variable E : Type.
Variable eqb : E -> E -> bool.
Variables a b : list E.

Definition raw_blocks : option (list block) :=
  blocks_loop eqb a b (chain_b eqb b) (2 * length a + 1)
              [(0, length a, 0, length b)] [].

Definition get_matching_blocks : list block :=
  match raw_blocks with
  | Some matching_blocks =>
      collapse (0, 0, 0) (sort_blocks matching_blocks)
      ++ [(length a, length b, 0)]
  | None => []
  end.

(** The loop of [get_opcodes], with its running [i] and [j]. *)
Fixpoint opcodes_from (i j : nat) (blocks : list block) : list opcode :=
  match blocks with
  | [] => []
  | (ai, bj, size) :: blocks' =>
      (if (i <? ai) && (j <? bj) then [(replace, i, ai, j, bj)]
       else if i <? ai then [(delete, i, ai, j, bj)]
       else if j <? bj then [(insert, i, ai, j, bj)]
       else [])
      ++ (if size =? 0 then [] else [(equal, ai, ai + size, bj, bj + size)])
      ++ opcodes_from (ai + size) (bj + size) blocks'
  end.

Definition get_opcodes : list opcode := opcodes_from 0 0 get_matching_blocks.

Definition fix_first (n : nat) (codes : list opcode) : list opcode :=
  match codes with
  | (equal, i1, i2, j1, j2) :: codes' =>
      (equal, Nat.max i1 (i2 - n), i2, Nat.max j1 (j2 - n), j2) :: codes'
  | _ => codes
  end.

Fixpoint fix_last (n : nat) (codes : list opcode) : list opcode :=
  match codes with
  | [] => []
  | [(equal, i1, i2, j1, j2)] =>
      [(equal, i1, Nat.min i2 (i1 + n), j1, Nat.min j2 (j1 + n))]
  | c :: codes' => c :: fix_last n codes'
  end.

(** The grouping loop: the groups yielded so far and the open group. *)
Fixpoint group_loop (n : nat) (codes : list opcode) (group : list opcode)
  : list (list opcode) :=
  match codes with
  | [] =>
      match group with
      | [] => []
      | [(equal, _, _, _, _)] => []
      | _ => [group]
      end
  | (t, i1, i2, j1, j2) :: codes' =>
      if is_equal t && (n + n <? i2 - i1) then
        (group ++ [(t, i1, Nat.min i2 (i1 + n), j1, Nat.min j2 (j1 + n))])
        :: group_loop n codes'
             [(t, Nat.max i1 (i2 - n), i2, Nat.max j1 (j2 - n), j2)]
      else group_loop n codes' (group ++ [(t, i1, i2, j1, j2)])
  end.

Definition get_grouped_opcodes (n : nat) : list (list opcode) :=
  let codes := match get_opcodes with
               | [] => [(equal, 0, 1, 0, 1)]
               | codes => codes
               end in
  group_loop n (fix_last n (fix_first n codes)) [].

(** [2.0 * matches / length], as the rational the float rounds. *)
Definition calculate_ratio (matches length : nat) : Q :=
  match length with
  | O => 1%Q
  | S _ => (Z.of_nat (2 * matches) # Pos.of_nat length)%Q
  end.

Definition matches : nat :=
  fold_right (fun t acc => snd t + acc) 0 get_matching_blocks.

Definition ratio : Q := calculate_ratio matches (length a + length b).

End SequenceMatcher.

(** Vocabulary for the facts about the matcher: a block inside a window,
    the sizes of a list of blocks, and the windows waiting in the queue. *)
Definition window : Type := nat * nat * nat * nat.

Definition inside (w : window) (x : block) : Prop :=
  let '(alo, ahi, blo, bhi) := w in
  let '(i, j, k) := x in
  alo <= i /\ i + k <= ahi /\ blo <= j /\ j + k <= bhi.

Definition window_ok (w : window) : Prop :=
  let '(alo, ahi, blo, bhi) := w in alo <= ahi /\ blo <= bhi.

Definition size_sum (l : list block) : nat :=
  fold_right (fun t acc => snd t + acc) 0 l.

Definition span_a (q : list window) : nat :=
  fold_right (fun w acc => let '(alo, ahi, _, _) := w in ahi - alo + acc) 0 q.

Definition span_b (q : list window) : nat :=
  fold_right (fun w acc => let '(_, _, blo, bhi) := w in bhi - blo + acc) 0 q.

Definition weight (q : list window) : nat :=
  fold_right (fun w acc =>
                let '(alo, ahi, _, _) := w in 2 * (ahi - alo) + 1 + acc) 0 q.

(** The lengths in a row of the table [j2len] are bounded by the rows
    and the columns of the window seen so far. *)
Definition row_bounded (alo blo i : nat) (j2len : nat -> nat) : Prop :=
  forall j, j2len j <= i - alo /\ j2len j <= j + 1 - blo.

(** The places of [x] in [l], counted from [i]. *)
Fixpoint positions {E} (eqb : E -> E -> bool) (x : E) (i : nat) (l : list E)
  : list nat :=
  match l with
  | [] => []
  | y :: l' =>
      if eqb y x then i :: positions eqb x (S i) l'
      else positions eqb x (S i) l'
  end.

(** The length the table gets at column [j], from the row before. *)
Definition cell (j2len : nat -> nat) (j : nat) : nat :=
  match j with O => 0 | S j' => j2len j' end + 1.

(** The table [j2len] at the start of row [i], when a sequence [s] is
    matched against itself over its whole length. *)
Fixpoint j2len_at {E} (eqb : E -> E -> bool) (s : list E)
  (b2j : list (E * list nat)) (i : nat) : nat -> nat :=
  match i with
  | O => fun _ => 0
  | S i' =>
      fst (row 0 (length s) i' (b2j_get eqb b2j (nth_error s i'))
             (j2len_at eqb s b2j i') (fun _ => 0) (0, 0, 0))
  end.

(** One block ends before the other starts, in both sequences. *)
Definition before (x y : block) : Prop :=
  let '(i1, j1, k1) := x in
  let '(i2, j2, k2) := y in
  i1 + k1 <= i2 /\ j1 + k1 <= j2.

(** The window a block covers. *)
Definition rect (x : block) : window :=
  let '(i, j, k) := x in (i, i + k, j, j + k).

(** Two windows share no row and no column, one lying before the other. *)
Definition apart (w1 w2 : window) : Prop :=
  let '(alo1, ahi1, blo1, bhi1) := w1 in
  let '(alo2, ahi2, blo2, bhi2) := w2 in
  (ahi1 <= alo2 /\ bhi1 <= blo2) \/ (ahi2 <= alo1 /\ bhi2 <= blo1).

Definition within (w sub : window) : Prop :=
  let '(alo, ahi, blo, bhi) := w in
  let '(alo', ahi', blo', bhi') := sub in
  alo <= alo' /\ ahi' <= ahi /\ blo <= blo' /\ bhi' <= bhi.

Fixpoint pairwise {A} (R : A -> A -> Prop) (l : list A) : Prop :=
  match l with
  | [] => True
  | x :: l' => Forall (R x) l' /\ pairwise R l'
  end.

(** Blocks in increasing order in both sequences, from [(i, j)] up to the
    lengths [(la, lb)]. *)
Fixpoint chain_to (la lb i j : nat) (l : list block) : Prop :=
  match l with
  | [] => i <= la /\ j <= lb
  | (ai, bj, size) :: l' =>
      i <= ai /\ j <= bj /\ chain_to la lb (ai + size) (bj + size) l'
  end.

(** What holds of the queue and of the blocks found, all along the loop
    of [get_matching_blocks] over the window [W]. *)
Definition loop_inv (W : window) (queue : list window) (acc : list block)
  : Prop :=
  Forall window_ok queue
  /\ Forall (within W) queue
  /\ pairwise apart queue
  /\ Forall (fun w => Forall (fun y => apart w (rect y)) acc) queue
  /\ pairwise apart (map rect acc)
  /\ Forall (inside W) acc
  /\ Forall (fun x => snd x <> 0) acc.

(** [a[i1:i2]] for [0 <= i1] *)
Definition slice {A} (l : list A) (i1 i2 : nat) : list A :=
  firstn (i2 - i1) (skipn i1 l).

(** The lines an opcode adds to the diff, the lines it deletes, and the
    sum of such a count over a list of opcodes. *)
Definition added1 {A} (b : list A) (c : opcode) : nat :=
  let '(t, _, _, j1, j2) := c in
  match t with
  | replace | insert => length (slice b j1 j2)
  | _ => 0
  end.

Definition removed1 {A} (a : list A) (c : opcode) : nat :=
  let '(t, i1, i2, _, _) := c in
  match t with
  | replace | delete => length (slice a i1 i2)
  | _ => 0
  end.

Definition total (f : opcode -> nat) (codes : list opcode) : nat :=
  fold_right (fun c acc => f c + acc) 0 codes.

Definition total_groups (f : opcode -> nat) (groups : list (list opcode))
  : nat :=
  fold_right (fun g acc => total f g + acc) 0 groups.

Definition str_nat (n : nat) : pystr := PyInt.str (Z.of_nat n).

Definition format_range_unified (start stop : nat) : pystr :=
  let beginning := start + 1 in
  let length := stop - start in
  if length =? 1 then str_nat beginning
  else str_nat (if length =? 0 then beginning - 1 else beginning)
       ++ u "," ++ str_nat length.

Definition group_lines (a b : list pystr) (group : list opcode) : list pystr :=
  flat_map
    (fun c : opcode =>
       let '(t, i1, i2, j1, j2) := c in
       match t with
       | equal => map (cons 32%N) (slice a i1 i2)
       | replace => map (cons 45%N) (slice a i1 i2)
                    ++ map (cons 43%N) (slice b j1 j2)
       | delete => map (cons 45%N) (slice a i1 i2)
       | insert => map (cons 43%N) (slice b j1 j2)
       end)
    group.

Definition hunk (a b : list pystr) (group : list opcode) : list pystr :=
  let '(_, f1, _, f3, _) := hd (equal, 0, 0, 0, 0) group in
  let '(_, _, l2, _, l4) := last group (equal, 0, 0, 0, 0) in
  (u "@@ -" ++ format_range_unified f1 l2 ++ u " +"
     ++ format_range_unified f3 l4 ++ u " @@" ++ [10%N])
  :: group_lines a b group.

(** [list(unified_diff(a, b, fromfile=.., tofile=.., n=n))] *)
Definition unified_diff (a b : list pystr) (fromfile tofile : pystr) (n : nat)
  : list pystr :=
  match get_grouped_opcodes PyStr.eqb a b n with
  | [] => []
  | groups =>
      (u "--- " ++ fromfile ++ [10%N])
      :: (u "+++ " ++ tofile ++ [10%N])
      :: flat_map (hunk a b) groups
  end.

End Difflib.

(* ------------------------------------------------------------------ *)
(** ** StandardVersionControl *)

Section Controller.

Variable P : Platform.

Definition py_int (s : pystr) : option Z :=
  if is_ascii s then int_ascii s else int_unicode P s.

(** [[int(x) for x in id.lstrip('v').split('.')]]; [None] is the
    [ValueError] of [int]. *)
Definition version_key (id : pystr) : option (list Z) :=
  map_opt py_int (split 46 (lstrip 118 id)).

Definition keyed (v : Version) : option (list Z * Version) :=
  option_map (fun k => (k, v)) (version_key (version_id v)).

(** [sorted(vs, key=lambda v: [int(x) ...], reverse=True)] *)
Definition sorted_versions_desc (vs : list Version) : option (list Version) :=
  option_map (fun kvs => map snd (sorted_desc kvs)) (map_opt keyed vs).

Definition set_mem (l : Ledger) : M unit :=
  fun s => (Ok tt, {| mem := l; world := world s |}).

Definition set_versions (vs : list Version) : M unit :=
  s <- get ;; set_mem {| versions := vs; history := history (mem s) |}.

Definition _get_current_user : pystr :=
  match getlogin P with Some n => n | None => u "unknown" end.

Definition _get_latest_version : M (option Version) :=
  s <- get ;;
  match versions (mem s) with
  | [] => ret None
  | vs =>
      sorted <- of_option ValueError (sorted_versions_desc vs) ;;
      v <- of_option IndexError (hd_error sorted) ;;
      ret (Some v)
  end.

Definition _increment_version (version version_type : pystr) : option pystr :=
  match map_opt py_int (split 46 (lstrip 118 version)) with
  | None => None
  | Some parts =>
      let parts := pad3 parts in
      let major := nth 0 parts 0%Z in
      let minor := nth 1 parts 0%Z in
      let patch := nth 2 parts 0%Z in
      Some (if PyStr.eqb version_type (u "major") then
              u "v" ++ str (major + 1) ++ u ".0.0"
            else if PyStr.eqb version_type (u "minor") then
              u "v" ++ str major ++ u "." ++ str (minor + 1) ++ u ".0"
            else
              u "v" ++ str major ++ u "." ++ str minor ++ u "." ++ str (patch + 1))
  end.

Definition _find_version (l : Ledger) (id : pystr) : option Version :=
  find (fun v => PyStr.eqb (version_id v) id) (versions l).

Definition _verify_version_integrity (version : Version) : M bool :=
  ex <- exists_ (file version) ;;
  if negb ex then ret false
  else
    content <- read_bytes (file version) ;;
    let current_hash := sha256_hex P content in
    if negb (PyStr.eqb current_hash (hash version)) then ret false
    else ret true.

Definition _save_versions : M unit :=
  try_except
    (s <- get ;;
     write_bytes VERSION_FILE (json_dump P (mem s)) ;;;
     if json_dump_raises P (mem s) then raise ValueError else ret tt)
    (ret tt).

Definition _add_history (entry : HistoryEntry) : M unit :=
  s <- get ;;
  set_mem {| versions := versions (mem s);
             history := Some (history_list (mem s) ++ [entry]) |}.

Definition _backup_version (file_path id : pystr) : M unit :=
  ex <- exists_ file_path ;;
  if negb ex then ret tt
  else
    let backup_name := basename file_path ++ u "." ++ id in
    try_except (copy2 file_path (backup_path backup_name)) (ret tt).

Definition _restore_from_backup (id : pystr) : M bool :=
  s <- get ;;
  match _find_version (mem s) id with
  | None => ret false
  | Some version =>
      let file_path := file version in
      let backup_name := basename file_path ++ u "." ++ id in
      ex <- exists_ (backup_path backup_name) ;;
      if negb ex then ret false
      else
        try_except
          (copy2 (backup_path backup_name) file_path ;;; ret true)
          (ret false)
  end.

Definition set_active (v : Version) (b : bool) : Version :=
  {| version_id := version_id v; timestamp := timestamp v; file := file v;
     hash := hash v; description := description v;
     active := b; stable := stable v; compatibility := compatibility v |}.

Definition set_stable (v : Version) (b : bool) : Version :=
  {| version_id := version_id v; timestamp := timestamp v; file := file v;
     hash := hash v; description := description v;
     active := active v; stable := b; compatibility := compatibility v |}.

Definition history_entry (act id : pystr) (t : nat) : HistoryEntry :=
  {| action := act; h_version_id := id; h_timestamp := now_iso P t;
     user := _get_current_user |}.

Definition create_version (standard_path descr version_type : pystr)
  : M Version :=
  ex <- exists_ standard_path ;;
  if negb ex then raise FileNotFoundError
  else
    content <- read_bytes standard_path ;;
    let content_hash := sha256_hex P content in
    last_version <- _get_latest_version ;;
    id <- match last_version with
          | Some lv =>
              of_option ValueError
                (_increment_version (version_id lv) version_type)
          | None => ret (u "v1.0.0")
          end ;;
    t1 <- now ;;
    let new_version :=
      {| version_id := id; timestamp := now_iso P t1; file := standard_path;
         hash := content_hash; description := descr;
         active := false; stable := false;
         compatibility := [u "v1.0.0"] |} in
    s <- get ;;
    set_versions (versions (mem s) ++ [new_version]) ;;;
    t2 <- now ;;
    _add_history (history_entry (u "create") id t2) ;;;
    _save_versions ;;;
    _backup_version standard_path id ;;;
    ret new_version.

Definition activate_version (id : pystr) : M unit :=
  s <- get ;;
  match _find_version (mem s) id with
  | None => raise VersionNotFoundError
  | Some version =>
      ok <- _verify_version_integrity version ;;
      if negb ok then raise VersionIntegrityError
      else
        s <- get ;;
        set_versions
          (map (fun v => set_active v (PyStr.eqb (version_id v) id))
               (versions (mem s))) ;;;
        t <- now ;;
        _add_history (history_entry (u "activate") id t) ;;;
        _save_versions
  end.

Definition get_active_version (l : Ledger) : option Version :=
  find active (versions l).

(** [version['stable'] = True] on the dictionary [_find_version] returned:
    the first entry of that id. *)
Fixpoint mark_first (id : pystr) (vs : list Version) : list Version :=
  match vs with
  | [] => []
  | v :: vs' =>
      if PyStr.eqb (version_id v) id then set_stable v true :: vs'
      else v :: mark_first id vs'
  end.

Definition mark_as_stable (id : pystr) : M unit :=
  s <- get ;;
  match _find_version (mem s) id with
  | None => raise VersionNotFoundError
  | Some _ =>
      set_versions (mark_first id (versions (mem s))) ;;;
      t <- now ;;
      _add_history (history_entry (u "mark_stable") id t) ;;;
      _save_versions
  end.

Definition get_stable_versions (l : Ledger) : list Version :=
  filter stable (versions l).

Definition rollback_to_version (id : pystr) : M unit :=
  s <- get ;;
  match _find_version (mem s) id with
  | None => raise VersionNotFoundError
  | Some version =>
      ok <- _verify_version_integrity version ;;
      (if negb ok then
         restored <- _restore_from_backup id ;;
         if restored then ret tt else raise VersionIntegrityError
       else ret tt) ;;;
      activate_version id ;;;
      t <- now ;;
      _add_history (history_entry (u "rollback") id t)
  end.

Definition rollback_to_last_stable : M (option pystr) :=
  s <- get ;;
  match get_stable_versions (mem s) with
  | [] => ret None
  | stable_versions =>
      sorted <- of_option ValueError (sorted_versions_desc stable_versions) ;;
      latest_stable <- of_option IndexError (hd_error sorted) ;;
      rollback_to_version (version_id latest_stable) ;;;
      ret (Some (version_id latest_stable))
  end.

Definition _backup_corrupt_file (file_path : pystr) : M unit :=
  t <- now ;;
  let backup_name :=
    basename file_path ++ u "." ++ now_compact P t ++ u ".bak" in
  copy2 file_path (backup_path backup_name).

(** A file of another JSON shape is returned as it is by the source and
    fails at the first [self.versions['versions']], in [__init__]. *)
Definition _load_versions : M Ledger :=
  ex <- exists_ VERSION_FILE ;;
  if ex then
    content <- read_bytes VERSION_FILE ;;
    match json_load P content with
    | JsonLedger l => ret l
    | JsonDecodeError =>
        _backup_corrupt_file VERSION_FILE ;;; ret empty_ledger
    | JsonUnicodeError => raise UnicodeDecodeError
    | JsonOtherShape => raise KeyError
    | JsonNotObject => raise TypeError
    end
  else ret empty_ledger.

(** [StandardVersionControl(repo_path)] from its second statement on,
    that is, once the backup directory is there. *)
Definition init : M unit :=
  l <- _load_versions ;; set_mem l.

(** [StandardVersionControl(repo_path)] *)
Definition __init__ : M unit :=
  mkdir_exist_ok BACKUP_DIR ;;; init.

(** The dictionary [compare_versions] returns; [similarity] is the
    rational that the float [matcher.ratio() * 100] rounds. *)
Record Comparison := mkComparison {
  version1 : pystr;
  version2 : pystr;
  similarity : Q;
  additions : nat;
  deletions : nat;
  diff : pystr
}.

(** [open(p, 'r', encoding='utf-8').readlines()] *)
Definition read_lines (p : pystr) : M (list pystr) :=
  content <- read_bytes p ;;
  of_option UnicodeDecodeError (Text.read_text_lines content).

(** The code points of the label of a diff header: U+7248 U+672C, a
    space, the identifier. *)
Definition diff_label (id : pystr) : pystr := [29256%N; 26412%N; 32%N] ++ id.

Definition compare_contents (id1 id2 : pystr) (content1 content2 : list pystr)
  : Comparison :=
  let diff := Difflib.unified_diff content1 content2
                (diff_label id1) (diff_label id2) 3 in
  let similarity :=
    (Difflib.ratio N.eqb (concat content1) (concat content2) * 100)%Q in
  {| version1 := id1;
     version2 := id2;
     similarity := similarity;
     additions := length (filter (startswith 43) diff);
     deletions := length (filter (startswith 45) diff);
     diff := concat diff |}.

Definition compare_versions (id1 id2 : pystr) : M Comparison :=
  s <- get ;;
  match _find_version (mem s) id1, _find_version (mem s) id2 with
  | None, _ => raise VersionNotFoundError
  | Some _, None => raise VersionNotFoundError
  | Some v1, Some v2 =>
      let file_path1 := file v1 in
      let file_path2 := file v2 in
      e1 <- exists_ file_path1 ;;
      e2 <- exists_ file_path2 ;;
      (if negb e1 || negb e2 then
         e1 <- exists_ file_path1 ;;
         (if negb e1 then _restore_from_backup id1 ;;; ret tt else ret tt) ;;;
         e2 <- exists_ file_path2 ;;
         (if negb e2 then _restore_from_backup id2 ;;; ret tt else ret tt) ;;;
         e1 <- exists_ file_path1 ;;
         e2 <- exists_ file_path2 ;;
         if negb e1 || negb e2 then raise FileNotFoundError else ret tt
       else ret tt) ;;;
      content1 <- read_lines file_path1 ;;
      content2 <- read_lines file_path2 ;;
      ret (compare_contents id1 id2 content1 content2)
  end.

End Controller.

(* ------------------------------------------------------------------ *)
(** ** Vocabulary of the properties *)

Definition ids (l : Ledger) : list pystr := map version_id (versions l).

(** No two entries of a list of identifiers are equal. *)
Fixpoint distinct (l : list pystr) : bool :=
  match l with
  | [] => true
  | x :: l' => negb (existsb (PyStr.eqb x) l') && distinct l'
  end.

(** The ledger invariant of the data model: identifiers are unique. *)
Definition unique_ids (l : Ledger) : bool := distinct (ids l).

Definition active_count (l : Ledger) : nat :=
  length (filter active (versions l)).

(** The identifier [create_version] gives the next version of a ledger;
    [None] when a recorded identifier is not numeric. *)
Definition next_version_id (P : Platform) (kind : pystr) (vs : list Version)
  : option pystr :=
  match vs with
  | [] => Some (u "v1.0.0")
  | _ =>
      match sorted_versions_desc P vs with
      | Some (lv :: _) => _increment_version P (version_id lv) kind
      | _ => None
      end
  end.

Definition tick_world (n : nat) (w : World) : World :=
  {| files := files w; dirs := dirs w; readonly := readonly w;
     tick := n + tick w |}.

(** The world after [_save_versions] of ledger [l]. *)
Definition save_world (P : Platform) (l : Ledger) (w : World) : World :=
  if readonly w VERSION_FILE then w
  else fs_set VERSION_FILE (json_dump P l) w.

(** The world after a [shutil.copy2] whose failure is swallowed. *)
Definition copy_world (src dst : pystr) (w : World) : World :=
  match files w src with
  | None => w
  | Some c =>
      if PyStr.eqb src dst then w
      else if readonly w dst then w
      else fs_set dst c w
  end.

Definition add_entry (l : Ledger) (vs : list Version) (e : HistoryEntry)
  : Ledger :=
  {| versions := vs; history := Some (history_list l ++ [e]) |}.

(** The entry [create_version] builds for content [c] at clock reading
    [t]. *)
Definition created_version (P : Platform) (path descr id : pystr)
  (c : list byte) (t : nat) : Version :=
  {| version_id := id; timestamp := now_iso P t; file := path;
     hash := sha256_hex P c; description := descr;
     active := false; stable := false; compatibility := [u "v1.0.0"] |}.

(** The live file of a version exists and has the recorded hash. *)
Definition integrity_ok (P : Platform) (w : World) (v : Version) : bool :=
  match files w (file v) with
  | Some c => PyStr.eqb (sha256_hex P c) (hash v)
  | None => false
  end.

(** The versions after [activate_version id]. *)
Definition activated (id : pystr) (vs : list Version) : list Version :=
  map (fun v => set_active v (PyStr.eqb (version_id v) id)) vs.

(** The state a successful [activate_version id] leaves. *)
Definition after_activate (P : Platform) (id : pystr) (s : State) : State :=
  let l := add_entry (mem s) (activated id (versions (mem s)))
             (history_entry P (u "activate") id (tick (world s))) in
  {| mem := l; world := save_world P l (tick_world 1 (world s)) |}.

(** The path of the snapshot of version [id] of the file at [path]. *)
Definition snapshot_path (path id : pystr) : pystr :=
  backup_path (basename path ++ u "." ++ id).

Definition with_world (s : State) (w : World) : State :=
  {| mem := mem s; world := w |}.

(** The state a successful [mark_as_stable id] leaves. *)
Definition after_mark (P : Platform) (id : pystr) (s : State) : State :=
  let l := add_entry (mem s) (mark_first id (versions (mem s)))
             (history_entry P (u "mark_stable") id (tick (world s))) in
  {| mem := l; world := save_world P l (tick_world 1 (world s)) |}.

(** Whether [_restore_from_backup] can copy the snapshot of [v] back. *)
Definition restorable (w : World) (v : Version) (id : pystr) : bool :=
  match files w (snapshot_path (file v) id) with
  | None => false
  | Some _ =>
      negb (PyStr.eqb (snapshot_path (file v) id) (file v)
            || readonly w (file v))
  end.

(** The end of [rollback_to_version]: the activation, then the history
    entry of the rollback. *)
Definition rollback_tail (P : Platform) (id : pystr) (s : State)
  : outcome unit * State :=
  match activate_version P id s with
  | (Ok _, s2) =>
      (Ok tt,
       {| mem := add_entry (mem s2) (versions (mem s2))
                   (history_entry P (u "rollback") id (tick (world s2)));
          world := tick_world 1 (world s2) |})
  | (Raise e, s2) => (Raise e, s2)
  end.

(** The invariant of a ledger: unique identifiers, at most one active
    version. *)
Definition ledger_ok (l : Ledger) : Prop :=
  unique_ids l = true /\ active_count l <= 1.

(** An operation that leaves [self.versions] as it was. *)
Definition keeps_mem {A} (m : M A) : Prop :=
  forall s, mem (snd (m s)) = mem s.

(** The history of [l'] is the history of [l] and one more entry, of
    action [act] for version [id]. *)
Definition logged (P : Platform) (act id : pystr) (l l' : Ledger) : Prop :=
  exists t, history_list l' = history_list l ++ [history_entry P act id t].

(** What a mutating operation leaves in the version file: what [json.dump]
    wrote of the ledger in memory when the file can be opened for writing,
    what was there when it cannot. *)
Definition flushed (P : Platform) (s s' : State) : Prop :=
  if readonly (world s) VERSION_FILE
  then files (world s') VERSION_FILE = files (world s) VERSION_FILE
  else files (world s') VERSION_FILE = Some (json_dump P (mem s')).

(** Where [_backup_corrupt_file] copies the version file at clock reading
    [t]. *)
Definition archive_path (P : Platform) (t : nat) : pystr :=
  backup_path (VERSION_FILE ++ u "." ++ now_compact P t ++ u ".bak").

(** What [rollback_to_last_stable] returns when it delegates to the
    rollback to [id]. *)
Definition delegated (P : Platform) (id : pystr) (s : State)
  : outcome (option pystr) * State :=
  (match fst (rollback_to_version P id s) with
   | Ok _ => Ok (Some id)
   | Raise e => Raise e
   end,
   snd (rollback_to_version P id s)).

(** The file at [p] exists. *)
Definition live (w : World) (p : pystr) : bool :=
  match files w p with Some _ => true | None => false end.

(** The text [compare_versions] reads at [p]. *)
Definition text_at (w : World) (p : pystr) : option (list pystr) :=
  match files w p with
  | Some c => Text.read_text_lines c
  | None => None
  end.

(** The public operations, as calls. *)
Inductive call :=
| Create (standard_path descr version_type : pystr)
| Activate (id : pystr)
| MarkStable (id : pystr)
| Rollback (id : pystr)
| RollbackLastStable
| Compare (id1 id2 : pystr).

Definition forget {A} (r : outcome A * State) : outcome unit * State :=
  (match fst r with Ok _ => Ok tt | Raise e => Raise e end, snd r).

(** One call: whether it raised, and the state it leaves. *)
Definition exec (P : Platform) (c : call) (s : State) : outcome unit * State :=
  match c with
  | Create p d t => forget (create_version P p d t s)
  | Activate id => activate_version P id s
  | MarkStable id => mark_as_stable P id s
  | Rollback id => rollback_to_version P id s
  | RollbackLastStable => forget (rollback_to_last_stable P s)
  | Compare id1 id2 => forget (compare_versions id1 id2 s)
  end.

(** A sequence of calls, whatever they return. *)
Fixpoint exec_all (P : Platform) (cs : list call) (s : State) : State :=
  match cs with
  | [] => s
  | c :: cs' => exec_all P cs' (snd (exec P c s))
  end.

(** A sequence of [create_version] calls, one after the other: the
    identifiers assigned by the calls that returned, and the last state. *)
Fixpoint create_all (P : Platform) (reqs : list (pystr * pystr * pystr))
  (s : State) : list pystr * State :=
  match reqs with
  | [] => ([], s)
  | (p, d, t) :: reqs' =>
      match create_version P p d t s with
      | (Ok v, s') =>
          let '(l, s'') := create_all P reqs' s' in (version_id v :: l, s'')
      | (Raise _, s') => create_all P reqs' s'
      end
  end.

(** Keys in strictly increasing order. *)
Fixpoint increasing (ks : list (list Z)) : bool :=
  match ks with
  | [] => true
  | k :: ks' =>
      match ks' with
      | [] => true
      | k' :: _ => key_lt k k' && increasing ks'
      end
  end.

(* ------------------------------------------------------------------ *)
(** ** A concrete platform and concrete worlds, to run the operations *)

Module Demo.

Definition byte_of (c : N) : byte :=
  match Byte.of_N (c mod 256) with Some x => x | None => x00 end.

Definition bytes (s : string) : list byte := list_byte_of_string s.
Arguments bytes s%_string.

(** A stand-in digest that tells any two contents apart. *)
Definition digest (content : list byte) : pystr := map Byte.to_N content.

Definition dump_version (v : Version) : list byte :=
  map byte_of (version_id v ++ (if active v then u "+" else u "-")
               ++ (if stable v then u "s" else u "d") ++ u ";").

(** A stand-in for the JSON text of a ledger. *)
Definition dump (l : Ledger) : list byte :=
  flat_map dump_version (versions l)
  ++ flat_map (fun h => map byte_of (action h ++ u " " ++ h_version_id h
                                     ++ u ";"))
       (history_list l).

Definition platform : Platform :=
  {| sha256_hex := digest;
     json_dump := dump;
     json_dump_raises := fun _ => false;
     json_load := fun _ => JsonDecodeError;
     int_unicode := fun _ => None;
     now_iso := fun n => u "T" ++ PyInt.str (Z.of_nat n);
     now_compact := fun n => u "2025010100000" ++ PyInt.str (Z.of_nat n);
     getlogin := None |}.

Definition no_files : pystr -> option (list byte) := fun _ => None.

Definition with_file (p : string) (c : list byte)
  (fs : pystr -> option (list byte)) : pystr -> option (list byte) :=
  fun q => if PyStr.eqb q (u p) then Some c else fs q.
Arguments with_file p%_string c fs.

Definition writable : pystr -> bool := fun _ => false.

(** The backup directory is there, as it is once a controller was made. *)
Definition backup_dir : pystr -> bool := fun p => PyStr.eqb p BACKUP_DIR.

Definition start (fs : pystr -> option (list byte)) (ro : pystr -> bool)
  : State :=
  {| mem := empty_ledger;
     world := {| files := fs; dirs := backup_dir; readonly := ro;
                 tick := 0 |} |}.

Definition ver (id : string) (path : string) (content : list byte)
  (act stb : bool) : Version :=
  {| version_id := u id; timestamp := u "T"; file := u path;
     hash := digest content; description := []; active := act;
     stable := stb; compatibility := [u "v1.0.0"] |}.
Arguments ver id%_string path%_string content act stb.

Definition core_fs : pystr -> option (list byte) :=
  with_file "core.md" (bytes "tide") no_files.

Definition ledger_of (vs : list Version) : Ledger :=
  {| versions := vs; history := Some [] |}.

Definition state_of (vs : list Version) (fs : pystr -> option (list byte))
  (ro : pystr -> bool) : State :=
  {| mem := ledger_of vs;
     world := {| files := fs; dirs := backup_dir; readonly := ro;
                 tick := 0 |} |}.

(** Two versions of [core.md], the first one active; the live file has the
    content both were created from. *)
Definition two : State :=
  state_of [ver "v1.0.0" "core.md" (bytes "tide") true false;
            ver "v1.1.0" "core.md" (bytes "tide") false false]
           core_fs writable.

(** The same ledger after the live file was changed. *)
Definition two_drifted : State :=
  state_of [ver "v1.0.0" "core.md" (bytes "tide") true false;
            ver "v1.1.0" "core.md" (bytes "tide") false false]
           (with_file "core.md" (bytes "diet") no_files) writable.

(** Stable versions 1.0.0 and 2.1.0 and the version 3.0.0, not stable. *)
Definition three : State :=
  state_of [ver "1.0.0" "core.md" (bytes "tide") false true;
            ver "2.1.0" "core.md" (bytes "tide") false true;
            ver "3.0.0" "core.md" (bytes "tide") true false]
           core_fs writable.


(** Two versions of two empty files. *)
Definition empties : State :=
  state_of [ver "v1.0.0" "a.md" [] false false;
            ver "v1.1.0" "b.md" [] false false]
           (with_file "a.md" [] (with_file "b.md" [] no_files)) writable.

(** Two versions of two files of one line each, [tide] and [diet]. *)
Definition anagrams : State :=
  state_of [ver "v1.0.0" "a.md" (bytes "tide") false false;
            ver "v1.1.0" "b.md" (bytes "diet") false false]
           (with_file "a.md" (bytes "tide")
              (with_file "b.md" (bytes "diet") no_files)) writable.

(** Two versions of two files of four lines, the letters of [tide] and of
    [diet]. *)
Definition letters : State :=
  state_of [ver "v1.0.0" "a.md" (bytes "t
i
d
e
") false false;
            ver "v1.1.0" "b.md" (bytes "d
i
e
t
") false false]
           (with_file "a.md" (bytes "t
i
d
e
")
              (with_file "b.md" (bytes "d
i
e
t
") no_files)) writable.

(** The backup directory cannot be written. *)
Definition backups_readonly : pystr -> bool :=
  fun p => PyStr.eqb (firstn 16 p) (u "version_backups/").

(** The version file cannot be written. *)
Definition ledger_readonly : pystr -> bool :=
  fun p => PyStr.eqb p VERSION_FILE.

End Demo.

(* ------------------------------------------------------------------ *)
(** ** More vocabulary *)

(** What [create_version] records of a version and no operation assigns
    again: every key but [active] and [stable]. *)
Definition record_of (v : Version)
  : pystr * pystr * pystr * pystr * pystr * list pystr :=
  (version_id v, timestamp v, file v, hash v, description v, compatibility v).

(** The calls that write the ledger after their last change to it. *)
Definition saving (c : call) : bool :=
  match c with
  | Create _ _ _ | Activate _ | MarkStable _ => true
  | Rollback _ | RollbackLastStable | Compare _ _ => false
  end.

(** A block of [get_matching_blocks] matches: its elements of [a] and of
    [b] are the same, one by one. *)
Definition matching {E} (a b : list E) (x : Difflib.block) : Prop :=
  let '(i, j, k) := x in
  forall t, t < k ->
    exists e, nth_error a (i + t) = Some e /\ nth_error b (j + t) = Some e.

(** What an entry [k] of the table [j2len] at column [j] says when row [i]
    starts: the [k] elements of [a] before [a[i]] are the [k] elements of
    [b] up to [b[j]]. *)
Definition ends_at {E} (a b : list E) (i j k : nat) : Prop :=
  k <= i /\ k <= j + 1
  /\ forall t, t < k ->
       exists e, nth_error a (i - 1 - t) = Some e
                 /\ nth_error b (j - t) = Some e.

(** More worlds to run the operations in. *)
Module Cases.

(** The ledger of [Demo.two] with a changed live file and the snapshot
    of version 1.0.0, which holds [content]. *)
Definition drifted (content : list byte) : State :=
  Demo.state_of
    [Demo.ver "v1.0.0" "core.md" (Demo.bytes "tide") true false;
     Demo.ver "v1.1.0" "core.md" (Demo.bytes "tide") false false]
    (Demo.with_file "core.md" (Demo.bytes "diet")
       (Demo.with_file "version_backups/core.md.v1.0.0" content
          Demo.no_files))
    Demo.writable.

(** Two versions of two files; the first file is missing and has a
    snapshot, whose content is not the recorded one. *)
Definition missing : State :=
  Demo.state_of
    [Demo.ver "v1.0.0" "a.md" (Demo.bytes "tide") false false;
     Demo.ver "v1.1.0" "b.md" (Demo.bytes "diet") false false]
    (Demo.with_file "version_backups/a.md.v1.0.0" (Demo.bytes "dime")
       (Demo.with_file "b.md" (Demo.bytes "diet") Demo.no_files))
    Demo.writable.

(** A platform like [Demo.platform] whose [json.load] reads back the
    text of the ledger [l]. *)
Definition reloading (l : Ledger) : Platform :=
  {| sha256_hex := Demo.digest;
     json_dump := Demo.dump;
     json_dump_raises := fun _ => false;
     json_load := fun c =>
       if PyStr.eqb (map Byte.to_N c) (map Byte.to_N (Demo.dump l))
       then JsonLedger l else JsonDecodeError;
     int_unicode := fun _ => None;
     now_iso := fun n => u "T" ++ PyInt.str (Z.of_nat n);
     now_compact := fun n => u "2025010100000" ++ PyInt.str (Z.of_nat n);
     getlogin := None |}.

(** The ledger after the first version of [core.md] was created. *)
Definition first_ledger : Ledger :=
  mem (snd (create_version Demo.platform (u "core.md") [] (u "minor")
              (Demo.start Demo.core_fs Demo.writable))).

End Cases.


Module LineEndCases.


End LineEndCases.

(** The world after [compare_versions] tried to restore the file of [v]:
    as it was when the file is there, after the copy of the snapshot
    otherwise. *)
Definition restore_world (w : World) (v : Version) (id : pystr) : World :=
  if live w (file v) then w
  else copy_world (snapshot_path (file v) id) (file v) w.

(** The world in which [compare_versions] reads the two files. *)
Definition compare_world (w : World) (v1 : Version) (id1 : pystr)
  (v2 : Version) (id2 : pystr) : World :=
  restore_world (restore_world w v1 id1) v2 id2.

(* ------------------------------------------------------------------ *)
(** ** [generate_changelog] *)

(** [sorted(l, key=...)] on a list of keyed elements: ascending and
    stable. *)
Fixpoint insert_asc {A} (x : list Z * A) (l : list (list Z * A)) :
  list (list Z * A) :=
  match l with
  | [] => [x]
  | y :: l' => if key_lt (fst y) (fst x) then y :: insert_asc x l' else x :: l
  end.

Definition sorted_asc {A} (l : list (list Z * A)) : list (list Z * A) :=
  fold_right insert_asc [] l.

(** [for i, v in enumerate(versions): if v['version_id'] == id: ...; break]:
    the first index of the identifier, counted from [i]. *)
Fixpoint index_of (id : pystr) (vs : list Version) (i : nat) : option nat :=
  match vs with
  | [] => None
  | v :: vs' =>
      if PyStr.eqb (version_id v) id then Some i else index_of id vs' (S i)
  end.

(** [try: m  except Exception as e: h(e)] *)
Definition try_with {A} (m : M A) (h : exn -> M A) : M A :=
  fun s => match m s with
           | (Ok a, s') => (Ok a, s')
           | (Raise e, s') => h e s'
           end.

(** What the changelog takes from the libraries. *)
Record Formatter := mkFormatter {
  (** [datetime.fromisoformat(s).strftime('%Y-%m-%d %H:%M:%S')]; [None]
      when [fromisoformat] raises [ValueError] *)
  strftime_iso : pystr -> option pystr;
  (** the format [:.2f] of the float a similarity is *)
  format_2f : Q -> pystr;
  (** [str(e)] for an exception whose message the program does not build
      itself, raised by [compare_versions id1 id2] on the way to state
      [s] *)
  library_exn_str : exn -> pystr -> pystr -> State -> pystr
}.

(** The texts of the changelog, by their code points: "no version
    record is available" (U+6CA1 U+6709 U+53EF U+7528 U+7684 U+7248 U+672C
    U+8BB0 U+5F55), the title "# changelog (" (U+53D8 U+66F4 U+65E5 U+5FD7),
    " to " (U+5230), "stable" (U+7A33 U+5B9A U+7248), "development"
    (U+5F00 U+53D1 U+7248), "active now" (U+5F53 U+524D U+6FC0 U+6D3B),
    "- similarity: " (U+76F8 U+4F3C U+5EA6), "- added: " (U+6DFB U+52A0),
    " lines" (U+884C), "- deleted: " (U+5220 U+9664), "- the difference
    cannot be computed: " (U+65E0 U+6CD5 U+8BA1 U+7B97 U+5DEE U+5F02). *)
Definition NO_VERSIONS : pystr :=
  [27809; 26377; 21487; 29992; 30340; 29256; 26412; 35760; 24405]%N.
Definition TITLE : pystr := [35; 32; 21464; 26356; 26085; 24535; 32; 40]%N.
Definition TO : pystr := [32; 21040; 32]%N.
Definition STABLE : pystr := [31283; 23450; 29256]%N.
Definition DEVELOPMENT : pystr := [24320; 21457; 29256]%N.
Definition ACTIVE_NOW : pystr := [24403; 21069; 28608; 27963]%N.
Definition SIMILARITY : pystr := [45; 32; 30456; 20284; 24230; 58; 32]%N.
Definition ADDED : pystr := [45; 32; 28155; 21152; 58; 32]%N.
Definition LINES : pystr := [32; 34892; 10]%N.
Definition DELETED : pystr := [45; 32; 21024; 38500; 58; 32]%N.
Definition NO_DIFFERENCE : pystr :=
  [45; 32; 26080; 27861; 35745; 31639; 24046; 24322; 58; 32]%N.

(** The messages [compare_versions] builds for its own exceptions: "the
    version does not exist: " (U+7248 U+672C U+4E0D U+5B58 U+5728) and
    "the versions cannot be compared, a file does not exist and cannot be
    restored from the backup". *)
Definition VERSION_MISSING : pystr :=
  [29256; 26412; 19981; 23384; 22312; 58; 32]%N.
Definition FILES_MISSING : pystr :=
  [26080; 27861; 27604; 36739; 29256; 26412; 65292; 25991; 20214; 19981;
   23384; 22312; 19988; 26080; 27861; 20174; 22791; 20221; 24674; 22797]%N.

Section Changelog.

Variable P : Platform.
Variable F : Formatter.

(** [sorted(self.versions['versions'], key=lambda v: [int(x) ...])] *)
Definition sorted_versions_asc (vs : list Version) : option (list Version) :=
  option_map (fun kvs => map snd (sorted_asc kvs)) (map_opt (keyed P) vs).

(** [str(e)] for the exception [e] that [compare_versions id1 id2] raised,
    leaving the state [s]. *)
Definition compare_exn_str (id1 id2 : pystr) (s : State) (e : exn) : pystr :=
  match e with
  | VersionNotFoundError =>
      VERSION_MISSING
      ++ match _find_version (mem s) id1 with None => id1 | Some _ => id2 end
  | FileNotFoundError => FILES_MISSING
  | _ => library_exn_str F e id1 id2 s
  end.

(** The lines on the difference with the version before. *)
Definition changelog_diff (prev_id id : pystr) : M (list pystr) :=
  try_with
    (d <- compare_versions prev_id id ;;
     ret [SIMILARITY ++ format_2f F (similarity d) ++ [37; 10]%N;
          ADDED ++ Difflib.str_nat (additions d) ++ LINES;
          DELETED ++ Difflib.str_nat (deletions d) ++ LINES])
    (fun e =>
       s <- get ;;
       ret [NO_DIFFERENCE ++ compare_exn_str prev_id id s e ++ [10%N]]).

(** [for i in range(start_idx, end_idx + 1)], given as the list of its
    indices: the strings appended to [changelog]. *)
Fixpoint changelog_loop (sorted : list Version) (start_idx : nat)
  (is_ : list nat) : M (list pystr) :=
  match is_ with
  | [] => ret []
  | i :: is' =>
      v <- of_option IndexError (nth_error sorted i) ;;
      stamp <- of_option ValueError (strftime_iso F (timestamp v)) ;;
      let stability := if stable v then STABLE else DEVELOPMENT in
      let active_ := if active v then ACTIVE_NOW else [] in
      let head :=
        [[35; 35; 32]%N ++ version_id v ++ [32; 40]%N ++ stamp
           ++ [41; 32; 91]%N ++ stability ++ [93; 32]%N ++ active_ ++ [10%N];
         description v ++ [10%N]] in
      d <- (if (0 <? i) && (start_idx <? i) then
              prev_v <- of_option IndexError (nth_error sorted (i - 1)) ;;
              changelog_diff (version_id prev_v) (version_id v)
            else ret []) ;;
      rest <- changelog_loop sorted start_idx is' ;;
      ret (head ++ d ++ [[10%N]] ++ rest)
  end.

(** [if id: for i, v in enumerate(versions): ...]: the index of a bound
    that is given, not empty and found, [default] otherwise. *)
Definition bound_index (bound : option pystr) (sorted : list Version)
  (default : nat) : nat :=
  match bound with
  | Some (c :: id) =>
      match index_of (c :: id) sorted 0 with
      | Some i => i
      | None => default
      end
  | _ => default
  end.

Definition generate_changelog (from_version to_version : option pystr)
  : M pystr :=
  s <- get ;;
  sorted <- of_option ValueError (sorted_versions_asc (versions (mem s))) ;;
  match sorted with
  | [] => ret NO_VERSIONS
  | _ =>
      let start_idx := bound_index from_version sorted 0 in
      let end_idx := bound_index to_version sorted (length sorted - 1) in
      v_start <- of_option IndexError (nth_error sorted start_idx) ;;
      v_end <- of_option IndexError (nth_error sorted end_idx) ;;
      body <- changelog_loop sorted start_idx
                (seq start_idx (end_idx + 1 - start_idx)) ;;
      ret (concat ((TITLE ++ version_id v_start ++ TO ++ version_id v_end
                    ++ [41; 10]%N) :: body))
  end.

End Changelog.

Module ChangelogCases.

(** The time stamps of the demonstration platform are printed as they
    are, a similarity by its numerator and denominator. *)
Definition formatter : Formatter :=
  {| strftime_iso := fun s => Some s;
     format_2f := fun q =>
       PyInt.str (Qnum q) ++ u "/" ++ PyInt.str (Zpos (Qden q));
     library_exn_str := fun _ _ _ _ => u "error" |}.

End ChangelogCases.

(* ------------------------------------------------------------------ *)
(** ** [main] *)

Definition CORE_STANDARDS : pystr := u "core_standards.md".

(** The descriptions of the two versions [main] creates, by their code
    points: "initial version: ..." (U+521D U+59CB U+7248 U+672C U+FF1A ...)
    and "update: ..." (U+66F4 U+65B0 U+FF1A ...). *)
Definition INITIAL_DESCRIPTION : pystr :=
  [21021; 22987; 29256; 26412; 65306; 22522; 30784; 65; 73; 34892; 20026;
   20934; 21017; 26694; 26550]%N.
Definition UPDATE_DESCRIPTION : pystr :=
  [26356; 26032; 65306; 28155; 21152; 38169; 35823; 22788; 29702; 21644;
   29992; 25143; 20132; 20114; 20934; 21017]%N.

(** The example run of the module; its [except] clause logs the exception
    and raises it again. *)
Definition main (P : Platform) (F : Formatter) : M unit :=
  __init__ P ;;;
  initial_version <-
    create_version P CORE_STANDARDS INITIAL_DESCRIPTION (u "major") ;;
  activate_version P (version_id initial_version) ;;;
  mark_as_stable P (version_id initial_version) ;;;
  minor_version <-
    create_version P CORE_STANDARDS UPDATE_DESCRIPTION (u "minor") ;;
  diff <- compare_versions (version_id initial_version)
            (version_id minor_version) ;;
  changelog <- generate_changelog P F None None ;;
  ret tt.

(** The core standards are there, with the content [c]. *)
Definition kept (c : list byte) (w : World) : Prop :=
  files w CORE_STANDARDS = Some c.

Module MainCases.

(** A new repository: the core standards and nothing else, not even the
    backup directory. *)
Definition fresh : State :=
  {| mem := empty_ledger;
     world := {| files := Demo.with_file "core_standards.md"
                            (Demo.bytes "tide") Demo.no_files;
                 dirs := fun _ => false;
                 readonly := Demo.writable;
                 tick := 0 |} |}.

End MainCases.

(** Whether [mkdir(exist_ok=True)] of [p] returns, and the world after
    it. *)
Definition can_mkdir (p : pystr) (w : World) : bool :=
  dirs w p
  || (match files w p with Some _ => false | None => true end
      && negb (readonly w p)).

Definition mkdir_world (p : pystr) (w : World) : World :=
  if dirs w p then w else add_dir p w.


Module EdgeCases.

(** Two entries of one identifier: the first one records a file that is
    there, the second one a file that is not. *)
Definition repeated : State :=
  Demo.state_of
    [Demo.ver "v1.0.0" "core.md" (Demo.bytes "tide") false false;
     Demo.ver "v1.0.0" "gone.md" (Demo.bytes "diet") false false]
    Demo.core_fs Demo.writable.





(** A lone surrogate, which UTF-8 does not encode. *)
Definition is_surrogate (c : N) : bool := N.leb 55296 c && N.leb c 57343.

Definition encodable (v : Version) : bool :=
  negb (existsb is_surrogate (description v)).

Fixpoint take_while {A} (f : A -> bool) (l : list A) : list A :=
  match l with
  | x :: l' => if f x then x :: take_while f l' else []
  | [] => []
  end.

(** A platform like [Demo.platform] whose [json.dump] raises at the first
    description with a lone surrogate; the stand-in text stops before the
    version of that description. *)
Definition surrogates : Platform :=
  {| sha256_hex := Demo.digest;
     json_dump := fun l =>
       if forallb encodable (versions l) then Demo.dump l
       else flat_map Demo.dump_version (take_while encodable (versions l));
     json_dump_raises := fun l => negb (forallb encodable (versions l));
     json_load := fun _ => JsonDecodeError;
     int_unicode := fun _ => None;
     now_iso := fun n => u "T" ++ PyInt.str (Z.of_nat n);
     now_compact := fun n => u "2025010100000" ++ PyInt.str (Z.of_nat n);
     getlogin := None |}.

End EdgeCases.

(* ================================================================== *)
(** * Properties *)

(** ** Integers printed and read back *)

Module PyIntFacts.

Lemma digit_val_digit c : is_digit c = true -> digit_val c = Some (Z.of_N (c - 48)).
Proof. unfold is_digit, digit_val. intros ->. reflexivity. Qed.

Lemma digit_not_underscore c : is_digit c = true -> N.eqb c 95 = false.
Proof.
  unfold is_digit. intros H. apply andb_prop in H. destruct H as [_ H].
  apply N.leb_le in H. apply N.eqb_neq. lia.
Qed.

Lemma int_digits_value s : forall acc,
  forallb is_digit s = true -> int_digits acc s = Some (value acc s).
Proof.
  induction s as [|c s IH]; intros acc H; simpl in *.
  - reflexivity.
  - apply andb_prop in H. destruct H as [Hc Hs].
    rewrite (digit_not_underscore _ Hc), (digit_val_digit _ Hc).
    apply IH. exact Hs.
Qed.

Lemma int_unsigned_value s :
  s <> [] -> forallb is_digit s = true -> int_unsigned s = Some (value 0 s).
Proof.
  destruct s as [|c s]; [congruence|]. intros _ H. simpl in H.
  apply andb_prop in H. destruct H as [Hc Hs].
  unfold int_unsigned. rewrite (digit_val_digit _ Hc).
  rewrite int_digits_value by exact Hs. reflexivity.
Qed.

Lemma is_digit_mod n : is_digit (48 + n mod 10) = true.
Proof.
  unfold is_digit. apply andb_true_intro.
  pose proof (N.mod_lt n 10 ltac:(discriminate)) as H.
  revert H. generalize (n mod 10)%N. intros r H.
  split; apply N.leb_le; lia.
Qed.

Lemma size_nat_le x y : (x <= y)%N -> N.size_nat x <= N.size_nat y.
Proof.
  destruct x as [|px]; [simpl; lia|]. destruct y as [|py]; [lia|].
  intros H. simpl. destruct (Pos.eq_dec px py) as [->|Hne]; [lia|].
  apply Pos.size_nat_monotone. lia.
Qed.

Lemma size_nat_div n f :
  (10 <= n)%N -> N.size_nat n <= S f -> N.size_nat (n / 10) <= f.
Proof.
  intros Hn Hs.
  assert (Hle : (n / 10 <= n / 2)%N) by (apply N.div_le_compat_l; lia).
  apply size_nat_le in Hle. rewrite <- N.div2_div in Hle.
  assert (Hh : N.size_nat (N.div2 n) = pred (N.size_nat n))
    by (destruct n as [|[p|p|]]; reflexivity).
  lia.
Qed.

Lemma add48_sub x : (48 + x - 48 = x)%N.
Proof. lia. Qed.

Lemma digits_fuel_S f n acc :
  digits_fuel (S f) n acc =
  if N.ltb n 10 then (48 + n mod 10)%N :: acc
  else digits_fuel f (n / 10)%N ((48 + n mod 10)%N :: acc).
Proof. reflexivity. Qed.

Lemma digits_fuel_spec f : forall n acc,
  N.size_nat n <= f ->
  exists ds, digits_fuel (S f) n acc = ds ++ acc /\ ds <> []
             /\ forallb is_digit ds = true /\ value 0 ds = Z.of_N n.
Proof.
  induction f as [|f IH]; intros n acc Hs.
  - assert (n = 0%N) by (destruct n; [reflexivity|simpl in Hs; destruct p; simpl in Hs; lia]).
    subst n. exists [48%N]. simpl. repeat split; congruence.
  - rewrite digits_fuel_S. destruct (N.ltb n 10) eqn:Hlt.
    + exists [(48 + n mod 10)%N]. apply N.ltb_lt in Hlt.
      repeat split; try congruence.
      * cbn [forallb]. rewrite is_digit_mod. reflexivity.
      * unfold value. cbn [fold_left]. rewrite N.mod_small by exact Hlt.
        rewrite add48_sub. lia.
    + apply N.ltb_ge in Hlt.
      destruct (IH (n / 10)%N ((48 + n mod 10)%N :: acc)) as (ds & E & Hne & Hd & Hv).
      { apply size_nat_div; assumption. }
      exists (ds ++ [(48 + n mod 10)%N]). rewrite E.
      rewrite <- app_assoc. repeat split.
      * destruct ds; discriminate.
      * rewrite forallb_app, Hd. cbn [forallb]. rewrite is_digit_mod.
        reflexivity.
      * unfold value in *. rewrite fold_left_app. cbn [fold_left]. rewrite Hv.
        rewrite add48_sub.
        pose proof (N.div_mod n 10 ltac:(discriminate)) as Hdm.
        revert Hdm. generalize (n mod 10)%N (n / 10)%N. intros r q Hdm.
        lia.
Qed.

Lemma str_N_spec n :
  str_N n <> [] /\ forallb is_digit (str_N n) = true
  /\ int_unsigned (str_N n) = Some (Z.of_N n).
Proof.
  unfold str_N.
  destruct (@digits_fuel_spec _ n [] (le_n _)) as (ds & E & Hne & Hd & Hv).
  rewrite E, app_nil_r. repeat split; try assumption.
  rewrite int_unsigned_value by assumption. congruence.
Qed.

End PyIntFacts.

Module IntStr.
Import PyIntFacts.

Lemma is_digit_not_space c : is_digit c = true -> is_space c = false.
Proof.
  unfold is_digit, is_space. intros H. apply andb_prop in H.
  destruct H as [H1 H2]. apply N.leb_le in H1. apply N.leb_le in H2.
  apply orb_false_intro; [apply N.eqb_neq; lia|].
  apply andb_false_intro2. apply N.leb_gt. lia.
Qed.

Lemma numeric_not_space c : numeric c = true -> is_space c = false.
Proof.
  unfold numeric. intros H. apply orb_prop in H. destruct H as [H|H].
  - apply N.eqb_eq in H. subst c. reflexivity.
  - apply is_digit_not_space. exact H.
Qed.

Lemma lskip_head c s : is_space c = false -> lskip (c :: s) = c :: s.
Proof. intros H. simpl. rewrite H. reflexivity. Qed.

Lemma rskip_last s c : is_space c = false -> rskip (s ++ [c]) = s ++ [c].
Proof.
  intros H. unfold rskip. rewrite rev_app_distr. simpl. rewrite H.
  simpl. rewrite rev_involutive. reflexivity.
Qed.

Lemma skip_numeric s :
  forallb numeric s = true -> rskip (lskip s) = s.
Proof.
  intros H. destruct s as [|c s]; [reflexivity|].
  assert (Hc : is_space c = false).
  { simpl in H. apply andb_prop in H. apply numeric_not_space. apply H. }
  rewrite lskip_head by exact Hc.
  destruct (exists_last (l := c :: s) ltac:(discriminate)) as (s' & d & E).
  rewrite E in *. rewrite forallb_app in H. apply andb_prop in H.
  destruct H as [_ H]. simpl in H. rewrite andb_true_r in H.
  apply rskip_last. apply numeric_not_space. exact H.
Qed.

Lemma digits_numeric s : forallb is_digit s = true -> forallb numeric s = true.
Proof.
  intros H. rewrite forallb_forall in *. intros c Hc. unfold numeric.
  rewrite (H c Hc). apply orb_true_r.
Qed.

Lemma str_numeric z : forallb numeric (str z) = true.
Proof.
  destruct z as [|p|p].
  - reflexivity.
  - change (str (Zpos p)) with (str_N (Npos p)).
    apply digits_numeric, str_N_spec.
  - change (str (Zneg p)) with (45%N :: str_N (Npos p)).
    cbn [forallb]. rewrite digits_numeric by apply str_N_spec. reflexivity.
Qed.

Lemma str_head z : exists c s, str z = c :: s /\ numeric c = true.
Proof.
  pose proof (str_numeric z) as H.
  destruct (str z) as [|c s] eqn:E.
  - exfalso. destruct z as [|p|p]; try discriminate.
    change (str (Zpos p)) with (str_N (Npos p)) in E.
    apply (proj1 (str_N_spec _) E).
  - exists c, s. split; [reflexivity|]. simpl in H. apply andb_prop in H. apply H.
Qed.

Lemma is_digit_signs c :
  is_digit c = true -> N.eqb c 45 = false /\ N.eqb c 43 = false.
Proof.
  unfold is_digit. intros H. apply andb_prop in H. destruct H as [H _].
  apply N.leb_le in H. split; apply N.eqb_neq; lia.
Qed.

Lemma int_ascii_digits s z :
  s <> [] -> forallb is_digit s = true -> int_unsigned s = Some z ->
  int_ascii s = Some z.
Proof.
  intros Hne Hd Hv. unfold int_ascii.
  rewrite skip_numeric by (apply digits_numeric; exact Hd).
  destruct s as [|c s]; [congruence|].
  simpl in Hd. apply andb_prop in Hd. destruct Hd as [Hc _].
  destruct (is_digit_signs _ Hc) as [-> ->]. exact Hv.
Qed.

(** [int(str(z)) == z] *)
Lemma int_ascii_str z : int_ascii (str z) = Some z.
Proof.
  destruct z as [|p|p].
  - reflexivity.
  - destruct (str_N_spec (Npos p)) as (Hne & Hd & Hv).
    change (str (Zpos p)) with (str_N (Npos p)).
    apply int_ascii_digits; assumption.
  - destruct (str_N_spec (Npos p)) as (Hne & Hd & Hv).
    unfold int_ascii.
    rewrite skip_numeric by apply (str_numeric (Zneg p)).
    change (str (Zneg p)) with (45%N :: str_N (Npos p)).
    cbv beta iota zeta. change (N.eqb 45 45) with true. cbv iota.
    rewrite Hv. reflexivity.
Qed.

Lemma numeric_ascii s : forallb numeric s = true -> is_ascii s = true.
Proof.
  unfold is_ascii. rewrite !forallb_forall. intros H c Hc.
  specialize (H c Hc). unfold numeric, is_digit in H. apply N.ltb_lt.
  apply orb_prop in H. destruct H as [H|H].
  - apply N.eqb_eq in H. lia.
  - apply andb_prop in H. destruct H as [_ H]. apply N.leb_le in H. lia.
Qed.

End IntStr.

(** ** Version identifiers *)

Module SemVerFacts.
Import PyIntFacts IntStr.

Lemma numeric_not c x : numeric c = true -> x <> 45%N -> (x < 48 \/ 57 < x)%N -> N.eqb c x = false.
Proof.
  unfold numeric, is_digit. intros H Hx Hr. apply N.eqb_neq. intros ->.
  apply orb_prop in H. destruct H as [H|H].
  - apply N.eqb_eq in H. congruence.
  - apply andb_prop in H. destruct H as [H1 H2].
    apply N.leb_le in H1. apply N.leb_le in H2. lia.
Qed.

Lemma split_no_sep sep s :
  forallb (fun c => negb (N.eqb c sep)) s = true -> split sep s = [s].
Proof.
  induction s as [|c s IH]; intros H; simpl in *; [reflexivity|].
  apply andb_prop in H. destruct H as [Hc Hs].
  apply negb_true_iff in Hc. rewrite Hc, (IH Hs). reflexivity.
Qed.

Lemma split_app sep s t :
  forallb (fun c => negb (N.eqb c sep)) s = true ->
  split sep (s ++ sep :: t) = s :: split sep t.
Proof.
  induction s as [|c s IH]; intros H; simpl in *.
  - rewrite N.eqb_refl. reflexivity.
  - apply andb_prop in H. destruct H as [Hc Hs].
    apply negb_true_iff in Hc. rewrite Hc, (IH Hs). reflexivity.
Qed.

Lemma str_no_dot z : forallb (fun c => negb (N.eqb c 46)) (str z) = true.
Proof.
  pose proof (str_numeric z) as H. rewrite forallb_forall in *.
  intros c Hc. apply negb_true_iff. apply (@numeric_not c 46); [auto|discriminate|lia].
Qed.

Lemma lstrip_str z s : lstrip 118 (str z ++ s) = str z ++ s.
Proof.
  destruct (str_head z) as (c & t & E & Hc). rewrite E. simpl.
  rewrite (@numeric_not c 118 Hc); [reflexivity|discriminate|lia].
Qed.

Section WithPlatform.

Variable P : Platform.

Lemma py_int_str z : py_int P (str z) = Some z.
Proof.
  unfold py_int. rewrite numeric_ascii by apply str_numeric.
  apply int_ascii_str.
Qed.

Lemma version_key_fmt a b c : version_key P (fmt a b c) = Some [a; b; c].
Proof.
  unfold version_key, fmt.
  change (u "v" ++ str a ++ u "." ++ str b ++ u "." ++ str c)
    with (118%N :: (str a ++ 46%N :: str b ++ 46%N :: str c)).
  cbn [lstrip]. rewrite N.eqb_refl. rewrite lstrip_str.
  rewrite split_app by apply str_no_dot.
  rewrite split_app by apply str_no_dot.
  rewrite split_no_sep by apply str_no_dot.
  cbn [map_opt]. rewrite !py_int_str. reflexivity.
Qed.

End WithPlatform.

(** *** The order of keys *)

Lemma key_lt_irrefl k : key_lt k k = false.
Proof.
  induction k as [|x k IH]; simpl; [reflexivity|].
  rewrite Z.ltb_irrefl. exact IH.
Qed.

Lemma key_lt_trans : forall a b c,
  key_lt a b = true -> key_lt b c = true -> key_lt a c = true.
Proof.
  induction a as [|x a IH]; intros [|y b] [|z c]; simpl; try congruence.
  destruct (Z.ltb_spec x y), (Z.ltb_spec y x), (Z.ltb_spec y z),
    (Z.ltb_spec z y), (Z.ltb_spec x z), (Z.ltb_spec z x);
    try congruence; try lia.
  apply IH.
Qed.

Lemma key_lt_asym a : forall b, key_lt a b = true -> key_lt b a = false.
Proof.
  intros b H. destruct (key_lt b a) eqn:E; [|reflexivity].
  rewrite <- (key_lt_irrefl a). symmetry. eapply key_lt_trans; eassumption.
Qed.

Lemma key_le_lt_trans : forall a b c,
  key_le a b -> key_lt b c = true -> key_lt a c = true.
Proof.
  unfold key_le.
  induction a as [|x a IH]; intros [|y b] [|z c]; simpl; try congruence.
  destruct (Z.ltb_spec x y), (Z.ltb_spec y x), (Z.ltb_spec y z),
    (Z.ltb_spec z y), (Z.ltb_spec x z), (Z.ltb_spec z x);
    try congruence; try lia.
  apply IH.
Qed.

Lemma key_le_trans a b c : key_le a b -> key_le b c -> key_le a c.
Proof.
  unfold key_le. intros H1 H2. destruct (key_lt c a) eqn:E; [|reflexivity].
  pose proof (key_le_lt_trans _ H2 E) as H. congruence.
Qed.

Lemma key_le_refl a : key_le a a.
Proof. apply key_lt_irrefl. Qed.

(** *** [sorted(..., reverse=True)[0]] is a greatest element *)

Section Sorted.

Variable A : Type.

Lemma insert_desc_In (x : list Z * A) l y :
  In y (insert_desc x l) <-> y = x \/ In y l.
Proof.
  induction l as [|z l IH]; simpl.
  - intuition.
  - destruct (key_lt (fst x) (fst z)); simpl; rewrite ?IH; intuition.
Qed.

Lemma sorted_desc_In (l : list (list Z * A)) y :
  In y (sorted_desc l) <-> In y l.
Proof.
  induction l as [|x l IH]; simpl; [tauto|].
  rewrite insert_desc_In, IH. intuition.
Qed.

Lemma insert_desc_head_max (x : list Z * A) (l : list (list Z * A)) :
  head_max l -> head_max (insert_desc x l).
Proof.
  destruct l as [|h l]; simpl.
  - intros _ y [<-|[]]. apply key_le_refl.
  - intros H. destruct (key_lt (fst x) (fst h)) eqn:E; simpl.
    + intros y [<-|Hy].
      * apply key_le_refl.
      * apply insert_desc_In in Hy. destruct Hy as [->|Hy].
        -- apply key_lt_asym. exact E.
        -- apply H. right. exact Hy.
    + intros y [<-|[<-|Hy]].
      * apply key_le_refl.
      * exact E.
      * eapply key_le_trans; [apply H; right; exact Hy|exact E].
Qed.

Lemma sorted_desc_head_max (l : list (list Z * A)) : head_max (sorted_desc l).
Proof.
  induction l as [|x l IH]; simpl; [exact I|].
  apply insert_desc_head_max. exact IH.
Qed.

Lemma sorted_desc_nonempty (l : list (list Z * A)) :
  l <> [] -> sorted_desc l <> [].
Proof.
  destruct l as [|x l]; [congruence|]. intros _. simpl.
  destruct (sorted_desc l) as [|h t]; simpl; [discriminate|].
  destruct (key_lt (fst x) (fst h)); discriminate.
Qed.

End Sorted.

End SemVerFacts.

(** ** Strings, keys and the next identifier *)

Module OpFacts.
Import PyIntFacts IntStr SemVerFacts.

Lemma eqb_eq a : forall b, PyStr.eqb a b = true <-> a = b.
Proof.
  induction a as [|x a IH]; intros [|y b]; simpl; split; try congruence.
  - intros H. apply andb_prop in H. destruct H as [H1 H2].
    apply N.eqb_eq in H1. apply IH in H2. congruence.
  - intros H. injection H as -> ->. rewrite N.eqb_refl. apply IH. reflexivity.
Qed.

Lemma eqb_refl a : PyStr.eqb a a = true.
Proof. apply eqb_eq. reflexivity. Qed.

Lemma eqb_neq a b : PyStr.eqb a b = false <-> a <> b.
Proof.
  split.
  - intros H E. apply eqb_eq in E. congruence.
  - intros H. destruct (PyStr.eqb a b) eqn:E; [|reflexivity].
    apply eqb_eq in E. contradiction.
Qed.

Lemma eqb_sym a b : PyStr.eqb a b = PyStr.eqb b a.
Proof.
  destruct (PyStr.eqb a b) eqn:E.
  - apply eqb_eq in E. subst. symmetry. apply eqb_refl.
  - symmetry. apply eqb_neq. apply eqb_neq in E. congruence.
Qed.

Section WithPlatform.

Variable P : Platform.

(** *** [_increment_version] on keys *)

Lemma bump_shape kind k : exists a b c, bump kind k = [a; b; c].
Proof.
  unfold bump. destruct (PyStr.eqb kind (u "major")); [eauto|].
  destruct (PyStr.eqb kind (u "minor")); eauto.
Qed.

Lemma bump_gt kind k : key_lt k (bump kind k) = true.
Proof.
  unfold bump.
  destruct (PyStr.eqb kind (u "major")); [|destruct (PyStr.eqb kind (u "minor"))];
    destruct k as [|x [|y [|z k]]]; simpl;
    repeat first
      [ rewrite Z.ltb_irrefl
      | match goal with
        | |- context [Z.ltb ?a ?b] => destruct (Z.ltb_spec a b); try lia
        end ];
    reflexivity.
Qed.

Lemma increment_spec id kind k :
  version_key P id = Some k ->
  exists a b c, bump kind k = [a; b; c]
                /\ _increment_version P id kind = Some (fmt a b c).
Proof.
  intros H. unfold _increment_version. unfold version_key in H. rewrite H.
  unfold bump.
  destruct (PyStr.eqb kind (u "major")); [|destruct (PyStr.eqb kind (u "minor"))];
    do 3 eexists; (split; [reflexivity|]); reflexivity.
Qed.

Lemma increment_none id kind :
  version_key P id = None -> _increment_version P id kind = None.
Proof.
  intros H. unfold _increment_version. unfold version_key in H. rewrite H.
  reflexivity.
Qed.

Lemma increment_key id kind id' k :
  version_key P id = Some k -> _increment_version P id kind = Some id' ->
  version_key P id' = Some (bump kind k).
Proof.
  intros Hk Hi. destruct (increment_spec _ kind Hk) as (a & b & c & Eb & Ei).
  rewrite Ei in Hi. injection Hi as <-. rewrite Eb. apply version_key_fmt.
Qed.

(** *** The keyed list of a ledger *)

Lemma map_opt_In A B (f : A -> option B) l l' y :
  map_opt f l = Some l' -> In y l' -> exists x, In x l /\ f x = Some y.
Proof.
  revert l'. induction l as [|x l IH]; intros l' H Hy; simpl in H.
  - injection H as <-. destruct Hy.
  - destruct (f x) as [y0|] eqn:E; [|discriminate].
    destruct (map_opt f l) as [t|]; [|discriminate].
    injection H as <-. destruct Hy as [<-|Hy].
    + exists x. split; [left; reflexivity|exact E].
    + destruct (IH t eq_refl Hy) as (x' & Hx' & E'). exists x'. split; [right|]; assumption.
Qed.

Lemma map_opt_In_inv A B (f : A -> option B) l l' x :
  map_opt f l = Some l' -> In x l -> exists y, In y l' /\ f x = Some y.
Proof.
  revert l'. induction l as [|x0 l IH]; intros l' H Hx; simpl in H.
  - destruct Hx.
  - destruct (f x0) as [y0|] eqn:E; [|discriminate].
    destruct (map_opt f l) as [t|]; [|discriminate].
    injection H as <-. destruct Hx as [<-|Hx].
    + exists y0. split; [left; reflexivity|exact E].
    + destruct (IH t eq_refl Hx) as (y & Hy & E'). exists y. split; [right|]; assumption.
Qed.

Lemma map_opt_length A B (f : A -> option B) l l' :
  map_opt f l = Some l' -> length l' = length l.
Proof.
  revert l'. induction l as [|x l IH]; intros l' H; simpl in H.
  - injection H as <-. reflexivity.
  - destruct (f x); [|discriminate]. destruct (map_opt f l) as [t|]; [|discriminate].
    injection H as <-. simpl. f_equal. apply IH. reflexivity.
Qed.

Lemma keyed_inv v kv : keyed P v = Some kv ->
  snd kv = v /\ version_key P (version_id v) = Some (fst kv).
Proof.
  unfold keyed. destruct (version_key P (version_id v)); simpl; [|discriminate].
  intros H. injection H as <-. split; reflexivity.
Qed.

(** The latest version is recorded and has a greatest key. *)
Lemma sorted_head vs lv rest :
  sorted_versions_desc P vs = Some (lv :: rest) ->
  In lv vs
  /\ exists k, version_key P (version_id lv) = Some k
     /\ forall v, In v vs ->
          exists k', version_key P (version_id v) = Some k' /\ key_le k' k.
Proof.
  unfold sorted_versions_desc. destruct (map_opt (keyed P) vs) as [kvs|] eqn:E;
    simpl; [|discriminate].
  intros H. injection H as H.
  pose proof (sorted_desc_head_max kvs) as Hm.
  destruct (sorted_desc kvs) as [|[k0 v0] t] eqn:Es; simpl in H; [discriminate|].
  injection H as -> _.
  assert (Hin : In (k0, lv) kvs).
  { apply sorted_desc_In. rewrite Es. left. reflexivity. }
  destruct (@map_opt_In _ _ _ _ _ _ E Hin) as (x & Hx & Ex).
  apply keyed_inv in Ex. simpl in Ex. destruct Ex as [-> Ek].
  split; [exact Hx|]. exists k0. split; [exact Ek|].
  intros v Hv. destruct (@map_opt_In_inv _ _ _ _ _ _ E Hv) as ([k' v'] & Hy & Ey).
  apply keyed_inv in Ey. simpl in Ey. destruct Ey as [-> Ek'].
  exists k'. split; [exact Ek'|].
  unfold head_max in Hm. apply (Hm (k', v)). rewrite <- Es.
  apply sorted_desc_In. exact Hy.
Qed.

Lemma sorted_some_nonempty vs sorted :
  vs <> [] -> sorted_versions_desc P vs = Some sorted -> sorted <> [].
Proof.
  unfold sorted_versions_desc. intros Hne.
  destruct (map_opt (keyed P) vs) as [kvs|] eqn:E; simpl; [|discriminate].
  intros H. injection H as <-. intros Hs.
  apply map_eq_nil in Hs. revert Hs. apply sorted_desc_nonempty.
  intros ->. apply map_opt_length in E. destruct vs; [congruence|discriminate].
Qed.

(** *** The next identifier is above every recorded one *)

Lemma next_version_id_fresh kind vs id :
  next_version_id P kind vs = Some id ->
  exists k, version_key P id = Some k
    /\ forall v, In v vs ->
         exists k', version_key P (version_id v) = Some k' /\ key_lt k' k = true.
Proof.
  unfold next_version_id. destruct vs as [|v0 vs0] eqn:Evs.
  - intros H. injection H as <-. exists [1; 0; 0]%Z.
    split; [apply (version_key_fmt P 1 0 0)|]. intros v [].
  - rewrite <- Evs. destruct (sorted_versions_desc P vs) as [[|lv rest]|] eqn:Es;
      try discriminate.
    intros Hi. destruct (@sorted_head _ _ _ Es) as (Hin & k & Hk & Hmax).
    exists (bump kind k). split; [eapply increment_key; eassumption|].
    intros v Hv. destruct (Hmax v Hv) as (k' & Hk' & Hle).
    exists k'. split; [exact Hk'|].
    eapply key_le_lt_trans; [exact Hle|apply bump_gt].
Qed.

Lemma next_version_id_not_in kind vs id :
  next_version_id P kind vs = Some id -> ~ In id (map version_id vs).
Proof.
  intros H Hin. destruct (@next_version_id_fresh _ _ _ H) as (k & Hk & Hall).
  apply in_map_iff in Hin. destruct Hin as (v & Ev & Hv).
  destruct (Hall v Hv) as (k' & Hk' & Hlt). rewrite Ev, Hk in Hk'.
  injection Hk' as <-. rewrite key_lt_irrefl in Hlt. discriminate.
Qed.

End WithPlatform.

End OpFacts.

(** ** The operations, step by step *)

Module Run.
Import PyIntFacts IntStr SemVerFacts OpFacts.

Lemma bind_ok A B (m : M A) (f : A -> M B) s a s' :
  m s = (Ok a, s') -> bind m f s = f a s'.
Proof. unfold bind. intros ->. reflexivity. Qed.

Lemma bind_raise A B (m : M A) (f : A -> M B) s e s' :
  m s = (Raise e, s') -> bind m f s = (Raise e, s').
Proof. unfold bind. intros ->. reflexivity. Qed.

Lemma state_eta s : {| mem := mem s; world := world s |} = s.
Proof. destruct s. reflexivity. Qed.

Lemma world_eta_state s : {| mem := mem s; world := world s |} = s.
Proof. destruct s. reflexivity. Qed.

Lemma world_eta w :
  {| files := files w; dirs := dirs w; readonly := readonly w;
     tick := tick w |} = w.
Proof. destruct w. reflexivity. Qed.

Ltac crunch :=
  repeat (cbv beta iota zeta;
          match goal with
          | H : ?x = _ |- context [match ?x with _ => _ end] => rewrite H
          | H : ?x = _ |- context [if ?x then _ else _] => rewrite H
          end);
  cbv beta iota zeta; rewrite ?state_eta.

Section WithPlatform.

Variable P : Platform.

Lemma now_eq s : now s = (Ok (tick (world s)), with_world s (tick_world 1 (world s))).
Proof. reflexivity. Qed.

Lemma add_history_eq e s :
  _add_history e s =
  (Ok tt, {| mem := add_entry (mem s) (versions (mem s)) e; world := world s |}).
Proof. reflexivity. Qed.

Lemma set_versions_eq vs s :
  set_versions vs s =
  (Ok tt, {| mem := {| versions := vs; history := history (mem s) |};
             world := world s |}).
Proof. reflexivity. Qed.

Lemma save_versions_eq s :
  _save_versions P s = (Ok tt, with_world s (save_world P (mem s) (world s))).
Proof.
  cbv beta iota zeta delta [_save_versions try_except bind get write_bytes
    save_world ret raise with_world].
  destruct (readonly (world s) VERSION_FILE).
  - rewrite state_eta. reflexivity.
  - destruct (json_dump_raises P (mem s)); reflexivity.
Qed.

Lemma copy_swallowed_eq A (a b : A) src dst s :
  try_except (copy2 src dst ;;; ret a) (ret b) s =
  (Ok (match files (world s) src with
       | None => b
       | Some _ => if PyStr.eqb src dst || readonly (world s) dst then b else a
       end),
   with_world s (copy_world src dst (world s))).
Proof.
  cbv beta iota zeta delta [try_except copy2 bind read_bytes get of_option
    write_bytes copy_world ret raise with_world].
  destruct (files (world s) src) as [c|] eqn:Ef; crunch; [|reflexivity].
  destruct (PyStr.eqb src dst) eqn:Ee; crunch; [reflexivity|].
  destruct (readonly (world s) dst) eqn:Er; crunch; reflexivity.
Qed.

Lemma backup_version_eq path id s :
  _backup_version path id s =
  (Ok tt, with_world s (copy_world path (snapshot_path path id) (world s))).
Proof.
  cbv beta iota zeta delta [_backup_version bind exists_ try_except copy2
    read_bytes get of_option write_bytes copy_world snapshot_path ret raise
    with_world negb].
  destruct (files (world s) path) as [c|] eqn:Ef; crunch; [|reflexivity].
  destruct (PyStr.eqb path _) eqn:Ee; crunch; [reflexivity|].
  destruct (readonly (world s) _) eqn:Er; crunch; reflexivity.
Qed.

Lemma verify_eq v s :
  _verify_version_integrity P v s = (Ok (integrity_ok P (world s) v), s).
Proof.
  cbv beta iota zeta delta [_verify_version_integrity bind exists_ read_bytes get
    of_option ret integrity_ok negb].
  destruct (files (world s) (file v)) as [c|] eqn:Ef; crunch; [|reflexivity].
  destruct (PyStr.eqb _ _); reflexivity.
Qed.

Lemma get_latest_eq s :
  _get_latest_version P s =
  match versions (mem s) with
  | [] => (Ok None, s)
  | _ :: _ =>
      match sorted_versions_desc P (versions (mem s)) with
      | Some (lv :: _) => (Ok (Some lv), s)
      | _ => (Raise ValueError, s)
      end
  end.
Proof.
  cbv beta iota zeta delta [_get_latest_version bind get of_option ret raise].
  destruct (versions (mem s)) as [|v0 vs0] eqn:Evs; [reflexivity|].
  destruct (sorted_versions_desc P (v0 :: vs0)) as [sorted|] eqn:Es;
    [|reflexivity].
  assert (Hs : sorted <> []).
  { eapply sorted_some_nonempty; [|exact Es]. discriminate. }
  destruct sorted as [|lv rest]; [congruence|]. reflexivity.
Qed.

Lemma exists_eq p s :
  exists_ p s =
  (Ok (match files (world s) p with Some _ => true | None => false end), s).
Proof. reflexivity. Qed.

Lemma read_bytes_eq p s c :
  files (world s) p = Some c -> read_bytes p s = (Ok c, s).
Proof.
  intros H. cbv beta iota zeta delta [read_bytes bind get of_option ret].
  rewrite H. reflexivity.
Qed.

Lemma get_eq s : get s = (Ok s, s).
Proof. reflexivity. Qed.

Lemma create_version_eq path d kind s :
  create_version P path d kind s =
  match files (world s) path with
  | None => (Raise FileNotFoundError, s)
  | Some c =>
      match next_version_id P kind (versions (mem s)) with
      | None => (Raise ValueError, s)
      | Some id =>
          let v := created_version P path d id c (tick (world s)) in
          let l := add_entry (mem s) (versions (mem s) ++ [v])
                     (history_entry P (u "create") id (S (tick (world s)))) in
          (Ok v,
           {| mem := l;
              world := copy_world path (snapshot_path path id)
                         (save_world P l (tick_world 2 (world s))) |})
      end
  end.
Proof.
  unfold create_version.
  erewrite bind_ok by apply exists_eq.
  destruct (files (world s) path) as [c|] eqn:Ef; cbv beta iota zeta delta [negb];
    [|reflexivity].
  erewrite bind_ok by (apply read_bytes_eq; exact Ef).
  cbv zeta. unfold bind at 1. rewrite get_latest_eq. unfold next_version_id.
  destruct (versions (mem s)) as [|v0 vs0] eqn:Evs.
  - cbv beta iota. erewrite bind_ok by reflexivity.
    erewrite bind_ok by apply now_eq.
    erewrite bind_ok by apply get_eq.
    erewrite bind_ok by apply set_versions_eq.
    erewrite bind_ok by apply now_eq.
    erewrite bind_ok by apply add_history_eq.
    erewrite bind_ok by apply save_versions_eq.
    erewrite bind_ok by apply backup_version_eq.
    cbn [ret with_world mem world versions history tick_world tick files
           readonly add_entry history_list plus].
    rewrite ?Evs. reflexivity.
  - destruct (sorted_versions_desc P (v0 :: vs0)) as [[|lv rest]|];
      try reflexivity.
    cbv beta iota.
    destruct (_increment_version P (version_id lv) kind) as [id|];
      [|erewrite bind_raise by reflexivity; reflexivity].
    erewrite bind_ok by reflexivity.
    erewrite bind_ok by apply now_eq.
    erewrite bind_ok by apply get_eq.
    erewrite bind_ok by apply set_versions_eq.
    erewrite bind_ok by apply now_eq.
    erewrite bind_ok by apply add_history_eq.
    erewrite bind_ok by apply save_versions_eq.
    erewrite bind_ok by apply backup_version_eq.
    cbn [ret with_world mem world versions history tick_world tick files
           readonly add_entry history_list plus].
    rewrite ?Evs. reflexivity.
Qed.

Lemma activate_version_eq id s :
  activate_version P id s =
  match _find_version (mem s) id with
  | None => (Raise VersionNotFoundError, s)
  | Some v =>
      if integrity_ok P (world s) v then (Ok tt, after_activate P id s)
      else (Raise VersionIntegrityError, s)
  end.
Proof.
  unfold activate_version.
  erewrite bind_ok by apply get_eq.
  destruct (_find_version (mem s) id) as [v|]; [|reflexivity].
  erewrite bind_ok by apply verify_eq.
  destruct (integrity_ok P (world s) v); cbv beta iota zeta delta [negb];
    [|reflexivity].
  erewrite bind_ok by apply get_eq.
  erewrite bind_ok by apply set_versions_eq.
  erewrite bind_ok by apply now_eq.
  erewrite bind_ok by apply add_history_eq.
  rewrite save_versions_eq. reflexivity.
Qed.

Lemma mark_as_stable_eq id s :
  mark_as_stable P id s =
  match _find_version (mem s) id with
  | None => (Raise VersionNotFoundError, s)
  | Some _ => (Ok tt, after_mark P id s)
  end.
Proof.
  unfold mark_as_stable.
  erewrite bind_ok by apply get_eq.
  destruct (_find_version (mem s) id) as [v|]; [|reflexivity].
  erewrite bind_ok by apply set_versions_eq.
  erewrite bind_ok by apply now_eq.
  erewrite bind_ok by apply add_history_eq.
  rewrite save_versions_eq. reflexivity.
Qed.

Lemma restore_from_backup_eq id s :
  _restore_from_backup id s =
  match _find_version (mem s) id with
  | None => (Ok false, s)
  | Some v =>
      (Ok (restorable (world s) v id),
       with_world s (copy_world (snapshot_path (file v) id) (file v)
                       (world s)))
  end.
Proof.
  unfold _restore_from_backup.
  erewrite bind_ok by apply get_eq.
  destruct (_find_version (mem s) id) as [v|]; [|reflexivity].
  cbv zeta. erewrite bind_ok by apply exists_eq.
  fold (snapshot_path (file v) id). unfold restorable.
  destruct (files (world s) (snapshot_path (file v) id)) as [c|] eqn:Ef;
    cbv beta iota zeta delta [negb].
  - rewrite copy_swallowed_eq. rewrite Ef.
    destruct (PyStr.eqb _ _ || readonly _ _); reflexivity.
  - unfold copy_world, with_world. rewrite Ef, state_eta. reflexivity.
Qed.

Lemma restore_failed_world w v id :
  restorable w v id = false ->
  copy_world (snapshot_path (file v) id) (file v) w = w.
Proof.
  unfold restorable, copy_world.
  destruct (files w (snapshot_path (file v) id)); [|reflexivity].
  destruct (PyStr.eqb _ _); [reflexivity|].
  destruct (readonly w (file v)); [reflexivity|discriminate].
Qed.

Lemma rollback_to_version_eq id s :
  rollback_to_version P id s =
  match _find_version (mem s) id with
  | None => (Raise VersionNotFoundError, s)
  | Some v =>
      if integrity_ok P (world s) v then rollback_tail P id s
      else if restorable (world s) v id then
             rollback_tail P id
               (with_world s (copy_world (snapshot_path (file v) id) (file v)
                                (world s)))
           else (Raise VersionIntegrityError, s)
  end.
Proof.
  unfold rollback_to_version.
  erewrite bind_ok by apply get_eq.
  destruct (_find_version (mem s) id) as [v|] eqn:Efind; [|reflexivity].
  erewrite bind_ok by apply verify_eq.
  assert (Htail : forall s1,
    (activate_version P id ;;;
     t <- now ;; _add_history (history_entry P (u "rollback") id t)) s1
    = rollback_tail P id s1).
  { intros s1. unfold rollback_tail, bind at 1.
    destruct (activate_version P id s1) as [[[]|e] s2]; [|reflexivity].
    erewrite bind_ok by apply now_eq. reflexivity. }
  destruct (integrity_ok P (world s) v); cbv beta iota zeta delta [negb].
  - erewrite bind_ok by reflexivity. apply Htail.
  - unfold bind at 1. unfold bind at 1. rewrite restore_from_backup_eq, Efind.
    destruct (restorable (world s) v id) eqn:Er; cbv beta iota.
    + change (ret tt ?x) with (Ok tt, x). cbv beta iota. apply Htail.
    + unfold raise. rewrite restore_failed_world by exact Er.
      unfold with_world. rewrite world_eta_state. reflexivity.
Qed.

Lemma rollback_to_last_stable_eq s :
  rollback_to_last_stable P s =
  match get_stable_versions (mem s) with
  | [] => (Ok None, s)
  | _ :: _ =>
      match sorted_versions_desc P (get_stable_versions (mem s)) with
      | Some (latest_stable :: _) =>
          match rollback_to_version P (version_id latest_stable) s with
          | (Ok _, s') => (Ok (Some (version_id latest_stable)), s')
          | (Raise e, s') => (Raise e, s')
          end
      | _ => (Raise ValueError, s)
      end
  end.
Proof.
  unfold rollback_to_last_stable.
  erewrite bind_ok by apply get_eq.
  destruct (get_stable_versions (mem s)) as [|v0 vs0] eqn:Evs; [reflexivity|].
  destruct (sorted_versions_desc P (v0 :: vs0)) as [sorted|] eqn:Es;
    [|reflexivity].
  assert (Hs : sorted <> []).
  { eapply sorted_some_nonempty; [|exact Es]. discriminate. }
  destruct sorted as [|lv rest]; [congruence|].
  erewrite bind_ok by reflexivity. erewrite bind_ok by reflexivity.
  unfold bind.
  destruct (rollback_to_version P (version_id lv) s) as [[[]|e] s']; reflexivity.
Qed.

End WithPlatform.
End Run.

(** ** Version numbering *)

Module Monotone.
Import PyIntFacts IntStr SemVerFacts OpFacts Run.

Section WithPlatform.

Variable P : Platform.

Lemma create_ok_inv path d kind s v s' :
  create_version P path d kind s = (Ok v, s') ->
  exists c id,
    files (world s) path = Some c
    /\ next_version_id P kind (versions (mem s)) = Some id
    /\ v = created_version P path d id c (tick (world s))
    /\ mem s' = add_entry (mem s) (versions (mem s) ++ [v])
                  (history_entry P (u "create") id (S (tick (world s))))
    /\ world s' = copy_world path (snapshot_path path id)
                    (save_world P (mem s') (tick_world 2 (world s))).
Proof.
  rewrite create_version_eq.
  destruct (files (world s) path) as [c|]; [|discriminate].
  destruct (next_version_id P kind (versions (mem s))) as [id|];
    [|discriminate].
  cbv zeta. intros H. injection H as <- <-.
  exists c, id. repeat split; reflexivity.
Qed.

Lemma create_raise_inv path d kind s e s' :
  create_version P path d kind s = (Raise e, s') ->
  s' = s
  /\ ((e = FileNotFoundError /\ files (world s) path = None)
      \/ (e = ValueError
          /\ next_version_id P kind (versions (mem s)) = None)).
Proof.
  rewrite create_version_eq.
  destruct (files (world s) path) as [c|].
  - destruct (next_version_id P kind (versions (mem s))) as [id|];
      [discriminate|].
    intros H. injection H as <- <-. split; [reflexivity|right]. split; reflexivity.
  - intros H. injection H as <- <-. split; [reflexivity|left]. split; reflexivity.
Qed.

(** The identifiers a sequence of creations assigns: each key is above the
    keys recorded before the sequence and above the keys assigned earlier in
    it. *)
Lemma create_all_keys reqs : forall s,
  exists ks,
    map_opt (version_key P) (fst (create_all P reqs s)) = Some ks
    /\ increasing ks = true
    /\ (forall k v, In k ks -> In v (versions (mem s)) ->
          exists k0, version_key P (version_id v) = Some k0
                     /\ key_lt k0 k = true).
Proof.
  induction reqs as [|[[p d] t] reqs IH]; intros s.
  - exists []. simpl. repeat split. intros k v [].
  - cbn [create_all].
    destruct (create_version P p d t s) as [[v|e] s1] eqn:Ec.
    + destruct (create_ok_inv _ _ _ _ Ec) as (c & id & Ef & En & Ev & Em & Ew).
      destruct (IH s1) as (ks & Hks & Hinc & Hold).
      destruct (create_all P reqs s1) as [l s2]. cbn [fst] in *.
      destruct (@next_version_id_fresh P _ _ _ En) as (k & Hk & Hfresh).
      assert (Eid : version_id v = id) by (rewrite Ev; reflexivity).
      exists (k :: ks). cbn [map_opt]. rewrite Eid, Hk, Hks. cbn [option_map].
      assert (Hv : forall k', In k' ks -> key_lt k k' = true).
      { intros k' Hk'. destruct (Hold k' v Hk') as (k0 & Hk0 & Hlt).
        - rewrite Em. cbn. apply in_or_app. right. left. reflexivity.
        - rewrite Eid, Hk in Hk0. injection Hk0 as <-. exact Hlt. }
      repeat split.
      * cbn [increasing]. destruct ks as [|k' ks']; [reflexivity|].
        rewrite (Hv k' (or_introl eq_refl)). exact Hinc.
      * intros k1 w [<-|Hk1] Hw.
        -- apply Hfresh. exact Hw.
        -- apply (Hold k1 w Hk1). rewrite Em. cbn. apply in_or_app.
           left. exact Hw.
    + destruct (create_raise_inv _ _ _ _ Ec) as [-> _]. apply IH.
Qed.

Lemma increasing_head_lt k ks :
  increasing (k :: ks) = true -> forall k', In k' ks -> key_lt k k' = true.
Proof.
  revert k. induction ks as [|k1 ks IH]; intros k H k' Hk'; [destruct Hk'|].
  cbn [increasing] in H. apply andb_prop in H. destruct H as [H1 H2].
  destruct Hk' as [<-|Hk']; [exact H1|].
  eapply key_lt_trans; [exact H1|]. apply IH; assumption.
Qed.

Lemma increasing_tail k ks : increasing (k :: ks) = true -> increasing ks = true.
Proof.
  destruct ks as [|k1 ks]; [reflexivity|]. cbn [increasing]. intros H.
  apply andb_prop in H. apply H.
Qed.

Lemma increasing_distinct l : forall ks,
  map_opt (version_key P) l = Some ks -> increasing ks = true ->
  distinct l = true.
Proof.
  induction l as [|id l IH]; intros ks Hks Hinc; [reflexivity|].
  cbn [map_opt] in Hks.
  destruct (version_key P id) as [k|] eqn:Ek; [|discriminate].
  destruct (map_opt (version_key P) l) as [ks'|] eqn:El; [|discriminate].
  injection Hks as <-. cbn [distinct].
  rewrite (IH ks' eq_refl (increasing_tail _ _ Hinc)), andb_true_r.
  apply negb_true_iff. destruct (existsb (PyStr.eqb id) l) eqn:Ex;
    [|reflexivity].
  apply existsb_exists in Ex. destruct Ex as (id' & Hin & He).
  apply eqb_eq in He. subst id'.
  destruct (@map_opt_In_inv _ _ _ _ _ _ El Hin) as (k' & Hk' & Ek').
  rewrite Ek in Ek'. injection Ek' as <-.
  pose proof (increasing_head_lt _ _ Hinc _ Hk') as Hlt.
  rewrite key_lt_irrefl in Hlt. discriminate.
Qed.

End WithPlatform.


(** C4 (amended): [_increment_version] follows semantic-versioning
    arithmetic on the key of an identifier: major maps (m,n,p) to (m+1,0,0),
    minor to (m,n+1,0), patch to (m,n,p+1). The identifier it returns carries
    the prefix [v]: incrementing 1.2.3 by minor gives v1.3.0 and incrementing
    2.0.0 by patch gives v2.0.1. For every sequence of [create_version] calls
    from any ledger the identifiers assigned have strictly increasing keys,
    each above every key recorded before, so no two of them are equal. *)
Theorem increment_and_create_monotone (P : Platform) :
  (forall id m n p, version_key P id = Some [m; n; p] ->
     _increment_version P id (u "major") = Some (fmt (m + 1) 0 0)
     /\ _increment_version P id (u "minor") = Some (fmt m (n + 1) 0)
     /\ _increment_version P id (u "patch") = Some (fmt m n (p + 1)))
  /\ (forall a b c, version_key P (fmt a b c) = Some [a; b; c])
  /\ _increment_version P (u "1.2.3") (u "minor") = Some (u "v1.3.0")
  /\ _increment_version P (u "2.0.0") (u "patch") = Some (u "v2.0.1")
  /\ (forall reqs s,
        exists ks,
          map_opt (version_key P) (fst (create_all P reqs s)) = Some ks
          /\ increasing ks = true
          /\ (forall k v, In k ks -> In v (versions (mem s)) ->
                exists k0, version_key P (version_id v) = Some k0
                           /\ key_lt k0 k = true))
  /\ (forall reqs s, distinct (fst (create_all P reqs s)) = true).
Proof.
  split; [|split; [|split; [|split; [|split]]]].
  - intros id m n p Hk. unfold _increment_version. unfold version_key in Hk.
    rewrite Hk. repeat split; reflexivity.
  - apply version_key_fmt.
  - reflexivity.
  - reflexivity.
  - intros reqs s. apply create_all_keys.
  - intros reqs s. destruct (create_all_keys P reqs s) as (ks & Hks & Hinc & _).
    eapply increasing_distinct; eassumption.
Qed.

(** The theorem on the demonstration platform: three creations of a file
    that exists, from the empty ledger. *)
Lemma increment_and_create_monotone_witness :
  _increment_version Demo.platform (u "v1.2.3") (u "major") = Some (u "v2.0.0")
  /\ fst (create_all Demo.platform
            [(u "core.md", [], u "major"); (u "core.md", [], u "minor");
             (u "core.md", [], u "patch")]
            (Demo.start (Demo.with_file "core.md" (Demo.bytes "tide")
                           Demo.no_files) Demo.writable))
     = [u "v1.0.0"; u "v1.1.0"; u "v1.1.1"]
  /\ distinct [u "v1.0.0"; u "v1.1.0"; u "v1.1.1"] = true.
Proof.
  destruct (increment_and_create_monotone Demo.platform)
    as (Hinc & _ & _ & _ & _ & Hdist).
  split; [|split].
  - apply (Hinc (u "v1.2.3") 1 2 3)%Z. reflexivity.
  - reflexivity.
  - apply (Hdist
             [(u "core.md", [], u "major"); (u "core.md", [], u "minor");
              (u "core.md", [], u "patch")]
             (Demo.start (Demo.with_file "core.md" (Demo.bytes "tide")
                            Demo.no_files) Demo.writable)).
Defined.

(** C4 as stated fails: the increment of 1.2.3 by minor is not the string
    1.3.0, the result has the prefix [v]. *)
Lemma increment_result_has_prefix :
  _increment_version Demo.platform (u "1.2.3") (u "minor") <> Some (u "1.3.0").
Proof. discriminate. Qed.

End Monotone.

(** ** Activation: one active version, behind the integrity gate *)

Module Activation.
Import PyIntFacts IntStr SemVerFacts OpFacts Run Monotone.

Lemma existsb_eqb_In id l : existsb (PyStr.eqb id) l = true <-> In id l.
Proof.
  rewrite existsb_exists. split.
  - intros (x & Hx & He). apply eqb_eq in He. subst. exact Hx.
  - intros H. exists id. split; [exact H|apply eqb_refl].
Qed.

Lemma distinct_cons id l :
  distinct (id :: l) = true <-> ~ In id l /\ distinct l = true.
Proof.
  cbn [distinct]. rewrite andb_true_iff, negb_true_iff.
  rewrite <- not_true_iff_false, existsb_eqb_In. tauto.
Qed.

Lemma distinct_app_fresh l id :
  distinct l = true -> ~ In id l -> distinct (l ++ [id]) = true.
Proof.
  induction l as [|x l IH]; intros Hd Hn; [reflexivity|].
  apply distinct_cons in Hd. destruct Hd as [Hx Hd].
  cbn [app]. apply distinct_cons. split.
  - intros Hin. apply in_app_or in Hin. destruct Hin as [Hin|[->|[]]].
    + contradiction.
    + apply Hn. left. reflexivity.
  - apply IH; [exact Hd|]. intros Hin. apply Hn. right. exact Hin.
Qed.

(** *** [_find_version] under unique identifiers *)

Lemma find_version_In l id v :
  _find_version l id = Some v -> In v (versions l) /\ version_id v = id.
Proof.
  unfold _find_version. intros H. apply find_some in H.
  destruct H as [H1 H2]. apply eqb_eq in H2. split; assumption.
Qed.

Lemma find_version_none l id :
  _find_version l id = None <-> ~ In id (ids l).
Proof.
  unfold _find_version, ids. split.
  - intros H Hin. apply in_map_iff in Hin. destruct Hin as (v & <- & Hv).
    pose proof (find_none _ _ H v Hv) as Hf. cbv beta in Hf.
    rewrite eqb_refl in Hf. discriminate.
  - intros H. destruct (find _ (versions l)) as [v|] eqn:E; [|reflexivity].
    apply find_some in E. destruct E as [Hv He]. apply eqb_eq in He.
    exfalso. apply H. apply in_map_iff. exists v. split; assumption.
Qed.

Lemma find_unique vs v :
  distinct (map version_id vs) = true -> In v vs ->
  find (fun x => PyStr.eqb (version_id x) (version_id v)) vs = Some v.
Proof.
  induction vs as [|x vs IH]; intros Hd Hin; [destruct Hin|].
  cbn [map] in Hd. apply distinct_cons in Hd. destruct Hd as [Hx Hd].
  cbn [find]. destruct Hin as [->|Hin].
  - rewrite eqb_refl. reflexivity.
  - destruct (PyStr.eqb (version_id x) (version_id v)) eqn:E.
    + apply eqb_eq in E. exfalso. apply Hx. rewrite E.
      apply in_map. exact Hin.
    + apply IH; assumption.
Qed.

Lemma find_version_unique l v :
  unique_ids l = true -> In v (versions l) ->
  _find_version l (version_id v) = Some v.
Proof. apply find_unique. Qed.

Lemma find_app_fresh vs v :
  ~ In (version_id v) (map version_id vs) ->
  find (fun x => PyStr.eqb (version_id x) (version_id v)) (vs ++ [v]) = Some v.
Proof.
  induction vs as [|x vs IH]; intros Hn; cbn [app find].
  - rewrite eqb_refl. reflexivity.
  - destruct (PyStr.eqb (version_id x) (version_id v)) eqn:E.
    + apply eqb_eq in E. exfalso. apply Hn. left. exact E.
    + apply IH. intros H. apply Hn. right. exact H.
Qed.

(** *** The flags after an activation *)

Lemma activated_ids id vs : map version_id (activated id vs) = map version_id vs.
Proof.
  unfold activated. rewrite map_map. apply map_ext. reflexivity.
Qed.

Lemma activated_active id vs v :
  In v (activated id vs) -> active v = PyStr.eqb (version_id v) id.
Proof.
  unfold activated. intros H. apply in_map_iff in H.
  destruct H as (x & <- & _). reflexivity.
Qed.

Lemma activated_absent id vs :
  ~ In id (map version_id vs) -> filter active (activated id vs) = [].
Proof.
  induction vs as [|x vs IH]; intros Hn; [reflexivity|].
  cbn [activated map filter set_active active].
  destruct (PyStr.eqb (version_id x) id) eqn:E.
  - apply eqb_eq in E. exfalso. apply Hn. left. exact E.
  - apply IH. intros H. apply Hn. right. exact H.
Qed.

Lemma activated_count id vs :
  distinct (map version_id vs) = true -> In id (map version_id vs) ->
  length (filter active (activated id vs)) = 1.
Proof.
  induction vs as [|x vs IH]; intros Hd Hin; [destruct Hin|].
  cbn [map] in Hd. apply distinct_cons in Hd. destruct Hd as [Hx Hd].
  cbn [activated map filter set_active active].
  destruct (PyStr.eqb (version_id x) id) eqn:E.
  - apply eqb_eq in E. subst id. fold (activated (version_id x) vs).
    rewrite activated_absent by exact Hx. reflexivity.
  - fold (activated id vs). apply IH; [exact Hd|].
    destruct Hin as [Hin|Hin]; [|exact Hin].
    apply eqb_neq in E. contradiction.
Qed.

Lemma activated_count_le id vs :
  distinct (map version_id vs) = true ->
  length (filter active (activated id vs)) <= 1.
Proof.
  intros Hd. destruct (existsb (PyStr.eqb id) (map version_id vs)) eqn:E.
  - apply existsb_eqb_In in E. rewrite activated_count; auto.
  - rewrite activated_absent; [simpl; lia|].
    intros H. apply existsb_eqb_In in H. congruence.
Qed.

Lemma mark_first_ids id vs :
  map version_id (mark_first id vs) = map version_id vs.
Proof.
  induction vs as [|x vs IH]; [reflexivity|]. cbn [mark_first].
  destruct (PyStr.eqb (version_id x) id); cbn [map]; [reflexivity|].
  rewrite IH. reflexivity.
Qed.

Lemma mark_first_active id vs :
  length (filter active (mark_first id vs)) = length (filter active vs).
Proof.
  induction vs as [|x vs IH]; [reflexivity|]. cbn [mark_first].
  destruct (PyStr.eqb (version_id x) id); cbn [filter set_stable active].
  - destruct (active x); reflexivity.
  - destruct (active x); cbn [length]; rewrite IH; reflexivity.
Qed.

(** *** Operations that leave [self.versions] alone *)

Lemma keeps_bind A B (m : M A) (f : A -> M B) :
  keeps_mem m -> (forall a, keeps_mem (f a)) -> keeps_mem (bind m f).
Proof.
  intros Hm Hf s. unfold bind. specialize (Hm s).
  destruct (m s) as [[a|e] s1]; cbn [snd] in *.
  - rewrite Hf. exact Hm.
  - exact Hm.
Qed.

Lemma keeps_ret A (a : A) : keeps_mem (ret a).
Proof. intros s. reflexivity. Qed.

Lemma keeps_raise A e : keeps_mem (@raise A e).
Proof. intros s. reflexivity. Qed.

Lemma keeps_if A (b : bool) (m1 m2 : M A) :
  keeps_mem m1 -> keeps_mem m2 -> keeps_mem (if b then m1 else m2).
Proof. destruct b; auto. Qed.

Lemma keeps_exists p : keeps_mem (exists_ p).
Proof. intros s. reflexivity. Qed.

Lemma keeps_get : keeps_mem get.
Proof. intros s. reflexivity. Qed.

Lemma keeps_restore id : keeps_mem (_restore_from_backup id).
Proof.
  intros s. rewrite restore_from_backup_eq.
  destruct (_find_version (mem s) id); reflexivity.
Qed.

Lemma keeps_read_lines p : keeps_mem (read_lines p).
Proof.
  intros s. unfold read_lines, read_bytes, bind, get, of_option, ret, raise.
  destruct (files (world s) p) as [c|]; [|reflexivity].
  destruct (Text.read_text_lines c); reflexivity.
Qed.

Lemma compare_mem id1 id2 s : mem (snd (compare_versions id1 id2 s)) = mem s.
Proof.
  unfold compare_versions. unfold bind at 1. cbn [get snd fst].
  change (get s) with (Ok s, s). cbv iota beta.
  destruct (_find_version (mem s) id1) as [v1|]; [|reflexivity].
  destruct (_find_version (mem s) id2) as [v2|]; [|reflexivity].
  cbv zeta. revert s.
  match goal with
  | |- forall s, mem (snd (?m s)) = mem s => change (keeps_mem m)
  end.
  repeat first
    [ apply keeps_exists
    | apply keeps_restore
    | apply keeps_read_lines
    | apply keeps_ret
    | apply keeps_raise
    | apply keeps_if
    | apply keeps_bind; [|intros ?] ].
Qed.


Lemma ledger_ok_versions l l' :
  versions l' = versions l -> ledger_ok l -> ledger_ok l'.
Proof.
  unfold ledger_ok, unique_ids, ids, active_count. intros ->. tauto.
Qed.

Section WithPlatform.

Variable P : Platform.

Lemma activate_ok id s : ledger_ok (mem s) ->
  ledger_ok (mem (snd (activate_version P id s))).
Proof.
  intros [Hu Ha]. rewrite activate_version_eq.
  destruct (_find_version (mem s) id) as [v|]; [|split; assumption].
  destruct (integrity_ok P (world s) v); [|split; assumption].
  unfold ledger_ok, unique_ids, ids, active_count. cbn.
  rewrite activated_ids. split; [exact Hu|].
  apply activated_count_le. exact Hu.
Qed.

Lemma rollback_tail_ok id s : ledger_ok (mem s) ->
  ledger_ok (mem (snd (rollback_tail P id s))).
Proof.
  intros H. apply (activate_ok id) in H. unfold rollback_tail.
  destruct (activate_version P id s) as [[[]|e] s2]; cbn [snd] in *;
    [|exact H].
  eapply ledger_ok_versions; [|exact H]. reflexivity.
Qed.

Lemma rollback_ok id s : ledger_ok (mem s) ->
  ledger_ok (mem (snd (rollback_to_version P id s))).
Proof.
  intros H. rewrite rollback_to_version_eq.
  destruct (_find_version (mem s) id) as [v|]; [|exact H].
  destruct (integrity_ok P (world s) v); [apply rollback_tail_ok; exact H|].
  destruct (restorable (world s) v id); [|exact H].
  apply rollback_tail_ok. exact H.
Qed.

Lemma exec_ok c s : ledger_ok (mem s) -> ledger_ok (mem (snd (exec P c s))).
Proof.
  intros H. destruct c as [p d t|id|id|id| |id1 id2]; cbn [exec forget snd].
  - rewrite create_version_eq.
    destruct (files (world s) p) as [c|]; [|exact H].
    destruct (next_version_id P t (versions (mem s))) as [id|] eqn:En;
      [|exact H].
    destruct H as [Hu Ha].
    unfold ledger_ok, unique_ids, ids, active_count. cbn.
    rewrite map_app, filter_app. cbn. rewrite app_nil_r. split; [|exact Ha].
    apply distinct_app_fresh; [exact Hu|].
    eapply next_version_id_not_in. exact En.
  - apply activate_ok. exact H.
  - rewrite mark_as_stable_eq.
    destruct (_find_version (mem s) id) as [v|]; [|exact H].
    destruct H as [Hu Ha].
    unfold ledger_ok, unique_ids, ids, active_count. cbn.
    rewrite mark_first_ids, mark_first_active. split; assumption.
  - apply rollback_ok. exact H.
  - rewrite rollback_to_last_stable_eq.
    destruct (get_stable_versions (mem s)) as [|v0 vs0]; [exact H|].
    destruct (sorted_versions_desc P (v0 :: vs0)) as [[|lv rest]|];
      try exact H.
    apply (rollback_ok (version_id lv)) in H.
    destruct (rollback_to_version P (version_id lv) s) as [[[]|e] s'];
      exact H.
  - rewrite compare_mem. exact H.
Qed.

Lemma exec_all_ok cs : forall s,
  ledger_ok (mem s) -> ledger_ok (mem (exec_all P cs s)).
Proof.
  induction cs as [|c cs IH]; intros s H; [exact H|].
  cbn [exec_all]. apply IH. apply exec_ok. exact H.
Qed.

Lemma filter_none A (f : A -> bool) l :
  (forall x, In x l -> f x = false) -> filter f l = [].
Proof.
  induction l as [|x l IH]; intros H; [reflexivity|].
  cbn [filter]. rewrite (H x (or_introl eq_refl)).
  apply IH. intros y Hy. apply H. right. exact Hy.
Qed.

(** C1 (amended): in a ledger whose identifiers are pairwise distinct,
    [activate_version X] returns for every recorded [X] whose live file has
    the recorded hash; a call that returned was for a recorded [X] and
    leaves exactly one active version, the one of identifier [X], which is
    the one [get_active_version] gives; and whatever sequence of operations
    is run from such a ledger with at most one active version, at most one
    version is active afterwards. *)
Theorem single_active_version (s : State) :
  unique_ids (mem s) = true ->
  (forall X v,
     _find_version (mem s) X = Some v ->
     integrity_ok P (world s) v = true ->
     exists s', activate_version P X s = (Ok tt, s'))
  /\ (forall X s',
        activate_version P X s = (Ok tt, s') ->
        In X (ids (mem s))
        /\ active_count (mem s') = 1
        /\ (forall v, In v (versions (mem s')) ->
              (active v = true <-> version_id v = X))
        /\ option_map version_id (get_active_version (mem s')) = Some X)
  /\ (active_count (mem s) <= 1 ->
      forall cs, active_count (mem (exec_all P cs s)) <= 1).
Proof.
  intros Hu. split; [|split].
  - intros X v Hf Hi. rewrite activate_version_eq, Hf, Hi.
    eexists. reflexivity.
  - intros X s' Hact. rewrite activate_version_eq in Hact.
    destruct (_find_version (mem s) X) as [v|] eqn:Hf; [|discriminate].
    destruct (integrity_ok P (world s) v); [|discriminate].
    injection Hact as <-.
    assert (Hin : In X (ids (mem s))).
    { destruct (in_dec (list_eq_dec N.eq_dec) X (ids (mem s))) as [H|H];
        [exact H|].
      apply find_version_none in H. congruence. }
    assert (Hc : length (filter active (activated X (versions (mem s)))) = 1)
      by (apply activated_count; assumption).
    assert (Ha : forall w, In w (activated X (versions (mem s))) ->
                   (active w = true <-> version_id w = X)).
    { intros w Hw. rewrite (activated_active _ _ _ Hw). apply eqb_eq. }
    split; [exact Hin|]. unfold active_count, get_active_version.
    cbn [mem after_activate versions add_entry].
    split; [exact Hc|]. split; [exact Ha|].
    destruct (find active (activated X (versions (mem s)))) as [w|] eqn:Ef.
    + apply find_some in Ef. destruct Ef as [Hw Haw].
      cbn [option_map]. f_equal. apply (Ha w Hw). exact Haw.
    + rewrite filter_none in Hc; [discriminate|].
      intros x Hx. apply (find_none _ _ Ef x Hx).
  - intros Ha cs. apply (exec_all_ok cs s). split; assumption.
Qed.

(** C2 (amended): for a version [V] of a ledger with unique identifiers,
    [activate_version] raises the integrity error exactly when the live
    file at [V]'s path is missing or its digest differs from [V]'s hash, and
    then the state is what it was; in particular, after [V1] was created
    from content [C] and the live file was changed to [C'], of another
    digest, the activation of [V1] raises the integrity error. *)
Theorem integrity_gate :
  (forall s V,
     unique_ids (mem s) = true -> In V (versions (mem s)) ->
     (fst (activate_version P (version_id V) s) = Raise VersionIntegrityError
      <-> (files (world s) (file V) = None
           \/ exists c, files (world s) (file V) = Some c
                        /\ sha256_hex P c <> hash V))
     /\ (fst (activate_version P (version_id V) s)
         = Raise VersionIntegrityError ->
         snd (activate_version P (version_id V) s) = s))
  /\ (forall s path d kind C C' V1 s1,
        files (world s) path = Some C ->
        create_version P path d kind s = (Ok V1, s1) ->
        C' <> C ->
        (sha256_hex P C' = sha256_hex P C -> C' = C) ->
        let s2 := with_world s1 (fs_set path C' (world s1)) in
        activate_version P (version_id V1) s2
        = (Raise VersionIntegrityError, s2)).
Proof.
  split.
  - intros s V Hu HV. rewrite activate_version_eq.
    rewrite (find_version_unique _ _ Hu HV). unfold integrity_ok.
    destruct (files (world s) (file V)) as [c|] eqn:Ef.
    + destruct (PyStr.eqb (sha256_hex P c) (hash V)) eqn:Eh; cbn [fst snd].
      * apply eqb_eq in Eh. split; [|discriminate]. split; [discriminate|].
        intros [H|(c' & Hc' & Hne)]; [discriminate|].
        injection Hc' as <-. contradiction.
      * apply eqb_neq in Eh. split; [|reflexivity]. split; [|reflexivity].
        intros _. right. exists c. split; [reflexivity|exact Eh].
    + cbn [fst snd]. split; [|reflexivity]. split; [|reflexivity].
      intros _. left. reflexivity.
  - intros s path d kind C C' V1 s1 Hf Hc Hne Hinj s2.
    destruct (create_ok_inv _ _ _ _ _ Hc) as (c & id & Ef & En & Ev & Em & Ew).
    rewrite Hf in Ef. injection Ef as <-.
    rewrite activate_version_eq. unfold _find_version.
    assert (Efind : find (fun v => PyStr.eqb (version_id v) (version_id V1))
                      (versions (mem s2)) = Some V1).
    { subst s2. cbn [with_world mem]. rewrite Em. cbn [add_entry versions].
      apply find_app_fresh. rewrite Ev. cbn [created_version version_id].
      eapply next_version_id_not_in. exact En. }
    rewrite Efind. unfold integrity_ok.
    assert (Efile : files (world s2) (file V1) = Some C').
    { subst s2. rewrite Ev. cbn. rewrite eqb_refl. reflexivity. }
    rewrite Efile.
    assert (Eh : PyStr.eqb (sha256_hex P C') (hash V1) = false).
    { apply eqb_neq. rewrite Ev. cbn [created_version hash]. intros E.
      apply Hne. apply Hinj. exact E. }
    rewrite Eh. reflexivity.
Qed.

End WithPlatform.

(** On the demonstration ledger, whose first version is the active one:
    the activation of the second version returns and leaves that version
    as the only active one, and a run of further operations leaves at most
    one. *)
Lemma single_active_version_witness :
  (exists s',
     activate_version Demo.platform (u "v1.1.0") Demo.two = (Ok tt, s')
     /\ active_count (mem s') = 1
     /\ option_map version_id (get_active_version (mem s'))
        = Some (u "v1.1.0"))
  /\ active_count
       (mem (exec_all Demo.platform
               [Activate (u "v1.1.0"); Create (u "core.md") [] (u "minor");
                Rollback (u "v1.0.0")] Demo.two)) <= 1.
Proof.
  destruct (single_active_version Demo.platform Demo.two eq_refl)
    as (H1 & H2 & H3).
  split.
  - destruct (H1 (u "v1.1.0")
                (Demo.ver "v1.1.0" "core.md" (Demo.bytes "tide") false false)
                eq_refl eq_refl) as (s' & Hs).
    exists s'. destruct (H2 _ _ Hs) as (_ & Hc & _ & Hg).
    split; [exact Hs|]. split; [exact Hc|exact Hg].
  - apply H3. apply le_n.
Defined.

(** C1 as stated fails: in a ledger that records one identifier twice, the
    activation of that identifier returns and leaves two active
    versions. *)
Lemma repeated_id_leaves_two_active :
  In (u "v1.0.0") (ids (mem EdgeCases.repeated))
  /\ exists s',
       activate_version Demo.platform (u "v1.0.0") EdgeCases.repeated
       = (Ok tt, s')
       /\ active_count (mem s') = 2
       /\ map active (versions (mem s')) = [true; true].
Proof.
  split; [left; reflexivity|].
  eexists. split; [vm_compute; reflexivity|]. split; reflexivity.
Qed.

(** C2 as stated fails: in that ledger the second entry of the identifier
    is a version whose live file is missing, and the activation of its
    identifier returns, since the file of the first entry is the one
    verified. *)
Lemma repeated_id_passes_gate :
  In (Demo.ver "v1.0.0" "gone.md" (Demo.bytes "diet") false false)
     (versions (mem EdgeCases.repeated))
  /\ files (world EdgeCases.repeated) (u "gone.md") = None
  /\ fst (activate_version Demo.platform (u "v1.0.0") EdgeCases.repeated)
     = Ok tt.
Proof.
  split; [right; left; reflexivity|]. split; reflexivity.
Qed.

(** On the demonstration platform, whose digest is injective: the first
    version of a drifted file cannot be activated, and a version created
    from one content cannot be activated over another. *)
Lemma integrity_gate_witness :
  fst (activate_version Demo.platform (u "v1.0.0") Demo.two_drifted)
  = Raise VersionIntegrityError
  /\ fst (activate_version Demo.platform (u "v1.0.0")
            (with_world
               (snd (create_version Demo.platform (u "core.md") [] (u "minor")
                       (Demo.start Demo.core_fs Demo.writable)))
               (fs_set (u "core.md") (Demo.bytes "diet")
                  (world (snd (create_version Demo.platform (u "core.md") []
                                 (u "minor")
                                 (Demo.start Demo.core_fs Demo.writable)))))))
     = Raise VersionIntegrityError.
Proof.
  destruct (integrity_gate Demo.platform) as [H1 H2]. split.
  - apply (H1 Demo.two_drifted
              (Demo.ver "v1.0.0" "core.md" (Demo.bytes "tide") true false)
              eq_refl (or_introl eq_refl)).
    right. exists (Demo.bytes "diet"). split; [reflexivity|discriminate].
  - refine (f_equal fst
              (H2 (Demo.start Demo.core_fs Demo.writable) (u "core.md") []
                 (u "minor") (Demo.bytes "tide") (Demo.bytes "diet")
                 (created_version Demo.platform (u "core.md") [] (u "v1.0.0")
                    (Demo.bytes "tide") 0)
                 (snd (create_version Demo.platform (u "core.md") []
                         (u "minor")
                         (Demo.start Demo.core_fs Demo.writable)))
                 eq_refl eq_refl _ _)).
    + discriminate.
    + intros E. unfold Demo.platform, Demo.digest in E. cbn [sha256_hex] in E.
      discriminate E.
Defined.

End Activation.

(** ** Creation, persistence, the last stable version and a corrupt
    version file *)

Module Persistence.
Import PyIntFacts IntStr SemVerFacts OpFacts Run Monotone Activation.

Lemma backup_path_not_version_file name :
  PyStr.eqb VERSION_FILE (backup_path name) = false.
Proof. reflexivity. Qed.

Lemma fs_set_same p c w : files (fs_set p c w) p = Some c.
Proof. unfold fs_set. cbn [files]. rewrite eqb_refl. reflexivity. Qed.

Lemma fs_set_other p q c w :
  PyStr.eqb q p = false -> files (fs_set p c w) q = files w q.
Proof. intros H. unfold fs_set. cbn [files]. rewrite H. reflexivity. Qed.

Lemma copy_world_other src dst w q :
  PyStr.eqb q dst = false -> files (copy_world src dst w) q = files w q.
Proof.
  intros H. unfold copy_world. destruct (files w src); [|reflexivity].
  destruct (PyStr.eqb src dst); [reflexivity|].
  destruct (readonly w dst); [reflexivity|]. apply fs_set_other. exact H.
Qed.

Lemma copy_world_readonly src dst w : readonly (copy_world src dst w) = readonly w.
Proof.
  unfold copy_world. destruct (files w src); [|reflexivity].
  destruct (PyStr.eqb src dst); [reflexivity|].
  destruct (readonly w dst); reflexivity.
Qed.

(** A copy that is allowed leaves the target with the bytes of the
    source. *)
Lemma copy_world_done src dst w :
  readonly w dst = false ->
  files (copy_world src dst w) dst = files (copy_world src dst w) src
  \/ files w src = None.
Proof.
  intros Hro. unfold copy_world. destruct (files w src) as [c|] eqn:Ef;
    [|right; reflexivity].
  left. destruct (PyStr.eqb src dst) eqn:Ee.
  - apply eqb_eq in Ee. subst. reflexivity.
  - rewrite Hro. rewrite fs_set_same. rewrite fs_set_other by exact Ee.
    symmetry. exact Ef.
Qed.

Lemma copy_world_denied src dst w :
  readonly w dst = true -> copy_world src dst w = w.
Proof.
  intros Hro. unfold copy_world. destruct (files w src); [|reflexivity].
  destruct (PyStr.eqb src dst); [reflexivity|]. rewrite Hro. reflexivity.
Qed.

Section WithPlatform.

Variable P : Platform.

Lemma save_world_written l w :
  readonly w VERSION_FILE = false ->
  files (save_world P l w) VERSION_FILE = Some (json_dump P l).
Proof.
  intros H. unfold save_world. rewrite H. apply fs_set_same.
Qed.

Lemma save_world_denied l w :
  readonly w VERSION_FILE = true -> save_world P l w = w.
Proof. intros H. unfold save_world. rewrite H. reflexivity. Qed.

Lemma save_world_readonly l w : readonly (save_world P l w) = readonly w.
Proof. unfold save_world. destruct (readonly w VERSION_FILE); reflexivity. Qed.

Lemma save_world_exists l w p c :
  files w p = Some c -> exists c', files (save_world P l w) p = Some c'.
Proof.
  intros H. unfold save_world. destruct (readonly w VERSION_FILE); [eauto|].
  unfold fs_set. cbn [files]. destruct (PyStr.eqb p VERSION_FILE); eauto.
Qed.

(** C3 (amended): [create_version] either raises before it touches
    anything (the file is missing, or a recorded identifier is not
    numeric), or appends one inactive, not stable version with the digest of
    the live bytes and one [create] history entry and returns it. The
    snapshot is attempted last and its failure is swallowed: where the
    snapshot path can be written it ends with the live bytes of the file,
    where it cannot the snapshot path is left as it was and the call still
    returns with the ledger changed. *)
Theorem create_outcome path d kind s :
  match create_version P path d kind s with
  | (Raise e, s') =>
      s' = s
      /\ (files (world s) path = None
          \/ next_version_id P kind (versions (mem s)) = None)
  | (Ok v, s') =>
      versions (mem s') = versions (mem s) ++ [v]
      /\ history_list (mem s')
         = history_list (mem s)
           ++ [history_entry P (u "create") (version_id v)
                 (S (tick (world s)))]
      /\ active v = false /\ stable v = false /\ file v = path
      /\ (exists c, files (world s) path = Some c /\ hash v = sha256_hex P c)
      /\ ~ In (version_id v) (ids (mem s))
      /\ (readonly (world s) (snapshot_path path (version_id v)) = false ->
          files (world s') (snapshot_path path (version_id v))
          = files (world s') path
          /\ exists c, files (world s') path = Some c)
      /\ (readonly (world s) (snapshot_path path (version_id v)) = true ->
          files (world s') (snapshot_path path (version_id v))
          = files (world s) (snapshot_path path (version_id v)))
  end.
Proof.
  rewrite create_version_eq.
  destruct (files (world s) path) as [c|] eqn:Ef;
    [|split; [reflexivity|left; reflexivity]].
  destruct (next_version_id P kind (versions (mem s))) as [id|] eqn:En;
    [|split; [reflexivity|right; reflexivity]].
  cbv zeta.
  set (v := created_version P path d id c (tick (world s))).
  set (l := add_entry (mem s) (versions (mem s) ++ [v])
              (history_entry P (u "create") id (S (tick (world s))))).
  set (w := save_world P l (tick_world 2 (world s))).
  cbn [mem world].
  assert (Hlive : exists c', files w path = Some c').
  { apply (@save_world_exists l (tick_world 2 (world s)) path c). exact Ef. }
  assert (Hro : readonly w = readonly (world s))
    by (subst w; rewrite save_world_readonly; reflexivity).
  split; [reflexivity|]. split; [reflexivity|].
  split; [reflexivity|]. split; [reflexivity|]. split; [reflexivity|].
  split; [exists c; split; reflexivity|].
  split; [eapply next_version_id_not_in; exact En|].
  change (version_id v) with id. split.
  - intros H. destruct Hlive as (c' & Hc').
    destruct (@copy_world_done path (snapshot_path path id) w) as [E|E].
    + rewrite Hro. exact H.
    + split; [exact E|]. unfold copy_world. rewrite Hc'.
      destruct (PyStr.eqb path (snapshot_path path id)) eqn:Ee; [eauto|].
      rewrite Hro, H. exists c'. rewrite fs_set_other by exact Ee. exact Hc'.
    + congruence.
  - intros H. rewrite copy_world_denied by (rewrite Hro; exact H).
    subst w. unfold save_world, tick_world. cbn [readonly].
    destruct (readonly (world s) VERSION_FILE); [reflexivity|].
    rewrite fs_set_other; [reflexivity|].
    unfold snapshot_path. rewrite eqb_sym.
    apply backup_path_not_version_file.
Qed.


(** C5 (amended): the persist step never raises, whatever happens to the
    write, and so no write failure reaches the caller of [create_version],
    [activate_version] or [mark_as_stable]: each of them returns whenever
    its own conditions hold (a file to record and numeric identifiers; a
    recorded version whose live file has the recorded hash; a recorded
    version), the ledger in memory then has the history entry of the
    operation, and the version file is left as it was when it cannot be
    opened for writing, and holds what [json.dump] wrote of that whole
    ledger when it can. *)
Theorem persist_after_mutation (s : State) :
  (exists s',
     _save_versions P s = (Ok tt, s')
     /\ mem s' = mem s /\ flushed P s s')
  /\ (forall path d kind c id,
        files (world s) path = Some c ->
        next_version_id P kind (versions (mem s)) = Some id ->
        exists v s',
          create_version P path d kind s = (Ok v, s')
          /\ version_id v = id
          /\ logged P (u "create") id (mem s) (mem s')
          /\ flushed P s s')
  /\ (forall id v,
        _find_version (mem s) id = Some v ->
        integrity_ok P (world s) v = true ->
        exists s',
          activate_version P id s = (Ok tt, s')
          /\ logged P (u "activate") id (mem s) (mem s')
          /\ flushed P s s')
  /\ (forall id v,
        _find_version (mem s) id = Some v ->
        exists s',
          mark_as_stable P id s = (Ok tt, s')
          /\ logged P (u "mark_stable") id (mem s) (mem s')
          /\ flushed P s s').
Proof.
  assert (Hsave : forall l w,
            readonly w = readonly (world s) ->
            files w VERSION_FILE = files (world s) VERSION_FILE ->
            if readonly (world s) VERSION_FILE
            then files (save_world P l w) VERSION_FILE
                 = files (world s) VERSION_FILE
            else files (save_world P l w) VERSION_FILE
                 = Some (json_dump P l)).
  { intros l w Hr Hf. destruct (readonly (world s) VERSION_FILE) eqn:Er.
    - rewrite save_world_denied by (rewrite Hr; exact Er). exact Hf.
    - apply save_world_written. rewrite Hr. exact Er. }
  unfold flushed, logged. split; [|split; [|split]].
  - rewrite save_versions_eq. eexists. split; [reflexivity|].
    split; [reflexivity|]. cbn [world with_world mem].
    apply Hsave; reflexivity.
  - intros path d kind c id Hf Hn. rewrite create_version_eq, Hf, Hn.
    cbv zeta. eexists. eexists. split; [reflexivity|].
    split; [reflexivity|]. cbn [mem world].
    split; [exists (S (tick (world s))); reflexivity|].
    assert (Hc : forall w, files (copy_world path (snapshot_path path id) w)
                             VERSION_FILE = files w VERSION_FILE).
    { intros w. apply copy_world_other. unfold snapshot_path.
      apply backup_path_not_version_file. }
    rewrite Hc.
    match goal with
    | |- context [save_world P ?l ?w] =>
        pose proof (Hsave l w eq_refl eq_refl) as H
    end.
    destruct (readonly (world s) VERSION_FILE); exact H.
  - intros id v Hf Hi. rewrite activate_version_eq, Hf, Hi.
    eexists. split; [reflexivity|]. unfold after_activate. cbn [mem world].
    split; [exists (tick (world s)); reflexivity|].
    apply Hsave; reflexivity.
  - intros id v Hf. rewrite mark_as_stable_eq, Hf.
    eexists. split; [reflexivity|]. unfold after_mark. cbn [mem world].
    split; [exists (tick (world s)); reflexivity|].
    apply Hsave; reflexivity.
Qed.

(** [rollback_to_version] appends its history entry after the last write:
    when it returns, the version file holds the ledger without the
    [rollback] entry. *)
Lemma rollback_entry_not_flushed id s s' :
  readonly (world s) VERSION_FILE = false ->
  rollback_to_version P id s = (Ok tt, s') ->
  exists l,
    files (world s') VERSION_FILE = Some (json_dump P l)
    /\ versions (mem s') = versions l
    /\ logged P (u "rollback") id l (mem s').
Proof.
  intros Hro H. rewrite rollback_to_version_eq in H.
  destruct (_find_version (mem s) id) as [v|]; [|discriminate].
  assert (Htail : forall s1,
            readonly (world s1) VERSION_FILE = false ->
            rollback_tail P id s1 = (Ok tt, s') ->
            exists l,
              files (world s') VERSION_FILE = Some (json_dump P l)
              /\ versions (mem s') = versions l
              /\ logged P (u "rollback") id l (mem s')).
  { intros s1 Hro1 Ht. unfold rollback_tail in Ht.
    rewrite activate_version_eq in Ht.
    destruct (_find_version (mem s1) id) as [v1|]; [|discriminate].
    destruct (integrity_ok P (world s1) v1); [|discriminate].
    injection Ht as <-. exists (mem (after_activate P id s1)).
    split; [|split].
    - unfold after_activate. cbn [mem world tick_world files].
      apply save_world_written. exact Hro1.
    - reflexivity.
    - exists (tick (world (after_activate P id s1))). reflexivity. }
  destruct (integrity_ok P (world s) v).
  - apply (Htail s Hro H).
  - destruct (restorable (world s) v id); [|discriminate].
    refine (Htail _ _ H). cbn [with_world world].
    rewrite copy_world_readonly. exact Hro.
Qed.

Lemma map_opt_total A B (f : A -> option B) l :
  (forall x, In x l -> f x <> None) -> exists l', map_opt f l = Some l'.
Proof.
  induction l as [|x l IH]; intros H; [exists []; reflexivity|].
  cbn [map_opt]. destruct (f x) as [y|] eqn:E.
  - destruct IH as (l' & ->); [intros z Hz; apply H; right; exact Hz|].
    eexists. reflexivity.
  - exfalso. apply (H x); [left; reflexivity|exact E].
Qed.

Lemma delegated_eq id s :
  match rollback_to_version P id s with
  | (Ok _, s') => (Ok (Some id), s')
  | (Raise e, s') => (Raise e, s')
  end = delegated P id s.
Proof.
  unfold delegated. destruct (rollback_to_version P id s) as [[[]|e] s'];
    reflexivity.
Qed.

(** C6 (amended): [rollback_to_last_stable] returns [None], without raising
    and without changing anything, when no version is stable; otherwise,
    the stable identifiers being numeric, it delegates to the rollback to a
    stable version of greatest key and returns its identifier when the
    rollback returns; with stable versions 1.0.0 and 2.1.0 and the version
    3.0.0 not stable, that is 2.1.0. *)
Theorem rollback_to_last_stable_selects (s : State) :
  (get_stable_versions (mem s) = [] ->
   rollback_to_last_stable P s = (Ok None, s))
  /\ (get_stable_versions (mem s) <> [] ->
      (forall v, In v (get_stable_versions (mem s)) ->
         version_key P (version_id v) <> None) ->
      exists v k,
        In v (versions (mem s)) /\ stable v = true
        /\ version_key P (version_id v) = Some k
        /\ (forall w, In w (versions (mem s)) -> stable w = true ->
              exists k', version_key P (version_id w) = Some k'
                         /\ key_le k' k)
        /\ rollback_to_last_stable P s = delegated P (version_id v) s)
  /\ (forall v1 v2 v3,
        versions (mem s) = [v1; v2; v3] ->
        version_id v1 = u "1.0.0" -> stable v1 = true ->
        version_id v2 = u "2.1.0" -> stable v2 = true ->
        version_id v3 = u "3.0.0" -> stable v3 = false ->
        rollback_to_last_stable P s = delegated P (u "2.1.0") s).
Proof.
  split; [|split].
  - intros H. rewrite rollback_to_last_stable_eq, H. reflexivity.
  - intros Hne Hnum. rewrite rollback_to_last_stable_eq.
    destruct (get_stable_versions (mem s)) as [|v0 vs0] eqn:Evs;
      [congruence|].
    assert (Hk : exists kvs, map_opt (keyed P) (v0 :: vs0) = Some kvs).
    { apply map_opt_total. intros x Hx. unfold keyed.
      specialize (Hnum x Hx).
      destruct (version_key P (version_id x)); [discriminate|congruence]. }
    destruct Hk as (kvs & Hk).
    destruct (sorted_versions_desc P (v0 :: vs0)) as [sorted|] eqn:Es;
      [|unfold sorted_versions_desc in Es; rewrite Hk in Es; discriminate].
    assert (Hs : sorted <> []).
    { eapply sorted_some_nonempty; [|exact Es]. discriminate. }
    destruct sorted as [|lv rest]; [congruence|].
    destruct (@sorted_head P _ _ _ Es) as (Hin & k & Hlk & Hmax).
    rewrite <- Evs in Hin, Hmax. unfold get_stable_versions in Hin, Hmax.
    apply filter_In in Hin. destruct Hin as [Hin Hst].
    exists lv, k. repeat split; try assumption.
    + intros w Hw Hws. apply Hmax. apply filter_In. split; assumption.
    + apply delegated_eq.
  - intros v1 v2 v3 Hvs E1 S1 E2 S2 E3 S3.
    rewrite rollback_to_last_stable_eq. unfold get_stable_versions.
    rewrite Hvs. cbn [filter]. rewrite S1, S2, S3.
    unfold sorted_versions_desc. cbn [map_opt]. unfold keyed.
    rewrite E1, E2.
    change (version_key P (u "1.0.0")) with (Some [1; 0; 0]%Z).
    change (version_key P (u "2.1.0")) with (Some [2; 1; 0]%Z).
    cbn. rewrite E2. apply delegated_eq.
Qed.

Lemma archive_path_not_version_file t :
  PyStr.eqb VERSION_FILE (archive_path P t) = false.
Proof. reflexivity. Qed.

End WithPlatform.

(** A creation on the demonstration platform: the snapshot of the new
    version holds the bytes of the live file. *)
Lemma create_outcome_witness :
  files (world (snd (create_version Demo.platform (u "core.md") []
                       (u "minor") (Demo.start Demo.core_fs Demo.writable))))
        (snapshot_path (u "core.md") (u "v1.0.0"))
  = Some (Demo.bytes "tide").
Proof.
  pose proof (create_outcome Demo.platform (u "core.md") [] (u "minor")
                (Demo.start Demo.core_fs Demo.writable)) as H.
  vm_compute in H.
  destruct H as (_ & _ & _ & _ & _ & _ & _ & H & _).
  destruct (H eq_refl) as [H1 _]. vm_compute. exact H1.
Defined.

(** C3 as stated fails: with a backup directory that cannot be written the
    snapshot step fails, and [create_version] still returns, the version is
    in the ledger and it has no snapshot. *)
Lemma create_survives_snapshot_failure :
  exists v s',
    create_version Demo.platform (u "core.md") [] (u "minor")
      (Demo.start Demo.core_fs Demo.backups_readonly) = (Ok v, s')
    /\ ids (mem (Demo.start Demo.core_fs Demo.backups_readonly)) = []
    /\ ids (mem s') = [u "v1.0.0"]
    /\ files (world s') (snapshot_path (u "core.md") (u "v1.0.0")) = None.
Proof.
  eexists. eexists. split; [vm_compute; reflexivity|].
  split; [reflexivity|]. split; reflexivity.
Qed.

(** On the demonstration platform: an activation returns and the version
    file holds the ledger in memory; and with a version file that cannot be
    written a creation returns all the same, and leaves no version file. *)
Lemma persist_after_mutation_witness :
  (exists s',
     activate_version Demo.platform (u "v1.1.0") Demo.two = (Ok tt, s')
     /\ files (world s') VERSION_FILE = Some (Demo.dump (mem s')))
  /\ (exists v s',
        create_version Demo.platform (u "core.md") [] (u "minor")
          (Demo.start Demo.core_fs Demo.ledger_readonly) = (Ok v, s')
        /\ version_id v = u "v1.0.0"
        /\ files (world s') VERSION_FILE = None).
Proof.
  split.
  - destruct (persist_after_mutation Demo.platform Demo.two)
      as (_ & _ & H & _).
    destruct (H (u "v1.1.0")
                (Demo.ver "v1.1.0" "core.md" (Demo.bytes "tide") false false)
                eq_refl eq_refl) as (s' & Hs & _ & Hf).
    exists s'. split; [exact Hs|exact Hf].
  - destruct (persist_after_mutation Demo.platform
                (Demo.start Demo.core_fs Demo.ledger_readonly))
      as (_ & H & _).
    destruct (H (u "core.md") [] (u "minor") (Demo.bytes "tide")
                (u "v1.0.0") eq_refl eq_refl) as (v & s' & Hs & Hv & _ & Hf).
    exists v, s'. split; [exact Hs|]. split; [exact Hv|exact Hf].
Defined.

(** A description with a lone surrogate: [json.dump] raises on it, the
    creation returns all the same, and the version file holds the part of
    the text written before the description. *)
Lemma dump_failure_is_swallowed :
  exists v s',
    create_version EdgeCases.surrogates (u "core.md") [55296%N] (u "minor")
      (Demo.start Demo.core_fs Demo.writable) = (Ok v, s')
    /\ json_dump_raises EdgeCases.surrogates (mem s') = true
    /\ ids (mem s') = [u "v1.0.0"]
    /\ files (world s') VERSION_FILE = Some [].
Proof.
  eexists. eexists. split; [vm_compute; reflexivity|].
  split; [reflexivity|]. split; reflexivity.
Qed.

(** C5 as stated fails: with a version file that cannot be written
    [create_version] returns without an error, the ledger in memory has the
    new version and there is no version file. *)
Lemma write_failure_is_swallowed :
  exists v s',
    create_version Demo.platform (u "core.md") [] (u "minor")
      (Demo.start Demo.core_fs Demo.ledger_readonly) = (Ok v, s')
    /\ ids (mem s') = [u "v1.0.0"]
    /\ files (world s') VERSION_FILE = None.
Proof.
  eexists. eexists. split; [vm_compute; reflexivity|].
  split; reflexivity.
Qed.

(** The rollback entry on the demonstration platform: after a rollback
    that returned, the version file differs from the dump of the ledger in
    memory. *)
Lemma rollback_entry_not_flushed_example :
  fst (rollback_to_version Demo.platform (u "v1.0.0") Demo.two) = Ok tt
  /\ files (world (snd (rollback_to_version Demo.platform (u "v1.0.0")
                          Demo.two))) VERSION_FILE
     <> Some (Demo.dump
                (mem (snd (rollback_to_version Demo.platform (u "v1.0.0")
                             Demo.two)))).
Proof. split; [reflexivity|]. vm_compute. discriminate. Qed.

(** The selection on the demonstration ledger with stable versions 1.0.0
    and 2.1.0 and the version 3.0.0: the rollback goes to 2.1.0. *)
Lemma rollback_to_last_stable_selects_witness :
  fst (rollback_to_last_stable Demo.platform Demo.three)
  = Ok (Some (u "2.1.0")).
Proof.
  destruct (rollback_to_last_stable_selects Demo.platform Demo.three)
    as (_ & _ & H).
  rewrite (H (Demo.ver "1.0.0" "core.md" (Demo.bytes "tide") false true)
             (Demo.ver "2.1.0" "core.md" (Demo.bytes "tide") false true)
             (Demo.ver "3.0.0" "core.md" (Demo.bytes "tide") true false)
             eq_refl eq_refl eq_refl eq_refl eq_refl eq_refl eq_refl).
  reflexivity.
Defined.

(** C6 as stated fails: without a stable version the call does not fail,
    it returns [None]. *)
Lemma no_stable_version_returns_none :
  rollback_to_last_stable Demo.platform Demo.two = (Ok None, Demo.two).
Proof. reflexivity. Qed.

End Persistence.

(** ** The matcher of [difflib] *)

Module MatcherFacts.
Import Difflib.

Section Matcher.

Variable E : Type.
Variable eqb : E -> E -> bool.
Variables a b : list E.
Variable b2j : list (E * list nat).

Lemma row_inside alo ahi blo bhi i js j2len : forall newj2len best,
  alo <= i -> i < ahi ->
  row_bounded alo blo i j2len ->
  row_bounded alo blo (S i) newj2len ->
  inside (alo, ahi, blo, bhi) best ->
  row_bounded alo blo (S i) (fst (row blo bhi i js j2len newj2len best))
  /\ inside (alo, ahi, blo, bhi)
       (snd (row blo bhi i js j2len newj2len best)).
Proof.
  induction js as [|j js IH]; intros newj2len best Hi Hi' Hold Hnew Hbest;
    cbn [row].
  - split; assumption.
  - destruct (j <? blo) eqn:Ejb; [apply IH; assumption|].
    destruct (bhi <=? j) eqn:Ejh; [split; assumption|].
    apply Nat.ltb_ge in Ejb. apply Nat.leb_gt in Ejh.
    destruct best as [[bi bj] bs].
    set (k := match j with 0 => 0 | S j' => j2len j' end + 1).
    assert (Hk : 1 <= k /\ k <= S i - alo /\ k <= j + 1 - blo).
    { subst k. destruct j as [|j'].
      - lia.
      - destruct (Hold j') as [H1 H2]. lia. }
    apply IH; try assumption.
    + intros x. unfold upd. destruct (x =? j) eqn:Ex.
      * apply Nat.eqb_eq in Ex. subst x. lia.
      * apply Hnew.
    + destruct (bs <? k); [|exact Hbest]. cbn. lia.
Qed.

Lemma rows_inside alo ahi blo bhi n : forall i j2len best,
  alo <= i -> i + n <= ahi ->
  row_bounded alo blo i j2len ->
  inside (alo, ahi, blo, bhi) best ->
  inside (alo, ahi, blo, bhi)
    (rows eqb a b2j blo bhi (seq i n) j2len best).
Proof.
  induction n as [|n IH]; intros i j2len best Hi Hn Hj Hbest; cbn [seq rows].
  - exact Hbest.
  - destruct (@row_inside alo ahi blo bhi i
                (b2j_get eqb b2j (nth_error a i)) j2len (fun _ => 0) best)
      as [H1 H2]; try assumption; try lia.
    { intros j. lia. }
    destruct (row blo bhi i (b2j_get eqb b2j (nth_error a i)) j2len
                (fun _ => 0) best) as [newj2len best'].
    cbn [fst snd] in H1, H2. apply IH; try assumption; lia.
Qed.

Lemma extend_left_inside junk alo ahi blo bhi besti : forall bestj bestsize,
  inside (alo, ahi, blo, bhi) (besti, bestj, bestsize) ->
  inside (alo, ahi, blo, bhi)
    (extend_left eqb a b junk alo blo besti bestj bestsize).
Proof.
  induction besti as [|i' IH]; intros bestj bestsize H; cbn [extend_left].
  - exact H.
  - destruct bestj as [|j']; [exact H|].
    destruct ((alo <? S i') && (blo <? S j')
              && Bool.eqb (isbjunk (nth_error b j')) junk
              && elem_eq eqb (nth_error a i') (nth_error b j')) eqn:Ec;
      [|exact H].
    apply andb_prop in Ec. destruct Ec as [Ec _].
    apply andb_prop in Ec. destruct Ec as [Ec _].
    apply andb_prop in Ec. destruct Ec as [E1 E2].
    apply Nat.ltb_lt in E1. apply Nat.ltb_lt in E2.
    apply IH. cbn in *. lia.
Qed.

Lemma extend_right_inside junk alo ahi blo bhi besti bestj fuel :
  forall bestsize,
  inside (alo, ahi, blo, bhi) (besti, bestj, bestsize) ->
  inside (alo, ahi, blo, bhi)
    (extend_right eqb a b fuel junk ahi bhi besti bestj bestsize).
Proof.
  induction fuel as [|fuel IH]; intros bestsize H; cbn [extend_right].
  - exact H.
  - destruct ((besti + bestsize <? ahi) && (bestj + bestsize <? bhi)
              && Bool.eqb (isbjunk (nth_error b (bestj + bestsize))) junk
              && elem_eq eqb (nth_error a (besti + bestsize))
                   (nth_error b (bestj + bestsize))) eqn:Ec; [|exact H].
    apply andb_prop in Ec. destruct Ec as [Ec _].
    apply andb_prop in Ec. destruct Ec as [Ec _].
    apply andb_prop in Ec. destruct Ec as [E1 E2].
    apply Nat.ltb_lt in E1. apply Nat.ltb_lt in E2.
    apply IH. cbn in *. lia.
Qed.

(** The block [find_longest_match] returns lies in its window. *)
Lemma find_longest_match_inside alo ahi blo bhi :
  window_ok (alo, ahi, blo, bhi) ->
  inside (alo, ahi, blo, bhi)
    (find_longest_match eqb a b b2j alo ahi blo bhi).
Proof.
  intros [Ha Hb]. unfold find_longest_match.
  pose proof (@rows_inside alo ahi blo bhi (ahi - alo) alo (fun _ => 0)
                (alo, blo, 0)) as H0.
  destruct (rows eqb a b2j blo bhi (seq alo (ahi - alo)) (fun _ => 0)
              (alo, blo, 0)) as [[i0 j0] k0].
  assert (H0' : inside (alo, ahi, blo, bhi) (i0, j0, k0)).
  { apply H0; try lia. - intros j. lia. - cbn. lia. }
  pose proof (@extend_left_inside false alo ahi blo bhi i0 j0 k0 H0') as H1.
  destruct (extend_left eqb a b false alo blo i0 j0 k0) as [[i1 j1] k1].
  pose proof (@extend_right_inside false alo ahi blo bhi i1 j1 ahi k1 H1)
    as H2.
  destruct (extend_right eqb a b ahi false ahi bhi i1 j1 k1) as [[i2 j2] k2].
  pose proof (@extend_left_inside true alo ahi blo bhi i2 j2 k2 H2) as H3.
  destruct (extend_left eqb a b true alo blo i2 j2 k2) as [[i3 j3] k3].
  apply extend_right_inside. exact H3.
Qed.

(** *** The loop of [get_matching_blocks] ends, and its blocks fit *)

Lemma weight_cons alo ahi blo bhi q :
  weight ((alo, ahi, blo, bhi) :: q) = 2 * (ahi - alo) + 1 + weight q.
Proof. reflexivity. Qed.

Lemma span_a_cons alo ahi blo bhi q :
  span_a ((alo, ahi, blo, bhi) :: q) = ahi - alo + span_a q.
Proof. reflexivity. Qed.

Lemma span_b_cons alo ahi blo bhi q :
  span_b ((alo, ahi, blo, bhi) :: q) = bhi - blo + span_b q.
Proof. reflexivity. Qed.

Lemma size_sum_app l x : size_sum (l ++ [x]) = size_sum l + snd x.
Proof.
  unfold size_sum. induction l as [|y l IH]; cbn; [lia|].
  rewrite IH. lia.
Qed.

Lemma blocks_loop_total fuel : forall queue acc,
  Forall window_ok queue -> weight queue <= fuel ->
  exists bl,
    blocks_loop eqb a b b2j fuel queue acc = Some bl
    /\ size_sum bl <= size_sum acc + span_a queue
    /\ size_sum bl <= size_sum acc + span_b queue.
Proof.
  induction fuel as [|fuel IH]; intros queue acc Hq Hw.
  - destruct queue as [|[[[alo ahi] blo] bhi] q].
    + exists acc. cbn. repeat split; lia.
    + rewrite weight_cons in Hw. lia.
  - destruct queue as [|[[[alo ahi] blo] bhi] q].
    + exists acc. cbn. repeat split; lia.
    + cbn [blocks_loop]. inversion Hq as [|w q' Hw0 Hq']; subst.
      pose proof (find_longest_match_inside Hw0) as Hin.
      destruct (find_longest_match eqb a b b2j alo ahi blo bhi)
        as [[i j] k].
      destruct Hin as (Hi1 & Hi2 & Hj1 & Hj2).
      rewrite weight_cons in Hw. rewrite span_a_cons, span_b_cons.
      destruct (k =? 0) eqn:Ek.
      * destruct (IH q acc Hq' ltac:(lia)) as (bl & Ebl & H1 & H2).
        exists bl. repeat split; [exact Ebl|lia|lia].
      * apply Nat.eqb_neq in Ek.
        set (q1 := if (alo <? i) && (blo <? j)
                   then (alo, i, blo, j) :: q else q).
        set (q2 := if (i + k <? ahi) && (j + k <? bhi)
                   then (i + k, ahi, j + k, bhi) :: q1 else q1).
        assert (Hq1 : Forall window_ok q1
                      /\ weight q1 <= weight q + 2 * (i - alo) + 1
                      /\ span_a q1 <= span_a q + (i - alo)
                      /\ span_b q1 <= span_b q + (j - blo)).
        { subst q1. destruct ((alo <? i) && (blo <? j)).
          - rewrite weight_cons, span_a_cons, span_b_cons.
            repeat split; try lia.
            constructor; [split; lia|exact Hq'].
          - repeat split; [exact Hq'|lia|lia|lia]. }
        destruct Hq1 as (Hq1 & Hw1 & Ha1 & Hb1).
        assert (Hq2 : Forall window_ok q2
                      /\ weight q2 + 1 <= weight q + 2 * (ahi - alo) + 1
                      /\ span_a q2 + k <= span_a q + (ahi - alo)
                      /\ span_b q2 + k <= span_b q + (bhi - blo)).
        { subst q2. destruct ((i + k <? ahi) && (j + k <? bhi)) eqn:Ec.
          - apply andb_prop in Ec. destruct Ec as [E1 E2].
            apply Nat.ltb_lt in E1. apply Nat.ltb_lt in E2.
            rewrite weight_cons, span_a_cons, span_b_cons.
            repeat split; try lia.
            constructor; [split; lia|exact Hq1].
          - repeat split; [exact Hq1|lia|lia|lia]. }
        destruct Hq2 as (Hq2 & Hw2 & Ha2 & Hb2).
        destruct (IH q2 (acc ++ [(i, j, k)]) Hq2 ltac:(lia))
          as (bl & Ebl & H1 & H2).
        exists bl. split; [exact Ebl|].
        rewrite size_sum_app in H1, H2. cbn [snd] in H1, H2.
        split; lia.
Qed.

End Matcher.
Lemma insert_block_sum x l : size_sum (insert_block x l) = snd x + size_sum l.
Proof.
  induction l as [|y l IH]; cbn [insert_block]; [reflexivity|].
  destruct (block_lt x y); [reflexivity|].
  unfold size_sum in *. cbn [fold_right]. rewrite IH. lia.
Qed.

Lemma sort_blocks_sum l : size_sum (sort_blocks l) = size_sum l.
Proof.
  induction l as [|x l IH]; [reflexivity|].
  unfold sort_blocks in *. cbn [fold_right]. rewrite insert_block_sum, IH.
  reflexivity.
Qed.

Lemma size_sum_cons x l : size_sum (x :: l) = snd x + size_sum l.
Proof. reflexivity. Qed.

Lemma size_sum_app2 l1 l2 : size_sum (l1 ++ l2) = size_sum l1 + size_sum l2.
Proof.
  induction l1 as [|x l1 IH]; [reflexivity|].
  cbn [app]. rewrite !size_sum_cons, IH. lia.
Qed.

Lemma collapse_sum l : forall cur,
  size_sum (collapse cur l) = snd cur + size_sum l.
Proof.
  induction l as [|[[i2 j2] k2] l IH]; intros [[i1 j1] k1]; cbn [collapse snd].
  - destruct (k1 =? 0) eqn:Ek; [apply Nat.eqb_eq in Ek; subst|]; cbn; lia.
  - destruct ((i1 + k1 =? i2) && (j1 + k1 =? j2)).
    + rewrite IH. rewrite size_sum_cons. cbn [snd]. lia.
    + rewrite size_sum_app2, IH, size_sum_cons. cbn [snd].
      destruct (k1 =? 0) eqn:Ek; [apply Nat.eqb_eq in Ek; subst|]; cbn; lia.
Qed.

Section Ratio.

Variable E : Type.
Variable eqb : E -> E -> bool.
Variables a b : list E.

(** The loop of [get_matching_blocks] ends within its fuel. *)
Lemma raw_blocks_total :
  exists bl, raw_blocks eqb a b = Some bl
             /\ size_sum bl <= length a /\ size_sum bl <= length b.
Proof.
  unfold raw_blocks.
  destruct (@blocks_loop_total E eqb a b (chain_b eqb b) (2 * length a + 1)
              [(0, length a, 0, length b)] [])
    as (bl & Ebl & H1 & H2).
  - constructor; [split; lia|constructor].
  - rewrite weight_cons. cbn [weight fold_right]. lia.
  - exists bl. rewrite span_a_cons in H1. rewrite span_b_cons in H2.
    cbn in H1, H2. split; [exact Ebl|]. split; lia.
Qed.

Lemma matches_eq : matches eqb a b = size_sum (get_matching_blocks eqb a b).
Proof. reflexivity. Qed.

Lemma matches_le :
  matches eqb a b <= length a /\ matches eqb a b <= length b.
Proof.
  rewrite matches_eq. unfold get_matching_blocks.
  destruct raw_blocks_total as (bl & -> & H1 & H2).
  rewrite size_sum_app2, collapse_sum, sort_blocks_sum. cbn. lia.
Qed.

Lemma pos_of_nat_Z n : n <> 0 -> Zpos (Pos.of_nat n) = Z.of_nat n.
Proof.
  destruct n as [|n]; [congruence|]. intros _.
  rewrite <- Pos.of_nat_succ, Zpos_P_of_succ_nat. lia.
Qed.

Lemma ratio_range : (0 <= ratio eqb a b <= 1)%Q.
Proof.
  unfold ratio, calculate_ratio. destruct matches_le as [H1 H2].
  destruct (length a + length b) as [|n] eqn:En.
  - split; discriminate.
  - unfold Qle. cbn [Qnum Qden]. rewrite pos_of_nat_Z by discriminate.
    split; lia.
Qed.

Lemma ratio_both_empty : a = [] -> b = [] -> ratio eqb a b = 1%Q.
Proof. intros -> ->. reflexivity. Qed.

Lemma ratio_one_empty :
  (a = [] /\ b <> []) \/ (a <> [] /\ b = []) -> (ratio eqb a b == 0)%Q.
Proof.
  intros H. unfold ratio, calculate_ratio. destruct matches_le as [H1 H2].
  assert (Hm : matches eqb a b = 0).
  { destruct H as [[-> _]|[_ ->]]; cbn in *; lia. }
  assert (Hl : length a + length b <> 0).
  { destruct H as [[_ Hb]|[Ha _]]; [destruct b|destruct a]; cbn;
      try congruence; lia. }
  rewrite Hm. destruct (length a + length b); [congruence|].
  reflexivity.
Qed.

End Ratio.

End MatcherFacts.

(** ** The comparison of two versions *)

Module Comparison.
Import PyIntFacts IntStr SemVerFacts OpFacts Run Monotone Activation Persistence.
Import MatcherFacts.

(** *** The text of a file *)

Lemma concat_readlines t : concat (Text.readlines t) = t.
Proof.
  induction t as [|c t IH]; [reflexivity|]. cbn [Text.readlines].
  destruct (N.eqb c 10).
  - cbn [concat app]. rewrite IH. reflexivity.
  - destruct (Text.readlines t) as [|l ls]; cbn [concat app] in *.
    + rewrite <- IH. reflexivity.
    + rewrite <- IH. reflexivity.
Qed.

Lemma universal_newlines_nonempty t :
  t <> [] -> Text.universal_newlines t <> [].
Proof.
  destruct t as [|c t]; [congruence|]. intros _. cbn [Text.universal_newlines].
  destruct (N.eqb c 13); discriminate.
Qed.

Lemma option_map_cons_nonempty (x : N) o t :
  option_map (cons x) o = Some t -> t <> [].
Proof.
  destruct o; cbn [option_map]; intros H; [|discriminate].
  injection H as <-. discriminate.
Qed.

Lemma utf8_decode_nonempty bs t :
  bs <> [] -> Text.utf8_decode bs = Some t -> t <> [].
Proof.
  destruct bs as [|b0 r0]; [congruence|]. intros _. cbn [Text.utf8_decode].
  destruct (N.ltb b0 128); [apply option_map_cons_nonempty|].
  destruct (Text.between 194 223 b0).
  { destruct r0 as [|b1 r1]; [discriminate|].
    destruct (Text.cont b1); [apply option_map_cons_nonempty|discriminate]. }
  destruct (Text.between 224 239 b0).
  { destruct r0 as [|b1 [|b2 r2]]; try discriminate.
    destruct (_ && _); [apply option_map_cons_nonempty|discriminate]. }
  destruct (Text.between 240 244 b0); [|discriminate].
  destruct r0 as [|b1 [|b2 [|b3 r3]]]; try discriminate.
  destruct (_ && _); [apply option_map_cons_nonempty|discriminate].
Qed.

Lemma read_text_lines_empty : Text.read_text_lines [] = Some [].
Proof. reflexivity. Qed.

Lemma read_text_lines_nonempty c l :
  c <> [] -> Text.read_text_lines c = Some l -> concat l <> [].
Proof.
  unfold Text.read_text_lines. intros Hc H.
  destruct (Text.utf8_decode (map Byte.to_N c)) as [t|] eqn:Et;
    [|discriminate].
  injection H as <-. rewrite concat_readlines.
  apply universal_newlines_nonempty.
  eapply utf8_decode_nonempty; [|exact Et].
  destruct c; [congruence|discriminate].
Qed.

(** *** [compare_versions], step by step *)

Lemma read_lines_eq p s :
  read_lines p s =
  match files (world s) p with
  | None => (Raise FileNotFoundError, s)
  | Some c =>
      match Text.read_text_lines c with
      | Some l => (Ok l, s)
      | None => (Raise UnicodeDecodeError, s)
      end
  end.
Proof.
  cbv beta iota zeta delta [read_lines read_bytes bind get of_option ret raise].
  destruct (files (world s) p) as [c|]; [|reflexivity].
  destruct (Text.read_text_lines c); reflexivity.
Qed.

Lemma exists_live p s : exists_ p s = (Ok (live (world s) p), s).
Proof. reflexivity. Qed.

Lemma bind_ok_inv A B (m : M A) (f : A -> M B) s b s' :
  bind m f s = (Ok b, s') ->
  exists a s1, m s = (Ok a, s1) /\ f a s1 = (Ok b, s').
Proof.
  unfold bind. destruct (m s) as [[a|e] s1]; [|discriminate].
  intros H. exists a, s1. split; [reflexivity|exact H].
Qed.

(** The end of [compare_versions]: both files are read and compared. *)
Lemma compare_reads id1 id2 p1 p2 s :
  (content1 <- read_lines p1 ;;
   content2 <- read_lines p2 ;;
   ret (compare_contents id1 id2 content1 content2)) s =
  match files (world s) p1 with
  | None => (Raise FileNotFoundError, s)
  | Some _ =>
      match text_at (world s) p1 with
      | None => (Raise UnicodeDecodeError, s)
      | Some content1 =>
          match files (world s) p2 with
          | None => (Raise FileNotFoundError, s)
          | Some _ =>
              match text_at (world s) p2 with
              | None => (Raise UnicodeDecodeError, s)
              | Some content2 =>
                  (Ok (compare_contents id1 id2 content1 content2), s)
              end
          end
      end
  end.
Proof.
  unfold text_at. unfold bind at 1. rewrite read_lines_eq.
  destruct (files (world s) p1) as [c1|]; [|reflexivity].
  destruct (Text.read_text_lines c1) as [l1|]; [|reflexivity].
  unfold bind at 1. rewrite read_lines_eq.
  destruct (files (world s) p2) as [c2|]; [|reflexivity].
  destruct (Text.read_text_lines c2) as [l2|]; reflexivity.
Qed.

(** When [compare_versions] returns, its result is the comparison of the
    texts of the two live files, as they are in the state it leaves. *)
Lemma compare_ok_inv id1 id2 s r s' :
  compare_versions id1 id2 s = (Ok r, s') ->
  exists v1 v2 content1 content2,
    _find_version (mem s) id1 = Some v1
    /\ _find_version (mem s) id2 = Some v2
    /\ text_at (world s') (file v1) = Some content1
    /\ text_at (world s') (file v2) = Some content2
    /\ r = compare_contents id1 id2 content1 content2.
Proof.
  unfold compare_versions. erewrite bind_ok by apply get_eq.
  destruct (_find_version (mem s) id1) as [v1|]; [|discriminate].
  destruct (_find_version (mem s) id2) as [v2|]; [|discriminate].
  cbv zeta.
  erewrite bind_ok by apply exists_live.
  erewrite bind_ok by apply exists_live.
  intros H. apply bind_ok_inv in H. destruct H as ([] & s1 & _ & H).
  rewrite compare_reads in H.
  destruct (files (world s1) (file v1)); [|discriminate].
  destruct (text_at (world s1) (file v1)) as [l1|] eqn:E1; [|discriminate].
  destruct (files (world s1) (file v2)); [|discriminate].
  destruct (text_at (world s1) (file v2)) as [l2|] eqn:E2; [|discriminate].
  injection H as <- <-. exists v1, v2, l1, l2. repeat split; assumption.
Qed.

(** When both files are there, nothing is restored. *)
Lemma compare_live id1 id2 s v1 v2 content1 content2 :
  _find_version (mem s) id1 = Some v1 ->
  _find_version (mem s) id2 = Some v2 ->
  text_at (world s) (file v1) = Some content1 ->
  text_at (world s) (file v2) = Some content2 ->
  compare_versions id1 id2 s
  = (Ok (compare_contents id1 id2 content1 content2), s).
Proof.
  intros F1 F2 T1 T2.
  unfold compare_versions. erewrite bind_ok by apply get_eq.
  rewrite F1, F2. cbv zeta.
  erewrite bind_ok by apply exists_live.
  erewrite bind_ok by apply exists_live.
  assert (L1 : files (world s) (file v1) <> None).
  { unfold text_at in T1. destruct (files (world s) (file v1));
      [discriminate|discriminate]. }
  assert (L2 : files (world s) (file v2) <> None).
  { unfold text_at in T2. destruct (files (world s) (file v2));
      [discriminate|discriminate]. }
  unfold live.
  destruct (files (world s) (file v1)) as [c1|] eqn:E1; [|congruence].
  destruct (files (world s) (file v2)) as [c2|] eqn:E2; [|congruence].
  cbn [negb orb]. erewrite bind_ok by reflexivity.
  rewrite compare_reads, E1, E2, T1, T2. reflexivity.
Qed.


Lemma text_at_inv w p l :
  text_at w p = Some l ->
  exists c, files w p = Some c /\ Text.read_text_lines c = Some l.
Proof.
  unfold text_at. destruct (files w p) as [c|]; [|discriminate].
  intros H. exists c. split; [reflexivity|exact H].
Qed.

Lemma similarity_eq id1 id2 l1 l2 :
  similarity (compare_contents id1 id2 l1 l2)
  = (Difflib.ratio N.eqb (concat l1) (concat l2) * 100)%Q.
Proof. reflexivity. Qed.

(** C7 (amended): the similarity [compare_versions] returns is a
    percentage: it lies between 0 and 100; it is 100 when both files are
    empty, and 0 when exactly one of them is. *)
Theorem similarity_range id1 id2 s r s' :
  compare_versions id1 id2 s = (Ok r, s') ->
  (0 <= similarity r)%Q /\ (similarity r <= 100)%Q
  /\ exists v1 v2 c1 c2,
       _find_version (mem s) id1 = Some v1
       /\ _find_version (mem s) id2 = Some v2
       /\ files (world s') (file v1) = Some c1
       /\ files (world s') (file v2) = Some c2
       /\ (c1 = [] -> c2 = [] -> (similarity r == 100)%Q)
       /\ (c1 = [] -> c2 <> [] -> (similarity r == 0)%Q)
       /\ (c1 <> [] -> c2 = [] -> (similarity r == 0)%Q).
Proof.
  intros H.
  destruct (compare_ok_inv _ _ _ H) as (v1 & v2 & l1 & l2 & F1 & F2 & T1 & T2 & ->).
  rewrite similarity_eq.
  destruct (ratio_range N.eqb (concat l1) (concat l2)) as [R0 R1].
  split; [|split].
  - change 0%Q with (0 * 100)%Q. apply Qmult_le_compat_r; [exact R0|discriminate].
  - change 100%Q with (1 * 100)%Q. apply Qmult_le_compat_r; [exact R1|discriminate].
  - destruct (text_at_inv _ _ T1) as (c1 & Hc1 & L1).
    destruct (text_at_inv _ _ T2) as (c2 & Hc2 & L2).
    exists v1, v2, c1, c2. repeat split; try assumption.
    + intros -> ->. rewrite read_text_lines_empty in L1, L2.
      injection L1 as <-. injection L2 as <-. reflexivity.
    + intros -> Hne. rewrite read_text_lines_empty in L1. injection L1 as <-.
      rewrite (@ratio_one_empty _ N.eqb [] (concat l2)); [reflexivity|].
      left. split; [reflexivity|].
      eapply read_text_lines_nonempty; eassumption.
    + intros Hne ->. rewrite read_text_lines_empty in L2. injection L2 as <-.
      rewrite (@ratio_one_empty _ N.eqb (concat l1) []); [reflexivity|].
      right. split; [|reflexivity].
      eapply read_text_lines_nonempty; eassumption.
Qed.

(** The similarity of the two versions of the demonstration ledger. *)
Lemma similarity_range_witness :
  (similarity
     (compare_contents (u "v1.0.0") (u "v1.1.0") [u "tide"] [u "tide"])
   <= 100)%Q.
Proof.
  exact (proj1 (proj2 (@similarity_range (u "v1.0.0") (u "v1.1.0") Demo.two
                         _ Demo.two eq_refl))).
Defined.

(** C7 as stated fails: the similarity of two empty files is 100, which is
    neither 1 nor in the interval from 0 to 1. *)
Lemma similarity_of_empty_files :
  exists r s',
    compare_versions (u "v1.0.0") (u "v1.1.0") Demo.empties = (Ok r, s')
    /\ similarity r = 100%Q
    /\ ~ (similarity r <= 1)%Q.
Proof.
  eexists. eexists. split; [vm_compute; reflexivity|].
  split; [reflexivity|]. vm_compute. intros H. apply H. reflexivity.
Qed.


End Comparison.

(** ** A text compared with itself *)

Module SelfMatch.
Import Difflib MatcherFacts.

Section Dictionary.

Variable E : Type.
Variable eqb : E -> E -> bool.
Hypothesis eqb_spec : forall x y, eqb x y = true <-> x = y.

Lemma eqb_same x : eqb x x = true.
Proof. apply eqb_spec. reflexivity. Qed.

Lemma eqb_comm x y : eqb x y = eqb y x.
Proof.
  destruct (eqb x y) eqn:E1, (eqb y x) eqn:E2; try reflexivity.
  - apply eqb_spec in E1. subst. rewrite eqb_same in E2. discriminate.
  - apply eqb_spec in E2. subst. rewrite eqb_same in E1. discriminate.
Qed.

Local Abbreviation lookup d x := (b2j_get eqb d (Some x)) (only parsing).

Lemma lookup_setdefault elt i d x :
  lookup (setdefault_append eqb elt i d) x
  = lookup d x ++ (if eqb elt x then [i] else []).
Proof.
  induction d as [|[y idxs] d IH]; cbn [setdefault_append].
  - cbn. destruct (eqb elt x); reflexivity.
  - destruct (eqb y elt) eqn:Ey.
    + apply eqb_spec in Ey. subst y. cbn. destruct (eqb elt x); cbn.
      * reflexivity.
      * rewrite app_nil_r. reflexivity.
    + cbn in *. destruct (eqb y x) eqn:Ex.
      * apply eqb_spec in Ex. subst y. rewrite eqb_comm, Ey. cbn.
        rewrite app_nil_r. reflexivity.
      * exact IH.
Qed.

Lemma build_lookup b : forall i d x,
  lookup (build_b2j eqb i b d) x = lookup d x ++ positions eqb x i b.
Proof.
  induction b as [|elt b IH]; intros i d x; cbn [build_b2j positions].
  - rewrite app_nil_r. reflexivity.
  - rewrite IH, lookup_setdefault. destruct (eqb elt x); cbn.
    + rewrite <- app_assoc. reflexivity.
    + rewrite app_nil_r. reflexivity.
Qed.

Lemma setdefault_keys elt i d :
  NoDup (map fst d) -> NoDup (map fst (setdefault_append eqb elt i d))
  /\ (forall y, In y (map fst (setdefault_append eqb elt i d)) ->
        y = elt \/ In y (map fst d)).
Proof.
  induction d as [|[y idxs] d IH]; intros Hd; cbn [setdefault_append].
  - cbn. split.
    + apply NoDup_cons; [intros []|apply NoDup_nil].
    + intros y [<-|[]]. left. reflexivity.
  - destruct (eqb y elt) eqn:Ey.
    + cbn. split; [exact Hd|]. tauto.
    + inversion Hd as [|? ? Hy Hd']; subst. destruct (IH Hd') as [H1 H2].
      cbn. split.
      * constructor; [|exact H1]. intros Hin. apply H2 in Hin.
        destruct Hin as [->|Hin]; [|contradiction].
        rewrite eqb_same in Ey. discriminate.
      * intros z [<-|Hz]; [right; left; reflexivity|].
        apply H2 in Hz. tauto.
Qed.

Lemma build_keys b : forall i d,
  NoDup (map fst d) -> NoDup (map fst (build_b2j eqb i b d)).
Proof.
  induction b as [|elt b IH]; intros i d Hd; cbn [build_b2j]; [exact Hd|].
  apply IH. apply setdefault_keys. exact Hd.
Qed.

Lemma find_absent (keep : E * list nat -> bool) d x :
  ~ In x (map fst d) -> lookup (filter keep d) x = [].
Proof.
  induction d as [|[y idxs] d IH]; intros Hn; [reflexivity|].
  cbn [filter]. assert (Hy : eqb y x = false).
  { destruct (eqb y x) eqn:Ey; [|reflexivity]. apply eqb_spec in Ey.
    exfalso. apply Hn. left. exact Ey. }
  assert (IH' : lookup (filter keep d) x = [])
    by (apply IH; intros H; apply Hn; right; exact H).
  destruct (keep (y, idxs)); [|exact IH'].
  cbn in *. rewrite Hy. exact IH'.
Qed.

Lemma lookup_filter (keep : E * list nat -> bool) d x :
  NoDup (map fst d) ->
  lookup (filter keep d) x = [] \/ lookup (filter keep d) x = lookup d x.
Proof.
  induction d as [|[y idxs] d IH]; intros Hd; [left; reflexivity|].
  inversion Hd as [|? ? Hy Hd']; subst. cbn [filter].
  destruct (eqb y x) eqn:Ey.
  - apply eqb_spec in Ey. subst y. destruct (keep (x, idxs)).
    + right. cbn. rewrite eqb_same. reflexivity.
    + left. apply find_absent. exact Hy.
  - destruct (keep (y, idxs)).
    + cbn in *. rewrite Ey. apply IH. exact Hd'.
    + destruct (IH Hd') as [H|H]; [left; exact H|].
      right. rewrite H. cbn. rewrite Ey. reflexivity.
Qed.

(** What [b2j] holds for an element: nothing, when it was purged as
    popular, or all its places in [b]. *)
Lemma chain_b_lookup b x :
  lookup (chain_b eqb b) x = [] \/ lookup (chain_b eqb b) x = positions eqb x 0 b.
Proof.
  assert (Hb : lookup (build_b2j eqb 0 b []) x = positions eqb x 0 b)
    by (rewrite build_lookup; reflexivity).
  unfold chain_b. destruct (200 <=? length b).
  - destruct (@lookup_filter
                (fun p => negb (length b / 100 + 1 <? length (snd p)))
                (build_b2j eqb 0 b []) x) as [H|H].
    + apply build_keys. constructor.
    + left. exact H.
    + right. rewrite H. exact Hb.
  - right. exact Hb.
Qed.

Lemma positions_In x l : forall i j,
  In j (positions eqb x i l) <-> i <= j /\ nth_error l (j - i) = Some x.
Proof.
  induction l as [|y l IH]; intros i j; cbn [positions].
  - split; [intros []|]. intros [_ H]. destruct (j - i); discriminate.
  - destruct (eqb y x) eqn:Ey.
    + apply eqb_spec in Ey. subst y. cbn [In]. rewrite IH. split.
      * intros [<-|[H1 H2]].
        -- split; [lia|]. rewrite Nat.sub_diag. reflexivity.
        -- split; [lia|]. replace (j - i) with (S (j - S i)) by lia. exact H2.
      * intros [H1 H2]. destruct (Nat.eq_dec i j) as [->|Hne]; [left; reflexivity|].
        right. split; [lia|]. replace (j - i) with (S (j - S i)) in H2 by lia.
        exact H2.
    + rewrite IH. split.
      * intros [H1 H2]. split; [lia|].
        replace (j - i) with (S (j - S i)) by lia. exact H2.
      * intros [H1 H2]. destruct (Nat.eq_dec i j) as [->|Hne].
        -- rewrite Nat.sub_diag in H2. cbn in H2. injection H2 as ->.
           rewrite eqb_same in Ey. discriminate.
        -- split; [lia|]. replace (j - i) with (S (j - S i)) in H2 by lia.
           exact H2.
Qed.

Lemma positions_sorted x l : forall i,
  StronglySorted lt (positions eqb x i l).
Proof.
  induction l as [|y l IH]; intros i; cbn [positions]; [constructor|].
  destruct (eqb y x); [|apply IH].
  constructor; [apply IH|]. apply Forall_forall. intros j Hj.
  apply positions_In in Hj. lia.
Qed.

End Dictionary.


(** *** A sequence matched against itself *)

Section Self.

Variable E : Type.
Variable eqb : E -> E -> bool.
Hypothesis eqb_spec : forall x y, eqb x y = true <-> x = y.
Variable s : list E.

Let n := length s.
Let b2j := chain_b eqb s.
Let js (i : nat) : list nat := b2j_get eqb b2j (nth_error s i).
Let T := j2len_at eqb s b2j.

Lemma js_cases i x :
  nth_error s i = Some x -> js i = [] \/ js i = positions eqb x 0 s.
Proof.
  intros H. unfold js. rewrite H. apply (@chain_b_lookup _ eqb eqb_spec).
Qed.

Lemma js_In i j :
  In j (js i) -> j < n /\ nth_error s j = nth_error s i /\ In i (js i).
Proof.
  intros Hj. destruct (nth_error s i) as [x|] eqn:Ei.
  - destruct (js_cases _ Ei) as [H|H]; rewrite H in Hj; [destruct Hj|].
    pose proof Hj as Hj'. apply (@positions_In _ eqb eqb_spec) in Hj'.
    destruct Hj' as [_ Hj']. rewrite Nat.sub_0_r in Hj'.
    split; [apply nth_error_Some; congruence|]. split; [exact Hj'|].
    rewrite H. apply (@positions_In _ eqb eqb_spec). split; [lia|].
    rewrite Nat.sub_0_r. exact Ei.
  - unfold js in Hj. rewrite Ei in Hj. destruct Hj.
Qed.

Lemma js_same i j : In j (js i) -> js j = js i.
Proof.
  intros H. apply js_In in H. destruct H as (_ & H & _).
  unfold js. rewrite H. reflexivity.
Qed.

Lemma js_sorted i : StronglySorted lt (js i).
Proof.
  destruct (nth_error s i) as [x|] eqn:Ei.
  - destruct (js_cases _ Ei) as [H|H]; rewrite H; [constructor|].
    apply (@positions_sorted _ eqb eqb_spec).
  - unfold js. rewrite Ei. constructor.
Qed.

Lemma row_fst_indep blo bhi i l j2len : forall new best best',
  fst (row blo bhi i l j2len new best) = fst (row blo bhi i l j2len new best').
Proof.
  induction l as [|j l IH]; intros new best best'; cbn [row]; [reflexivity|].
  destruct (j <? blo); [apply IH|].
  destruct (bhi <=? j); [reflexivity|].
  destruct best as [[bi bj] bs], best' as [[bi' bj'] bs']. apply IH.
Qed.

Lemma row_table i l j2len : forall new best x,
  (forall j, In j l -> j < n) ->
  fst (row 0 n i l j2len new best) x
  = if existsb (Nat.eqb x) l then cell j2len x else new x.
Proof.
  induction l as [|j l IH]; intros new best x Hl; cbn [row existsb];
    [reflexivity|].
  assert (Hj : j < n) by (apply Hl; left; reflexivity).
  replace (j <? 0) with false by (symmetry; apply Nat.ltb_ge; lia).
  replace (n <=? j) with false by (symmetry; apply Nat.leb_gt; exact Hj).
  destruct best as [[bi bj] bs].
  rewrite IH by (intros j' Hj'; apply Hl; right; exact Hj').
  unfold upd. destruct (x =? j) eqn:Ex; cbn [orb].
  - apply Nat.eqb_eq in Ex. subst x.
    destruct (existsb (Nat.eqb j) l); reflexivity.
  - reflexivity.
Qed.

Lemma T_succ i x :
  T (S i) x = if existsb (Nat.eqb x) (js i) then cell (T i) x else 0.
Proof.
  unfold T. cbn [j2len_at]. fold n. fold b2j. fold (js i).
  apply row_table. intros j Hj. apply js_In in Hj. apply Hj.
Qed.

Lemma existsb_nat_In x l : existsb (Nat.eqb x) l = true <-> In x l.
Proof.
  rewrite existsb_exists. split.
  - intros (y & Hy & Ey). apply Nat.eqb_eq in Ey. subst. exact Hy.
  - intros H. exists x. split; [exact H|apply Nat.eqb_refl].
Qed.

(** A run of matches ending off the diagonal is no longer than the run
    ending on the diagonal, at the smaller of its two indices. *)
Lemma cell_le : forall i j,
  cell (T i) j <= cell (T (Nat.min i j)) (Nat.min i j).
Proof.
  induction i as [|i IH]; intros j.
  - cbn [Nat.min]. unfold cell. destruct j; cbn; lia.
  - destruct j as [|j]; [cbn [Nat.min]; unfold cell; lia|].
    cbn [Nat.min]. unfold cell at 1 2. rewrite !T_succ.
    destruct (existsb (Nat.eqb j) (js i)) eqn:Ej; [|lia].
    apply existsb_nat_In in Ej.
    assert (Hm : In (Nat.min i j) (js (Nat.min i j))).
    { destruct (Nat.min_spec i j) as [[_ ->]|[_ ->]].
      - apply js_In in Ej. apply Ej.
      - rewrite (js_same _ _ Ej). exact Ej. }
    apply existsb_nat_In in Hm. rewrite Hm.
    specialize (IH j). lia.
Qed.

Lemma row_diag i l : forall new d bs,
  StronglySorted lt l ->
  (forall j, In j l -> j < n) ->
  (forall j, In j l -> j < i -> cell (T i) j <= bs) ->
  (forall j, In j l -> i < j -> cell (T i) j <= cell (T i) i) ->
  (forall j, In j l -> i < j -> In i l \/ cell (T i) i <= bs) ->
  exists d' bs',
    snd (row 0 n i l (T i) new (d, d, bs)) = (d', d', bs')
    /\ bs <= bs' /\ (In i l -> cell (T i) i <= bs').
Proof.
  induction l as [|j l IH]; intros new d bs Hs Hn Hlow Hhigh Hmid.
  - exists d, bs. cbn. repeat split; [lia|intros []].
  - cbn [row]. assert (Hj : j < n) by (apply Hn; left; reflexivity).
    replace (j <? 0) with false by (symmetry; apply Nat.ltb_ge; lia).
    replace (n <=? j) with false by (symmetry; apply Nat.leb_gt; exact Hj).
    change (match j with 0 => 0 | S j' => T i j' end + 1) with (cell (T i) j).
    inversion Hs as [|? ? Hs' Hall]; subst.
    rewrite Forall_forall in Hall.
    assert (Hn' : forall j', In j' l -> j' < n)
      by (intros j' H'; apply Hn; right; exact H').
    destruct (Nat.lt_trichotomy j i) as [Hlt|[Heq|Hgt]].
    + assert (Hk : cell (T i) j <= bs) by (apply Hlow; [left; reflexivity|exact Hlt]).
      replace (bs <? cell (T i) j) with false
        by (symmetry; apply Nat.ltb_ge; exact Hk).
      destruct (IH (upd j (cell (T i) j) new) d bs Hs' Hn') as (d' & bs' & Erow & H1 & H2).
      * intros j' H' Hl'. apply Hlow; [right; exact H'|exact Hl'].
      * intros j' H' Hl'. apply Hhigh; [right; exact H'|exact Hl'].
      * intros j' H' Hl'. destruct (Hmid j' (or_intror H') Hl') as [[->|Hin]|Hc].
        -- lia.
        -- left. exact Hin.
        -- right. exact Hc.
      * exists d', bs'. split; [exact Erow|]. split; [exact H1|].
        intros [->|Hin]; [lia|apply H2; exact Hin].
    + subst j.
      assert (Hstep : forall d1 bs1,
                bs <= bs1 -> cell (T i) i <= bs1 ->
                exists d' bs',
                  snd (row 0 n i l (T i) (upd i (cell (T i) i) new)
                         (d1, d1, bs1)) = (d', d', bs')
                  /\ bs <= bs' /\ (In i (i :: l) -> cell (T i) i <= bs')).
      { intros d1 bs1 Hb1 Hb2.
        destruct (IH (upd i (cell (T i) i) new) d1 bs1 Hs' Hn')
          as (d' & bs' & Erow & H1 & H2).
        - intros j' H' Hl'. specialize (Hall j' H'). lia.
        - intros j' H' Hl'. apply Hhigh; [right; exact H'|exact Hl'].
        - intros j' H' Hl'. right. exact Hb2.
        - exists d', bs'. split; [exact Erow|]. split; [lia|]. intros _. lia. }
      destruct (bs <? cell (T i) i) eqn:Ec.
      * apply Nat.ltb_lt in Ec. apply Hstep; lia.
      * apply Nat.ltb_ge in Ec. apply Hstep; lia.
    + assert (Hc : cell (T i) i <= bs).
      { destruct (Hmid j (or_introl eq_refl) Hgt) as [[->|Hin]|Hc];
          [lia| |exact Hc].
        specialize (Hall i Hin). lia. }
      assert (Hk : cell (T i) j <= bs).
      { specialize (Hhigh j (or_introl eq_refl) Hgt). lia. }
      replace (bs <? cell (T i) j) with false
        by (symmetry; apply Nat.ltb_ge; exact Hk).
      destruct (IH (upd j (cell (T i) j) new) d bs Hs' Hn') as (d' & bs' & Erow & H1 & H2).
      * intros j' H' Hl'. apply Hlow; [right; exact H'|exact Hl'].
      * intros j' H' Hl'. apply Hhigh; [right; exact H'|exact Hl'].
      * intros j' H' Hl'. right. exact Hc.
      * exists d', bs'. split; [exact Erow|]. split; [exact H1|].
        intros _. lia.
Qed.

Lemma rows_diag m : forall i d bs,
  (forall x, x < i -> In x (js x) -> cell (T x) x <= bs) ->
  exists d' bs',
    rows eqb s b2j 0 n (seq i m) (T i) (d, d, bs) = (d', d', bs').
Proof.
  induction m as [|m IH]; intros i d bs Hinv; cbn [seq rows].
  - exists d, bs. reflexivity.
  - fold (js i).
    destruct (@row_diag i (js i) (fun _ => 0) d bs) as (d1 & bs1 & Erow & H1 & H2).
    + apply js_sorted.
    + intros j Hj. apply js_In in Hj. apply Hj.
    + intros j Hj Hlt. pose proof (cell_le i j) as Hc.
      rewrite Nat.min_r in Hc by lia.
      assert (Hjj : In j (js j)) by (rewrite (js_same _ _ Hj); exact Hj).
      specialize (Hinv j Hlt Hjj). lia.
    + intros j Hj Hlt. pose proof (cell_le i j) as Hc.
      rewrite Nat.min_l in Hc by lia. exact Hc.
    + intros j Hj _. left. apply js_In in Hj. apply Hj.
    + destruct (row 0 n i (js i) (T i) (fun _ => 0) (d, d, bs))
        as [new best] eqn:Er.
      cbn [snd] in Erow. subst best.
      assert (Hnew : new = T (S i)).
      { unfold T. cbn [j2len_at]. fold n. fold b2j. fold (js i). fold T.
        rewrite (row_fst_indep 0 n i (js i) (T i) (fun _ => 0) (0, 0, 0)
                   (d, d, bs)).
        rewrite Er. reflexivity. }
      rewrite Hnew. apply IH. intros x Hx Hin.
      destruct (Nat.eq_dec x i) as [->|Hne].
      * apply H2. exact Hin.
      * assert (Hxi : x < i) by lia. specialize (Hinv x Hxi Hin). lia.
Qed.

Lemma extend_left_diag d : forall bs,
  d <= n -> extend_left eqb s s false 0 0 d d bs = (0, 0, bs + d).
Proof.
  induction d as [|d IH]; intros bs Hd; cbn [extend_left].
  - f_equal. lia.
  - destruct (nth_error s d) as [x|] eqn:Ex.
    + cbn [Nat.ltb Nat.leb andb isbjunk Bool.eqb elem_eq].
      rewrite (@eqb_same _ eqb eqb_spec). rewrite IH by lia. f_equal. lia.
    + apply nth_error_None in Ex. fold n in Ex. lia.
Qed.

Lemma extend_right_diag fuel : forall k,
  k <= n -> n - k <= fuel ->
  extend_right eqb s s fuel false n n 0 0 k = (0, 0, n).
Proof.
  induction fuel as [|fuel IH]; intros k Hk Hf; cbn [extend_right].
  - f_equal. lia.
  - cbn [Nat.add]. destruct (k <? n) eqn:Ek.
    + apply Nat.ltb_lt in Ek. destruct (nth_error s k) as [x|] eqn:Ex.
      * cbn [andb isbjunk Bool.eqb elem_eq]. rewrite (@eqb_same _ eqb eqb_spec).
        apply IH; lia.
      * apply nth_error_None in Ex. fold n in Ex. lia.
    + apply Nat.ltb_ge in Ek. cbn [andb]. f_equal. lia.
Qed.

Lemma extend_right_done fuel junk :
  extend_right eqb s s fuel junk n n 0 0 n = (0, 0, n).
Proof.
  destruct fuel as [|fuel]; cbn [extend_right]; [reflexivity|].
  cbn [Nat.add]. rewrite Nat.ltb_irrefl. reflexivity.
Qed.

(** The longest match of a sequence with itself is the whole sequence. *)
Lemma find_longest_match_self :
  find_longest_match eqb s s b2j 0 n 0 n = (0, 0, n).
Proof.
  unfold find_longest_match. rewrite Nat.sub_0_r.
  destruct (@rows_diag n 0 0 0) as (d & bs & Erow); [intros x Hx; lia|].
  pose proof (@rows_inside _ eqb s b2j 0 n 0 n n 0 (fun _ => 0) (0, 0, 0))
    as Hin.
  change (T 0) with (fun _ : nat => 0) in Erow. rewrite Erow in *.
  assert (Hd : d + bs <= n).
  { destruct Hin as (_ & H & _); try lia.
    - intros j. lia.
    - cbn. lia. }
  rewrite extend_left_diag by lia.
  rewrite extend_right_diag by lia.
  cbn [extend_left]. apply extend_right_done.
Qed.


Lemma blocks_loop_done fuel acc :
  blocks_loop eqb s s b2j fuel [] acc = Some acc.
Proof. destruct fuel; reflexivity. Qed.

Lemma raw_blocks_self :
  raw_blocks eqb s s = Some (if n =? 0 then [] else [(0, 0, n)]).
Proof.
  unfold raw_blocks. replace (2 * length s + 1) with (S (2 * length s)) by lia.
  cbn [blocks_loop]. fold n. fold b2j. rewrite find_longest_match_self.
  destruct (n =? 0); [apply blocks_loop_done|].
  cbn [Nat.add]. rewrite Nat.ltb_irrefl. cbn [andb app].
  apply blocks_loop_done.
Qed.

(** The matching blocks of a sequence with itself: the whole sequence and
    the closing dummy. *)
Lemma get_matching_blocks_self :
  get_matching_blocks eqb s s
  = if n =? 0 then [(0, 0, 0)] else [(0, 0, n); (n, n, 0)].
Proof.
  unfold get_matching_blocks. rewrite raw_blocks_self. fold n.
  destruct (n =? 0) eqn:En.
  - apply Nat.eqb_eq in En. rewrite En. reflexivity.
  - cbn. rewrite En. reflexivity.
Qed.

Lemma matches_self : matches eqb s s = n.
Proof.
  rewrite matches_eq, get_matching_blocks_self.
  destruct (n =? 0) eqn:En; [apply Nat.eqb_eq in En; rewrite En; reflexivity|].
  cbn. lia.
Qed.

Lemma ratio_self : (ratio eqb s s == 1)%Q.
Proof.
  unfold ratio, calculate_ratio. rewrite matches_self. fold n.
  destruct (n + n) as [|m] eqn:Em; [reflexivity|].
  unfold Qeq. cbn [Qnum Qden]. rewrite pos_of_nat_Z by discriminate. lia.
Qed.

Lemma get_opcodes_self :
  get_opcodes eqb s s = if n =? 0 then [] else [(equal, 0, n, 0, n)].
Proof.
  unfold get_opcodes. rewrite get_matching_blocks_self.
  destruct (n =? 0) eqn:En; [reflexivity|].
  cbn [opcodes_from]. cbn [Nat.add]. rewrite !Nat.ltb_irrefl, En.
  cbn [andb app Nat.eqb]. reflexivity.
Qed.

Lemma group_loop_single i1 i2 j1 j2 :
  i2 - i1 <= 6 -> group_loop 3 [(equal, i1, i2, j1, j2)] [] = [].
Proof.
  intros H. cbn [group_loop is_equal andb].
  replace (3 + 3 <? i2 - i1) with false
    by (symmetry; apply Nat.ltb_ge; exact H).
  reflexivity.
Qed.

Lemma get_grouped_opcodes_self : get_grouped_opcodes eqb s s 3 = [].
Proof.
  unfold get_grouped_opcodes. rewrite get_opcodes_self.
  destruct (n =? 0); cbn [fix_first fix_last]; apply group_loop_single; lia.
Qed.

End Self.

Lemma unified_diff_self l fromfile tofile :
  unified_diff l l fromfile tofile 3 = [].
Proof.
  unfold unified_diff.
  rewrite (@get_grouped_opcodes_self _ PyStr.eqb OpFacts.eqb_eq l).
  reflexivity.
Qed.

Lemma nat_eqb_spec : forall x y : N, N.eqb x y = true <-> x = y.
Proof. exact N.eqb_eq. Qed.

(** Two equal texts compare as equal: no diff line, similarity 100. *)
Lemma compare_contents_same id1 id2 content :
  diff (compare_contents id1 id2 content content) = []
  /\ additions (compare_contents id1 id2 content content) = 0
  /\ deletions (compare_contents id1 id2 content content) = 0
  /\ (similarity (compare_contents id1 id2 content content) == 100)%Q.
Proof.
  unfold compare_contents. cbn [diff additions deletions similarity].
  rewrite unified_diff_self. repeat split.
  rewrite (@ratio_self _ N.eqb nat_eqb_spec (concat content)). reflexivity.
Qed.




End SelfMatch.

(** ** The matching blocks in order *)

Module Ordered.
Import Difflib MatcherFacts.

(** *** Windows and blocks that stay apart *)

Lemma apart_sym w1 w2 : apart w1 w2 -> apart w2 w1.
Proof.
  destruct w1 as [[[a1 a2] a3] a4], w2 as [[[b1 b2] b3] b4]. cbn. tauto.
Qed.

Lemma apart_within w z sub : apart w z -> within w sub -> apart sub z.
Proof.
  destruct w as [[[a1 a2] a3] a4], z as [[[b1 b2] b3] b4],
    sub as [[[c1 c2] c3] c4]. cbn. lia.
Qed.

Lemma within_trans w1 w2 w3 : within w1 w2 -> within w2 w3 -> within w1 w3.
Proof.
  destruct w1 as [[[a1 a2] a3] a4], w2 as [[[b1 b2] b3] b4],
    w3 as [[[c1 c2] c3] c4]. cbn. lia.
Qed.

Lemma inside_within w x : inside w x -> within w (rect x).
Proof.
  destruct w as [[[a1 a2] a3] a4], x as [[i j] k]. cbn. lia.
Qed.

Lemma within_inside w sub x : within w sub -> inside sub x -> inside w x.
Proof.
  destruct w as [[[a1 a2] a3] a4], sub as [[[c1 c2] c3] c4],
    x as [[i j] k]. cbn. lia.
Qed.

Lemma pairwise_app_one A (R : A -> A -> Prop) l x :
  pairwise R l -> Forall (fun y => R y x) l -> pairwise R (l ++ [x]).
Proof.
  induction l as [|y l IH]; intros Hp Hf; cbn [app pairwise].
  - split; [constructor|exact I].
  - destruct Hp as [Hy Hp]. inversion Hf as [|? ? Hyx Hf']; subst.
    split; [|apply IH; assumption].
    apply Forall_app. split; [exact Hy|]. constructor; [exact Hyx|constructor].
Qed.

Ltac conjs := repeat match goal with |- _ /\ _ => split end.

Section Loop.

Variable E : Type.
Variable eqb : E -> E -> bool.
Variables a b : list E.
Variable b2j : list (E * list nat).
Variable W : window.

Lemma blocks_loop_inv fuel : forall queue acc bl,
  blocks_loop eqb a b b2j fuel queue acc = Some bl ->
  loop_inv W queue acc ->
  pairwise apart (map rect bl)
  /\ Forall (inside W) bl
  /\ Forall (fun x => snd x <> 0) bl.
Proof.
  induction fuel as [|fuel IH]; intros queue acc bl Hl Hinv.
  - destruct queue as [|[[[alo ahi] blo] bhi] q]; [|discriminate].
    injection Hl as <-. destruct Hinv as (_ & _ & _ & _ & H5 & H6 & H7).
    conjs; assumption.
  - destruct queue as [|[[[alo ahi] blo] bhi] q].
    + injection Hl as <-. destruct Hinv as (_ & _ & _ & _ & H5 & H6 & H7).
      conjs; assumption.
    + cbn [blocks_loop] in Hl.
      destruct Hinv as (H1 & H2 & H3 & H4 & H5 & H6 & H7).
      inversion H1 as [|? ? Hok H1']; subst.
      inversion H2 as [|? ? Hw H2']; subst.
      destruct H3 as [Hwq H3'].
      inversion H4 as [|? ? Hacc H4']; subst.
      pose proof (find_longest_match_inside eqb a b b2j Hok) as Hin.
      destruct (find_longest_match eqb a b b2j alo ahi blo bhi)
        as [[i j] k].
      assert (Hq : loop_inv W q acc) by (unfold loop_inv; conjs; assumption).
      destruct (k =? 0) eqn:Ek; [apply (IH _ _ _ Hl Hq)|].
      apply Nat.eqb_neq in Ek. pose proof Hin as (Hi1 & Hi2 & Hj1 & Hj2).
      refine (IH _ _ _ Hl _).
      set (w := (alo, ahi, blo, bhi)) in *.
      assert (Hx : within w (rect (i, j, k)))
        by (apply inside_within; exact Hin).
      assert (Hxq : Forall (fun z => apart z (rect (i, j, k))) q).
      { eapply Forall_impl; [|exact Hwq]. intros z Hz. cbv beta in Hz. apply apart_sym.
        eapply apart_within; [exact Hz|exact Hx]. }
      assert (Hacc' : loop_inv W q (acc ++ [(i, j, k)])).
      { unfold loop_inv. conjs; try assumption.
        - pose proof (Forall_and Hxq H4') as Hboth.
          eapply Forall_impl; [|exact Hboth].
          intros z [Hz1 Hz2]. cbv beta in Hz1, Hz2. apply Forall_app. split; [exact Hz2|].
          constructor; [exact Hz1|constructor].
        - rewrite map_app. apply pairwise_app_one; [exact H5|].
          apply Forall_map. eapply Forall_impl; [|exact Hacc].
          intros y Hy. cbv beta in Hy. apply apart_sym.
          eapply apart_within; [exact Hy|exact Hx].
        - apply Forall_app. split; [exact H6|].
          constructor; [|constructor]. eapply within_inside; eassumption.
        - apply Forall_app. split; [exact H7|].
          constructor; [exact Ek|constructor]. }
      assert (Hsubs : forall sub, window_ok sub -> within w sub ->
                apart sub (rect (i, j, k)) ->
                forall q', loop_inv W q' (acc ++ [(i, j, k)]) ->
                Forall (apart sub) q' ->
                loop_inv W (sub :: q') (acc ++ [(i, j, k)])).
      { intros sub Hsok Hsw Hsx q' (A1 & A2 & A3 & A4 & A5 & A6 & A7) Hsq.
        unfold loop_inv. conjs; try assumption.
        - constructor; assumption.
        - constructor; [|assumption]. eapply within_trans; eassumption.
        - cbn [pairwise]. split; assumption.
        - constructor; [|assumption]. apply Forall_app. split.
          + eapply Forall_impl; [|exact Hacc]. intros y Hy. cbv beta in Hy.
            eapply apart_within; eassumption.
          + constructor; [exact Hsx|constructor]. }
      assert (HLq : Forall (apart (alo, i, blo, j)) q).
      { eapply Forall_impl; [|exact Hwq]. intros z Hz. cbv beta in Hz.
        eapply apart_within; [exact Hz|]. cbn. lia. }
      assert (HRq : Forall (apart (i + k, ahi, j + k, bhi)) q).
      { eapply Forall_impl; [|exact Hwq]. intros z Hz. cbv beta in Hz.
        eapply apart_within; [exact Hz|]. cbn. lia. }
      destruct ((alo <? i) && (blo <? j)) eqn:Ec1;
        destruct ((i + k <? ahi) && (j + k <? bhi)) eqn:Ec2;
        repeat match goal with
               | H : _ && _ = true |- _ =>
                   apply andb_prop in H; destruct H as [?E1 ?E2];
                   apply Nat.ltb_lt in E1; apply Nat.ltb_lt in E2
               end.
      * apply Hsubs; [cbn; lia|cbn; lia|cbn; lia| |].
        -- apply Hsubs; [cbn; lia|cbn; lia|cbn; lia|exact Hacc'|exact HLq].
        -- constructor; [cbn; lia|exact HRq].
      * apply Hsubs; [cbn; lia|cbn; lia|cbn; lia|exact Hacc'|exact HLq].
      * apply Hsubs; [cbn; lia|cbn; lia|cbn; lia|exact Hacc'|exact HRq].
      * exact Hacc'.
Qed.

End Loop.

(** *** The blocks in order *)

Lemma pairwise_map A B (f : A -> B) (R : B -> B -> Prop) l :
  pairwise R (map f l) -> pairwise (fun x y => R (f x) (f y)) l.
Proof.
  induction l as [|x l IH]; cbn [map pairwise]; [tauto|].
  intros [H1 H2]. split; [|apply IH; exact H2].
  apply Forall_forall. intros y Hy. rewrite Forall_forall in H1.
  apply H1. apply in_map. exact Hy.
Qed.

Lemma apart_rect x y : apart (rect x) (rect y) -> before x y \/ before y x.
Proof. destruct x as [[i1 j1] k1], y as [[i2 j2] k2]. cbn. tauto. Qed.

Lemma before_trans x y z : before x y -> before y z -> before x z.
Proof.
  destruct x as [[i1 j1] k1], y as [[i2 j2] k2], z as [[i3 j3] k3]. cbn. lia.
Qed.

Lemma block_lt_before x y :
  before x y \/ before y x -> snd x <> 0 -> snd y <> 0 ->
  if block_lt x y then before x y else before y x.
Proof.
  destruct x as [[i1 j1] k1], y as [[i2 j2] k2]. cbn [snd block_lt before].
  intros H Hx Hy.
  destruct (i1 <? i2) eqn:E1; [apply Nat.ltb_lt in E1; lia|].
  apply Nat.ltb_ge in E1.
  destruct (i2 <? i1) eqn:E2; [apply Nat.ltb_lt in E2; lia|].
  apply Nat.ltb_ge in E2. lia.
Qed.

Lemma insert_block_In x l y :
  In y (insert_block x l) <-> y = x \/ In y l.
Proof.
  induction l as [|z l IH]; cbn [insert_block].
  - cbn. intuition.
  - destruct (block_lt x z); cbn [In]; rewrite ?IH; intuition.
Qed.

Lemma sort_blocks_In l y : In y (sort_blocks l) <-> In y l.
Proof.
  induction l as [|x l IH]; [reflexivity|].
  unfold sort_blocks in *. cbn [fold_right In].
  rewrite insert_block_In, IH. intuition.
Qed.

Lemma insert_block_sorted x l :
  StronglySorted before l ->
  Forall (fun y => before x y \/ before y x) l ->
  snd x <> 0 -> Forall (fun y => snd y <> 0) l ->
  StronglySorted before (insert_block x l).
Proof.
  induction l as [|z l IH]; intros Hs Hc Hx Hl; cbn [insert_block].
  - constructor; constructor.
  - inversion Hs as [|? ? Hs' Hz]; subst.
    inversion Hc as [|? ? Hcz Hc']; subst.
    inversion Hl as [|? ? Hz0 Hl']; subst.
    pose proof (@block_lt_before _ _ Hcz Hx Hz0) as Hb.
    destruct (block_lt x z).
    + constructor; [exact Hs|]. constructor; [exact Hb|].
      eapply Forall_impl; [|exact Hz]. intros y Hy. cbv beta in Hy.
      eapply before_trans; eassumption.
    + constructor; [apply IH; assumption|].
      apply Forall_forall. intros y Hy. apply (proj1 (insert_block_In _ _ _)) in Hy.
      destruct Hy as [->|Hy]; [exact Hb|].
      rewrite Forall_forall in Hz. apply Hz. exact Hy.
Qed.

Lemma sort_blocks_sorted l :
  pairwise (fun x y => before x y \/ before y x) l ->
  Forall (fun y => snd y <> 0) l ->
  StronglySorted before (sort_blocks l).
Proof.
  induction l as [|x l IH]; intros Hp Hl; [constructor|].
  destruct Hp as [Hx Hp]. inversion Hl as [|? ? Hx0 Hl']; subst.
  change (sort_blocks (x :: l)) with (insert_block x (sort_blocks l)).
  apply insert_block_sorted; [apply IH; assumption| |exact Hx0|].
  - apply Forall_forall. intros y Hy. apply (proj1 (sort_blocks_In _ _)) in Hy.
    rewrite Forall_forall in Hx. apply Hx. exact Hy.
  - apply Forall_forall. intros y Hy. apply (proj1 (sort_blocks_In _ _)) in Hy.
    rewrite Forall_forall in Hl'. apply Hl'. exact Hy.
Qed.

Lemma chain_to_bound la lb l : forall i j,
  chain_to la lb i j l -> i <= la /\ j <= lb.
Proof.
  induction l as [|[[ai bj] size] l IH]; intros i j H; cbn [chain_to] in H.
  - exact H.
  - destruct H as (H1 & H2 & H3). apply IH in H3. lia.
Qed.

Lemma chain_to_weaken la lb l i j i' j' :
  chain_to la lb i j l -> i' <= i -> j' <= j -> chain_to la lb i' j' l.
Proof.
  destruct l as [|[[ai bj] size] l]; cbn [chain_to]; intros H Hi Hj.
  - lia.
  - destruct H as (H1 & H2 & H3). conjs; [lia|lia|exact H3].
Qed.

Lemma sorted_chain la lb l : forall i j,
  StronglySorted before l ->
  Forall (inside (0, la, 0, lb)) l ->
  Forall (fun y => i <= fst (fst y) /\ j <= snd (fst y)) l ->
  i <= la -> j <= lb ->
  chain_to la lb i j l.
Proof.
  induction l as [|[[ai bj] size] l IH]; intros i j Hs Hin Hlo Hi Hj;
    cbn [chain_to]; [lia|].
  inversion Hs as [|? ? Hs' Hb]; subst.
  inversion Hin as [|? ? Hx Hin']; subst.
  inversion Hlo as [|? ? Hx0 Hlo']; subst.
  cbn in Hx, Hx0. conjs; [lia|lia|].
  apply IH; try assumption; try lia.
  eapply Forall_impl; [|exact Hb]. intros [[i2 j2] k2] Hy. cbn in *. lia.
Qed.

Lemma collapse_chain la lb l : forall i1 j1 k1 i j,
  chain_to la lb (i1 + k1) (j1 + k1) l -> i <= i1 -> j <= j1 ->
  chain_to la lb i j (collapse (i1, j1, k1) l).
Proof.
  induction l as [|[[i2 j2] k2] l IH]; intros i1 j1 k1 i j H Hi Hj;
    cbn [collapse].
  - cbn [chain_to] in H. destruct (k1 =? 0); cbn [chain_to]; lia.
  - cbn [chain_to] in H. destruct H as (H1 & H2 & H3).
    destruct ((i1 + k1 =? i2) && (j1 + k1 =? j2)) eqn:Ec.
    + apply andb_prop in Ec. destruct Ec as [E1 E2].
      apply Nat.eqb_eq in E1. apply Nat.eqb_eq in E2.
      apply IH; [|exact Hi|exact Hj].
      replace (i1 + (k1 + k2)) with (i2 + k2) by lia.
      replace (j1 + (k1 + k2)) with (j2 + k2) by lia. exact H3.
    + assert (Hrest : chain_to la lb (i1 + k1) (j1 + k1)
                        (collapse (i2, j2, k2) l))
        by (apply IH; assumption).
      destruct (k1 =? 0); cbn [app chain_to].
      * eapply chain_to_weaken; [exact Hrest|lia|lia].
      * conjs; [exact Hi|exact Hj|exact Hrest].
Qed.

Lemma chain_to_sentinel la lb l : forall i j,
  chain_to la lb i j l -> chain_to la lb i j (l ++ [(la, lb, 0)]).
Proof.
  induction l as [|[[ai bj] size] l IH]; intros i j H; cbn [app chain_to] in *.
  - lia.
  - destruct H as (H1 & H2 & H3). conjs; [exact H1|exact H2|apply IH; exact H3].
Qed.

Section Blocks.

Variable E : Type.
Variable eqb : E -> E -> bool.
Variables a b : list E.

(** The matching blocks are in increasing order in both sequences, and end
    with the dummy block. *)
Lemma get_matching_blocks_chain :
  exists l,
    get_matching_blocks eqb a b = l ++ [(length a, length b, 0)]
    /\ chain_to (length a) (length b) 0 0 l.
Proof.
  unfold get_matching_blocks.
  destruct (raw_blocks_total eqb a b) as (bl & Ebl & _ & _).
  rewrite Ebl. eexists. split; [reflexivity|].
  unfold raw_blocks in Ebl.
  destruct (@blocks_loop_inv E eqb a b (chain_b eqb b)
              (0, length a, 0, length b) _ _ _ _ Ebl)
    as (Hp & Hin & Hpos).
  { unfold loop_inv. conjs; try constructor; try constructor; cbn; lia. }
  apply collapse_chain; [|lia|lia]. cbn [Nat.add].
  apply sorted_chain; try lia.
  - apply sort_blocks_sorted; [|exact Hpos].
    apply pairwise_map in Hp. clear -Hp.
    induction bl as [|x bl IH]; [exact I|]. destruct Hp as [H1 H2].
    split; [|apply IH; exact H2].
    eapply Forall_impl; [|exact H1]. intros y Hy. apply apart_rect. exact Hy.
  - apply Forall_forall. intros y Hy. apply (proj1 (sort_blocks_In _ _)) in Hy.
    rewrite Forall_forall in Hin. apply Hin. exact Hy.
  - apply Forall_forall. intros y _. lia.
Qed.

End Blocks.

End Ordered.

(** ** Counting the lines of a diff *)

Module Counts.
Import PyStr Difflib MatcherFacts Ordered.

Lemma total_app f x y : total f (x ++ y) = total f x + total f y.
Proof.
  unfold total. induction x as [|c x IH]; cbn [app fold_right]; [reflexivity|].
  rewrite IH. lia.
Qed.

Lemma total_cons f c l : total f (c :: l) = f c + total f l.
Proof. reflexivity. Qed.

Lemma total_nil f : total f [] = 0.
Proof. reflexivity. Qed.

Lemma slice_length A (l : list A) i1 i2 :
  i2 <= length l -> length (slice l i1 i2) = i2 - i1.
Proof.
  intros H. unfold slice. rewrite length_firstn, length_skipn. lia.
Qed.

Section Opcodes.

Variable E : Type.
Variables a b : list E.

(** The lines of [b] are those of the matching blocks and those the
    opcodes add. *)
Lemma opcodes_added l : forall i j,
  chain_to (length a) (length b) i j l ->
  total (added1 b) (opcodes_from i j (l ++ [(length a, length b, 0)]))
  + size_sum l + j = length b.
Proof.
  induction l as [|[[ai bj] size] l IH]; intros i j H;
    cbn [app opcodes_from chain_to] in *.
  - rewrite Nat.eqb_refl. cbn [app]. rewrite app_nil_r.
    destruct (i <? length a) eqn:Ei; destruct (j <? length b) eqn:Ej;
      cbn [andb total fold_right added1 size_sum];
      rewrite ?slice_length by lia;
      try apply Nat.ltb_lt in Ej; try apply Nat.ltb_ge in Ej; lia.
  - destruct H as (H1 & H2 & H3).
    pose proof (@chain_to_bound _ _ _ _ _ H3) as [B1 B2].
    specialize (@IH _ _ H3).
    rewrite !total_app.
    change (size_sum ((ai, bj, size) :: l)) with (size + size_sum l).
    destruct (size =? 0);
    destruct (i <? ai) eqn:Ei; destruct (j <? bj) eqn:Ej;
      cbn [andb total fold_right added1];
      rewrite ?slice_length by lia;
      try apply Nat.ltb_lt in Ej; try apply Nat.ltb_ge in Ej; lia.
Qed.

(** The lines of [a] are those of the matching blocks and those the
    opcodes delete. *)
Lemma opcodes_removed l : forall i j,
  chain_to (length a) (length b) i j l ->
  total (removed1 a) (opcodes_from i j (l ++ [(length a, length b, 0)]))
  + size_sum l + i = length a.
Proof.
  induction l as [|[[ai bj] size] l IH]; intros i j H;
    cbn [app opcodes_from chain_to] in *.
  - rewrite Nat.eqb_refl. cbn [app]. rewrite app_nil_r.
    destruct (i <? length a) eqn:Ei; destruct (j <? length b) eqn:Ej;
      cbn [andb total fold_right removed1 size_sum];
      rewrite ?slice_length by lia;
      try apply Nat.ltb_lt in Ei; try apply Nat.ltb_ge in Ei; lia.
  - destruct H as (H1 & H2 & H3).
    pose proof (@chain_to_bound _ _ _ _ _ H3) as [B1 B2].
    specialize (@IH _ _ H3).
    rewrite !total_app.
    change (size_sum ((ai, bj, size) :: l)) with (size + size_sum l).
    destruct (size =? 0);
    destruct (i <? ai) eqn:Ei; destruct (j <? bj) eqn:Ej;
      cbn [andb total fold_right removed1];
      rewrite ?slice_length by lia;
      try apply Nat.ltb_lt in Ei; try apply Nat.ltb_ge in Ei; lia.
Qed.

End Opcodes.

Section Balance.

Variable E : Type.
Variable eqb : E -> E -> bool.
Variables a b : list E.

(** What the opcodes add and delete differs by the difference of the
    lengths. *)
Lemma get_opcodes_balance :
  total (added1 b) (get_opcodes eqb a b) + length a
  = total (removed1 a) (get_opcodes eqb a b) + length b.
Proof.
  unfold get_opcodes.
  destruct (get_matching_blocks_chain eqb a b) as (l & -> & Hc).
  pose proof (@opcodes_added _ a b l _ _ Hc) as Ha.
  pose proof (@opcodes_removed _ a b l _ _ Hc) as Hr.
  assert (Hsum : forall x y m la lb,
             x + m + 0 = lb -> y + m + 0 = la -> x + la = y + lb)
    by (intros; lia).
  eapply Hsum; [exact Ha|exact Hr].
Qed.

End Balance.

(** *** Grouping keeps the changes *)

Section Grouping.

Variable f : opcode -> nat.
Hypothesis f_equal0 : forall i1 i2 j1 j2, f (equal, i1, i2, j1, j2) = 0.

Lemma total_fix_first n codes : total f (fix_first n codes) = total f codes.
Proof.
  destruct codes as [|[[[[t i1] i2] j1] j2] codes]; [reflexivity|].
  destruct t; try reflexivity.
  cbn [fix_first total fold_right]. rewrite !f_equal0. reflexivity.
Qed.

Lemma total_fix_last n codes : total f (fix_last n codes) = total f codes.
Proof.
  induction codes as [|[[[[t i1] i2] j1] j2] codes IH]; [reflexivity|].
  destruct codes as [|c codes].
  - destruct t; try reflexivity.
    cbn [fix_last total fold_right]. rewrite !f_equal0. reflexivity.
  - transitivity (f (t, i1, i2, j1, j2) + total f (fix_last n (c :: codes)));
      [destruct t; reflexivity|].
    rewrite IH. reflexivity.
Qed.

Lemma total_group_loop n codes : forall group,
  total_groups f (group_loop n codes group) = total f group + total f codes.
Proof.
  induction codes as [|[[[[t i1] i2] j1] j2] codes IH]; intros group;
    cbn [group_loop].
  - destruct group as [|[[[[t i1] i2] j1] j2] [|c group]];
      [reflexivity| |].
    + destruct t; unfold total_groups, total; cbn [fold_right];
        rewrite ?f_equal0; lia.
    + destruct t; unfold total_groups, total; cbn [fold_right];
        reflexivity.
  - destruct (is_equal t && (n + n <? i2 - i1)) eqn:Ec.
    + apply andb_prop in Ec. destruct Ec as [Et _].
      destruct t; try discriminate.
      change (total_groups f (?g :: ?gs)) with (total f g + total_groups f gs).
      rewrite IH, total_app, !total_cons, !total_nil, !f_equal0. lia.
    + rewrite IH, total_app, !total_cons, total_nil. lia.
Qed.

End Grouping.

Section Grouped.

Variable E : Type.
Variable eqb : E -> E -> bool.
Variables a b : list E.
Variable f : opcode -> nat.
Hypothesis f_equal0 : forall i1 i2 j1 j2, f (equal, i1, i2, j1, j2) = 0.

Lemma total_get_grouped_opcodes n :
  total_groups f (get_grouped_opcodes eqb a b n) = total f (get_opcodes eqb a b).
Proof.
  unfold get_grouped_opcodes.
  rewrite (@total_group_loop f f_equal0), (@total_fix_last f f_equal0),
    (@total_fix_first f f_equal0).
  destruct (get_opcodes eqb a b); [|reflexivity].
  rewrite total_cons, f_equal0. reflexivity.
Qed.

End Grouped.

(** *** The lines of the diff *)

Lemma filter_marked c d (l : list pystr) :
  length (filter (startswith c) (map (cons d) l))
  = if N.eqb d c then length l else 0.
Proof.
  induction l as [|x l IH]; cbn [map filter startswith].
  - destruct (N.eqb d c); reflexivity.
  - destruct (N.eqb d c) eqn:Ed; cbn [length]; rewrite IH; reflexivity.
Qed.

Lemma filter_length_app A (p : A -> bool) x y :
  length (filter p (x ++ y)) = length (filter p x) + length (filter p y).
Proof. rewrite filter_app, length_app. reflexivity. Qed.

Section Lines.

Variables a b : list pystr.

Lemma group_lines_cons c group :
  group_lines a b (c :: group) = group_lines a b [c] ++ group_lines a b group.
Proof. unfold group_lines. cbn [flat_map]. rewrite app_nil_r. reflexivity. Qed.

Lemma group_lines_added group :
  length (filter (startswith 43) (group_lines a b group))
  = total (added1 b) group.
Proof.
  induction group as [|c group IH]; [reflexivity|].
  rewrite group_lines_cons, filter_length_app, IH, total_cons. f_equal.
  destruct c as [[[[t i1] i2] j1] j2].
  unfold group_lines. cbn [flat_map added1]. rewrite app_nil_r.
  destruct t; rewrite ?filter_length_app, ?filter_marked, ?length_map;
    reflexivity.
Qed.

Lemma group_lines_removed group :
  length (filter (startswith 45) (group_lines a b group))
  = total (removed1 a) group.
Proof.
  induction group as [|c group IH]; [reflexivity|].
  rewrite group_lines_cons, filter_length_app, IH, total_cons. f_equal.
  destruct c as [[[[t i1] i2] j1] j2].
  unfold group_lines. cbn [flat_map removed1]. rewrite app_nil_r.
  destruct t; rewrite ?filter_length_app, ?filter_marked, ?length_map;
    cbn [N.eqb Pos.eqb]; rewrite ?Nat.add_0_r; reflexivity.
Qed.

Lemma hunk_head group :
  exists header, hunk a b group = (64%N :: header) :: group_lines a b group.
Proof.
  unfold hunk.
  destruct (hd (equal, 0, 0, 0, 0) group) as [[[[? f1] ?] f3] ?].
  destruct (last group (equal, 0, 0, 0, 0)) as [[[[? ?] l2] ?] l4].
  eexists. reflexivity.
Qed.

Lemma hunks_added groups :
  length (filter (startswith 43) (flat_map (hunk a b) groups))
  = total_groups (added1 b) groups.
Proof.
  induction groups as [|g groups IH]; [reflexivity|].
  cbn [flat_map total_groups fold_right].
  destruct (hunk_head g) as (h & ->).
  change ((64%N :: h) :: group_lines a b g) with ([64%N :: h] ++ group_lines a b g).
  rewrite !filter_length_app, IH, group_lines_added. reflexivity.
Qed.

Lemma hunks_removed groups :
  length (filter (startswith 45) (flat_map (hunk a b) groups))
  = total_groups (removed1 a) groups.
Proof.
  induction groups as [|g groups IH]; [reflexivity|].
  cbn [flat_map total_groups fold_right].
  destruct (hunk_head g) as (h & ->).
  change ((64%N :: h) :: group_lines a b g) with ([64%N :: h] ++ group_lines a b g).
  rewrite !filter_length_app, IH, group_lines_removed. reflexivity.
Qed.

(** The lines of a diff that start with [+] and those that start with [-]
    differ by the difference of the numbers of lines. *)
Lemma unified_diff_balance fromfile tofile n :
  length (filter (startswith 43) (unified_diff a b fromfile tofile n))
  + length a
  = length (filter (startswith 45) (unified_diff a b fromfile tofile n))
    + length b.
Proof.
  pose proof (get_opcodes_balance PyStr.eqb a b) as Hb.
  rewrite <- (@total_get_grouped_opcodes _ PyStr.eqb a b (added1 b)
               (fun _ _ _ _ => eq_refl) n) in Hb.
  rewrite <- (@total_get_grouped_opcodes _ PyStr.eqb a b (removed1 a)
               (fun _ _ _ _ => eq_refl) n) in Hb.
  unfold unified_diff.
  destruct (get_grouped_opcodes PyStr.eqb a b n) as [|g groups] eqn:Eg.
  - cbn [filter length]. cbn [total_groups fold_right] in Hb. lia.
  - rewrite <- hunks_added, <- hunks_removed in Hb.
    change (u "--- " ++ fromfile ++ [10%N])
      with (45%N :: 45%N :: 45%N :: 32%N :: fromfile ++ [10%N]).
    change (u "+++ " ++ tofile ++ [10%N])
      with (43%N :: 43%N :: 43%N :: 32%N :: tofile ++ [10%N]).
    cbn [filter startswith N.eqb Pos.eqb length]. lia.
Qed.

End Lines.

End Counts.

(** ** Comparing in both directions *)

Module Symmetry.
Import Difflib MatcherFacts Ordered Counts.

Lemma compare_contents_balance id1 id2 l1 l2 :
  additions (compare_contents id1 id2 l1 l2) + length l1
  = deletions (compare_contents id1 id2 l1 l2) + length l2.
Proof. unfold compare_contents. cbn [additions deletions]. apply unified_diff_balance. Qed.

(** C9 (amended): when the comparison of V1 with V2 returns, the comparison
    of V2 with V1 that follows returns as well and leaves the state as it
    is; the two results compare the texts of the two live files, in the
    two orders.  In each direction the additions exceed the deletions by
    the number of lines of the second text less that of the first, so the
    net change of one direction is the opposite of the other's: the
    additions of both directions sum to the deletions of both. *)
Theorem compare_both_directions id1 id2 s r1 s1 :
  compare_versions id1 id2 s = (Ok r1, s1) ->
  exists v1 v2 l1 l2 r2,
    _find_version (mem s) id1 = Some v1
    /\ _find_version (mem s) id2 = Some v2
    /\ text_at (world s1) (file v1) = Some l1
    /\ text_at (world s1) (file v2) = Some l2
    /\ compare_versions id2 id1 s1 = (Ok r2, s1)
    /\ r1 = compare_contents id1 id2 l1 l2
    /\ r2 = compare_contents id2 id1 l2 l1
    /\ additions r1 + length l1 = deletions r1 + length l2
    /\ additions r2 + length l2 = deletions r2 + length l1
    /\ additions r1 + additions r2 = deletions r1 + deletions r2.
Proof.
  intros H.
  destruct (Comparison.compare_ok_inv _ _ _ H)
    as (v1 & v2 & l1 & l2 & F1 & F2 & T1 & T2 & ->).
  assert (Hm : mem s1 = mem s).
  { pose proof (Activation.compare_mem id1 id2 s) as Hm.
    rewrite H in Hm. exact Hm. }
  exists v1, v2, l1, l2, (compare_contents id2 id1 l2 l1).
  pose proof (compare_contents_balance id1 id2 l1 l2) as B1.
  pose proof (compare_contents_balance id2 id1 l2 l1) as B2.
  conjs; try assumption; try reflexivity; [|lia].
  apply (@Comparison.compare_live id2 id1 s1 v2 v1 l2 l1);
    [rewrite Hm; exact F2|rewrite Hm; exact F1|exact T2|exact T1].
Qed.

(** The two files of four lines each: four lines added and four deleted
    one way, three and three the other way. *)
Lemma compare_both_directions_witness :
  exists r1 r2,
    compare_versions (u "v1.0.0") (u "v1.1.0") Demo.letters
    = (Ok r1, Demo.letters)
    /\ compare_versions (u "v1.1.0") (u "v1.0.0") Demo.letters
       = (Ok r2, Demo.letters)
    /\ additions r1 + additions r2 = deletions r1 + deletions r2.
Proof.
  assert (H : exists r1,
             compare_versions (u "v1.0.0") (u "v1.1.0") Demo.letters
             = (Ok r1, Demo.letters))
    by (eexists; vm_compute; reflexivity).
  destruct H as (r1 & H).
  destruct (compare_both_directions _ _ _ H)
    as (v1 & v2 & l1 & l2 & r2 & _ & _ & _ & _ & H2 & _ & _ & _ & _ & H5).
  exists r1, r2. split; [exact H|]. split; [exact H2|exact H5].
Defined.

(** C9 as stated fails.  On the two files of four lines the first
    direction adds four lines and the second deletes three; on the two
    files of one line, [tide] and [diet], the similarity is 25 in one
    direction and 50 in the other. *)
Lemma compare_directions_differ :
  (exists r1 r2,
     compare_versions (u "v1.0.0") (u "v1.1.0") Demo.letters
     = (Ok r1, Demo.letters)
     /\ compare_versions (u "v1.1.0") (u "v1.0.0") Demo.letters
        = (Ok r2, Demo.letters)
     /\ additions r1 = 4 /\ deletions r2 = 3
     /\ deletions r1 = 4 /\ additions r2 = 3)
  /\ (exists r1 r2,
        compare_versions (u "v1.0.0") (u "v1.1.0") Demo.anagrams
        = (Ok r1, Demo.anagrams)
        /\ compare_versions (u "v1.1.0") (u "v1.0.0") Demo.anagrams
           = (Ok r2, Demo.anagrams)
        /\ (similarity r1 == 25)%Q /\ (similarity r2 == 50)%Q
        /\ ~ (similarity r1 == similarity r2)%Q).
Proof.
  split.
  - eexists. eexists. split; [vm_compute; reflexivity|].
    split; [vm_compute; reflexivity|]. conjs; vm_compute; reflexivity.
  - eexists. eexists. split; [vm_compute; reflexivity|].
    split; [vm_compute; reflexivity|].
    conjs; [vm_compute; reflexivity|vm_compute; reflexivity|].
    vm_compute. intros H. discriminate H.
Qed.

End Symmetry.

(** ** The ledger along a sequence of calls *)

Module Ledgers.
Import PyIntFacts IntStr SemVerFacts OpFacts Run Monotone Activation.

Section Steps.

Variable P : Platform.

(** A relation between ledgers that the four ways the operations write
    [self.versions] respect holds between the ledger before a call and the
    ledger after it. *)
Variable R : Ledger -> Ledger -> Prop.
Hypothesis R_refl : forall l, R l l.
Hypothesis R_trans : forall l1 l2 l3, R l1 l2 -> R l2 l3 -> R l1 l3.
Hypothesis R_create : forall l v e,
  ~ In (version_id v) (ids l) -> active v = false -> stable v = false ->
  R l (add_entry l (versions l ++ [v]) e).
Hypothesis R_activate : forall l id e,
  R l (add_entry l (activated id (versions l)) e).
Hypothesis R_mark : forall l id e,
  R l (add_entry l (mark_first id (versions l)) e).
Hypothesis R_log : forall l e, R l (add_entry l (versions l) e).

Lemma activate_rel id s : R (mem s) (mem (snd (activate_version P id s))).
Proof.
  rewrite activate_version_eq.
  destruct (_find_version (mem s) id) as [v|]; [|apply R_refl].
  destruct (integrity_ok P (world s) v); [|apply R_refl].
  cbn. apply R_activate.
Qed.

Lemma rollback_tail_rel id s : R (mem s) (mem (snd (rollback_tail P id s))).
Proof.
  pose proof (activate_rel id s) as H. unfold rollback_tail.
  destruct (activate_version P id s) as [[[]|e] s2]; cbn [snd mem] in *;
    [|exact H].
  eapply R_trans; [exact H|]. apply R_log.
Qed.

Lemma rollback_rel id s : R (mem s) (mem (snd (rollback_to_version P id s))).
Proof.
  rewrite rollback_to_version_eq.
  destruct (_find_version (mem s) id) as [v|]; [|apply R_refl].
  destruct (integrity_ok P (world s) v); [apply rollback_tail_rel|].
  destruct (restorable (world s) v id); [|apply R_refl].
  apply (rollback_tail_rel id
           (with_world s (copy_world (snapshot_path (file v) id) (file v)
                            (world s)))).
Qed.

Lemma exec_rel c s : R (mem s) (mem (snd (exec P c s))).
Proof.
  destruct c as [p d t|id|id|id| |id1 id2]; cbn [exec forget snd].
  - rewrite create_version_eq.
    destruct (files (world s) p) as [c|]; [|apply R_refl].
    destruct (next_version_id P t (versions (mem s))) as [id|] eqn:En;
      [|apply R_refl].
    cbn. apply R_create; [|reflexivity|reflexivity].
    eapply next_version_id_not_in. exact En.
  - apply activate_rel.
  - rewrite mark_as_stable_eq.
    destruct (_find_version (mem s) id) as [v|]; [|apply R_refl].
    cbn. apply R_mark.
  - apply rollback_rel.
  - rewrite rollback_to_last_stable_eq.
    destruct (get_stable_versions (mem s)) as [|v0 vs0]; [apply R_refl|].
    destruct (sorted_versions_desc P (v0 :: vs0)) as [[|lv rest]|];
      try apply R_refl.
    pose proof (rollback_rel (version_id lv) s) as H.
    destruct (rollback_to_version P (version_id lv) s) as [[[]|e] s'];
      exact H.
  - rewrite compare_mem. apply R_refl.
Qed.

Lemma exec_all_rel cs : forall s, R (mem s) (mem (exec_all P cs s)).
Proof.
  induction cs as [|c cs IH]; intros s; [apply R_refl|].
  cbn [exec_all]. eapply R_trans; [apply exec_rel|apply IH].
Qed.

End Steps.

Lemma activated_records id vs :
  map record_of (activated id vs) = map record_of vs.
Proof.
  unfold activated. rewrite map_map. apply map_ext. intros v. reflexivity.
Qed.

Lemma mark_first_records id vs :
  map record_of (mark_first id vs) = map record_of vs.
Proof.
  induction vs as [|v vs IH]; [reflexivity|]. cbn [mark_first].
  destruct (PyStr.eqb (version_id v) id); cbn [map]; [reflexivity|].
  rewrite IH. reflexivity.
Qed.

Lemma mark_first_nth id vs : forall i v,
  nth_error vs i = Some v ->
  exists v', nth_error (mark_first id vs) i = Some v'
             /\ record_of v' = record_of v
             /\ (stable v = true -> stable v' = true).
Proof.
  induction vs as [|x vs IH]; intros [|i] v H; try discriminate;
    cbn [mark_first nth_error] in *.
  - injection H as ->.
    destruct (PyStr.eqb (version_id v) id); eexists; cbn [nth_error];
      (split; [reflexivity|split; [reflexivity|]]); [reflexivity|tauto].
  - destruct (PyStr.eqb (version_id x) id); cbn [nth_error].
    + exists v. tauto.
    + apply IH. exact H.
Qed.

(** X1: no call removes, reorders or rewrites a recorded version: after
    any sequence of calls, what was recorded of the versions of the ledger
    is the beginning of what is recorded then. *)
Theorem recorded_versions_are_kept (P : Platform) (cs : list call)
  (s : State) :
  exists new,
    map record_of (versions (mem (exec_all P cs s)))
    = map record_of (versions (mem s)) ++ new.
Proof.
  apply (@exec_all_rel P
           (fun l l' => exists new,
              map record_of (versions l')
              = map record_of (versions l) ++ new)).
  - intros l. exists []. rewrite app_nil_r. reflexivity.
  - intros l1 l2 l3 [n1 H1] [n2 H2]. exists (n1 ++ n2).
    rewrite H2, H1, app_assoc. reflexivity.
  - intros l v e _ _ _. exists [record_of v]. cbn. rewrite map_app.
    reflexivity.
  - intros l id e. exists []. cbn. rewrite activated_records, app_nil_r.
    reflexivity.
  - intros l id e. exists []. cbn. rewrite mark_first_records, app_nil_r.
    reflexivity.
  - intros l e. exists []. cbn. rewrite app_nil_r. reflexivity.
Qed.

(** X2: the history only grows: after any sequence of calls, the history
    of the ledger is the history before, followed by the entries of the
    calls. *)
Theorem history_is_append_only (P : Platform) (cs : list call) (s : State) :
  exists entries,
    history_list (mem (exec_all P cs s))
    = history_list (mem s) ++ entries.
Proof.
  assert (Hadd : forall l vs e,
             history_list (add_entry l vs e) = history_list l ++ [e])
    by reflexivity.
  apply (@exec_all_rel P
           (fun l l' => exists entries,
              history_list l' = history_list l ++ entries)).
  - intros l. exists []. rewrite app_nil_r. reflexivity.
  - intros l1 l2 l3 [n1 H1] [n2 H2]. exists (n1 ++ n2).
    rewrite H2, H1, app_assoc. reflexivity.
  - intros l v e _ _ _. exists [e]. apply Hadd.
  - intros l id e. exists [e]. apply Hadd.
  - intros l id e. exists [e]. apply Hadd.
  - intros l e. exists [e]. apply Hadd.
Qed.

(** X3: a version marked stable stays stable: after any sequence of
    calls, the entry at the place of a stable version is that version, and
    it is stable. *)
Theorem stable_is_kept (P : Platform) (cs : list call) (s : State)
  (i : nat) (v : Version) :
  nth_error (versions (mem s)) i = Some v ->
  stable v = true ->
  exists v',
    nth_error (versions (mem (exec_all P cs s))) i = Some v'
    /\ record_of v' = record_of v /\ stable v' = true.
Proof.
  intros Hn Hs.
  assert (H : forall i v,
             nth_error (versions (mem s)) i = Some v ->
             exists v',
               nth_error (versions (mem (exec_all P cs s))) i = Some v'
               /\ record_of v' = record_of v
               /\ (stable v = true -> stable v' = true)).
  { apply (@exec_all_rel P
             (fun l l' => forall i v,
                nth_error (versions l) i = Some v ->
                exists v',
                  nth_error (versions l') i = Some v'
                  /\ record_of v' = record_of v
                  /\ (stable v = true -> stable v' = true))).
    - intros l j w Hw. exists w. tauto.
    - intros l1 l2 l3 H1 H2 j w Hw.
      destruct (H1 _ _ Hw) as (w1 & Hw1 & R1 & S1).
      destruct (H2 _ _ Hw1) as (w2 & Hw2 & R2 & S2).
      exists w2. split; [exact Hw2|]. split; [congruence|tauto].
    - intros l w e _ _ _ j x Hx. exists x. cbn.
      rewrite nth_error_app1 by (apply nth_error_Some; congruence). tauto.
    - intros l id e j x Hx. cbn. unfold activated.
      rewrite nth_error_map, Hx. cbn. eexists. split; [reflexivity|].
      split; [reflexivity|]. cbn. tauto.
    - intros l id e j x Hx. cbn. apply mark_first_nth. exact Hx.
    - intros l e j x Hx. exists x. cbn. tauto. }
  destruct (H i v Hn) as (v' & H1 & H2 & H3). exists v'. tauto.
Qed.

(** X4: identifiers stay unique: when no two versions of the ledger
    share an identifier, none do after any sequence of calls. *)
Theorem identifiers_stay_unique (P : Platform) (cs : list call) (s : State) :
  unique_ids (mem s) = true ->
  unique_ids (mem (exec_all P cs s)) = true.
Proof.
  apply (@exec_all_rel P
           (fun l l' => unique_ids l = true -> unique_ids l' = true)).
  - tauto.
  - tauto.
  - intros l v e Hf _ _ Hu. unfold unique_ids, ids in *. cbn.
    rewrite map_app. apply distinct_app_fresh; assumption.
  - intros l id e Hu. unfold unique_ids, ids in *. cbn.
    rewrite activated_ids. exact Hu.
  - intros l id e Hu. unfold unique_ids, ids in *. cbn.
    rewrite mark_first_ids. exact Hu.
  - intros l e Hu. exact Hu.
Qed.

Lemma rollback_tail_raise P id s e :
  fst (rollback_tail P id s) = Raise e ->
  mem (snd (rollback_tail P id s)) = mem s.
Proof.
  unfold rollback_tail. rewrite activate_version_eq.
  destruct (_find_version (mem s) id) as [v|]; [|reflexivity].
  destruct (integrity_ok P (world s) v); [discriminate|reflexivity].
Qed.

Lemma rollback_raise P id s e :
  fst (rollback_to_version P id s) = Raise e ->
  mem (snd (rollback_to_version P id s)) = mem s.
Proof.
  rewrite rollback_to_version_eq.
  destruct (_find_version (mem s) id) as [v|]; [|reflexivity].
  destruct (integrity_ok P (world s) v); [apply rollback_tail_raise|].
  destruct (restorable (world s) v id); [|reflexivity].
  intros H. apply rollback_tail_raise in H. exact H.
Qed.

(** X5: a call that raises leaves [self.versions] as it was: no version
    and no history entry is added, no flag is changed. *)
Theorem failed_call_keeps_ledger (P : Platform) (c : call) (s : State)
  (e : exn) :
  fst (exec P c s) = Raise e -> mem (snd (exec P c s)) = mem s.
Proof.
  destruct c as [p d t|id|id|id| |id1 id2]; cbn [exec forget fst snd].
  - rewrite create_version_eq.
    destruct (files (world s) p) as [c|]; [|reflexivity].
    destruct (next_version_id P t (versions (mem s))); [discriminate|].
    reflexivity.
  - rewrite activate_version_eq.
    destruct (_find_version (mem s) id) as [v|]; [|reflexivity].
    destruct (integrity_ok P (world s) v); [discriminate|reflexivity].
  - rewrite mark_as_stable_eq.
    destruct (_find_version (mem s) id) as [v|]; [discriminate|reflexivity].
  - apply rollback_raise.
  - rewrite rollback_to_last_stable_eq.
    destruct (get_stable_versions (mem s)) as [|v0 vs0]; [reflexivity|].
    destruct (sorted_versions_desc P (v0 :: vs0)) as [[|lv rest]|];
      try reflexivity.
    pose proof (@rollback_raise P (version_id lv) s) as H.
    destruct (rollback_to_version P (version_id lv) s) as [[[]|e'] s'];
      cbn [fst snd] in *; [discriminate|].
    intros _. eapply H. reflexivity.
  - intros _. apply compare_mem.
Qed.

(** Version 2.1.0 of the demonstration ledger stays stable. *)
Lemma stable_is_kept_witness :
  exists v',
    nth_error
      (versions
         (mem (exec_all Demo.platform
                 [Activate (u "1.0.0"); Create (u "core.md") [] (u "major");
                  MarkStable (u "3.0.0"); RollbackLastStable]
                 Demo.three))) 1 = Some v'
    /\ record_of v'
       = record_of (Demo.ver "2.1.0" "core.md" (Demo.bytes "tide") false true)
    /\ stable v' = true.
Proof.
  apply (@stable_is_kept Demo.platform
           [Activate (u "1.0.0"); Create (u "core.md") [] (u "major");
            MarkStable (u "3.0.0"); RollbackLastStable]
           Demo.three 1
           (Demo.ver "2.1.0" "core.md" (Demo.bytes "tide") false true));
    reflexivity.
Defined.

Lemma identifiers_stay_unique_witness :
  unique_ids
    (mem (exec_all Demo.platform
            [Create (u "core.md") [] (u "minor");
             Create (u "core.md") [] (u "patch"); Activate (u "v1.1.0");
             Create (u "core.md") [] (u "bogus")]
            Demo.two)) = true.
Proof.
  apply (@identifiers_stay_unique Demo.platform
           [Create (u "core.md") [] (u "minor");
            Create (u "core.md") [] (u "patch"); Activate (u "v1.1.0");
            Create (u "core.md") [] (u "bogus")]
           Demo.two).
  reflexivity.
Defined.

(** The activation of a version whose file has changed. *)
Lemma failed_call_keeps_ledger_witness :
  mem (snd (exec Demo.platform (Activate (u "v1.0.0")) Demo.two_drifted))
  = mem Demo.two_drifted.
Proof.
  apply (@failed_call_keeps_ledger Demo.platform (Activate (u "v1.0.0"))
           Demo.two_drifted VersionIntegrityError).
  reflexivity.
Defined.

End Ledgers.

(** ** What one call leaves for the next *)

Module RoundTrips.
Import PyIntFacts IntStr SemVerFacts OpFacts Run Monotone Activation
  Persistence.

Lemma find_app_other (vs : list Version) v id :
  id <> version_id v ->
  find (fun x => PyStr.eqb (version_id x) id) (vs ++ [v])
  = find (fun x => PyStr.eqb (version_id x) id) vs.
Proof.
  intros Hne. induction vs as [|x vs IH]; cbn [app find].
  - destruct (PyStr.eqb (version_id v) id) eqn:E; [|reflexivity].
    apply eqb_eq in E. congruence.
  - destruct (PyStr.eqb (version_id x) id); [reflexivity|exact IH].
Qed.

Lemma find_active_activated id vs :
  find active (activated id vs)
  = option_map (fun v => set_active v true)
      (find (fun x => PyStr.eqb (version_id x) id) vs).
Proof.
  induction vs as [|x vs IH]; [reflexivity|].
  cbn [activated map find set_active active]. fold (activated id vs).
  destruct (PyStr.eqb (version_id x) id); [reflexivity|exact IH].
Qed.

Lemma find_id_activated id id' vs :
  find (fun x => PyStr.eqb (version_id x) id') (activated id vs)
  = option_map (fun v => set_active v (PyStr.eqb (version_id v) id))
      (find (fun x => PyStr.eqb (version_id x) id') vs).
Proof.
  induction vs as [|x vs IH]; [reflexivity|].
  cbn [activated map find set_active version_id]. fold (activated id vs).
  destruct (PyStr.eqb (version_id x) id'); [reflexivity|exact IH].
Qed.

Lemma find_mark_first id vs :
  find (fun x => PyStr.eqb (version_id x) id) (mark_first id vs)
  = option_map (fun v => set_stable v true)
      (find (fun x => PyStr.eqb (version_id x) id) vs).
Proof.
  induction vs as [|x vs IH]; [reflexivity|].
  cbn [mark_first find].
  destruct (PyStr.eqb (version_id x) id) eqn:E; cbn [find set_stable version_id];
    rewrite E; [reflexivity|exact IH].
Qed.

Lemma mark_first_flags id vs :
  map active (mark_first id vs) = map active vs.
Proof.
  induction vs as [|x vs IH]; [reflexivity|]. cbn [mark_first].
  destruct (PyStr.eqb (version_id x) id); cbn [map]; [reflexivity|].
  rewrite IH. reflexivity.
Qed.

Lemma set_stable_same v : stable v = true -> set_stable v true = v.
Proof. destruct v. cbn. intros ->. reflexivity. Qed.

Lemma mark_first_same id vs :
  (forall v, find (fun x => PyStr.eqb (version_id x) id) vs = Some v ->
             stable v = true) ->
  mark_first id vs = vs.
Proof.
  induction vs as [|x vs IH]; intros H; [reflexivity|].
  cbn [mark_first find] in *.
  destruct (PyStr.eqb (version_id x) id).
  - rewrite set_stable_same; [reflexivity|]. apply H. reflexivity.
  - rewrite IH; [reflexivity|exact H].
Qed.

Lemma mark_first_kept id vs w :
  In w vs -> stable w = true -> In w (mark_first id vs).
Proof.
  induction vs as [|x vs IH]; intros Hin Hs; [destruct Hin|].
  cbn [mark_first]. destruct Hin as [->|Hin].
  - destruct (PyStr.eqb (version_id w) id); [|left; reflexivity].
    left. apply set_stable_same. exact Hs.
  - destruct (PyStr.eqb (version_id x) id); right; [exact Hin|].
    apply IH; assumption.
Qed.

Section WithPlatform.

Variable P : Platform.

(** X6: a version that [create_version] returned is the one
    [_find_version] finds under its identifier, which no version had
    before; the other identifiers are found as before. *)
Theorem created_version_is_found path d kind s v s' :
  create_version P path d kind s = (Ok v, s') ->
  _find_version (mem s') (version_id v) = Some v
  /\ _find_version (mem s) (version_id v) = None
  /\ (forall id, id <> version_id v ->
        _find_version (mem s') id = _find_version (mem s) id).
Proof.
  intros H.
  destruct (@create_ok_inv P _ _ _ _ _ _ H) as (c & id & Hf & Hn & Hv & Hm & _).
  assert (Hid : version_id v = id) by (rewrite Hv; reflexivity).
  assert (Hfresh : ~ In (version_id v) (map version_id (versions (mem s)))).
  { rewrite Hid. eapply next_version_id_not_in. exact Hn. }
  unfold _find_version. rewrite Hm. cbn [versions add_entry].
  split; [apply find_app_fresh; exact Hfresh|].
  split; [apply find_version_none; exact Hfresh|].
  intros id' Hne. apply find_app_other. exact Hne.
Qed.

(** X7: after [activate_version] returned, [get_active_version] gives
    the version found under that identifier, now active, whether
    identifiers are unique or not. *)
Theorem activated_version_is_active id s s' :
  activate_version P id s = (Ok tt, s') ->
  exists v,
    _find_version (mem s) id = Some v
    /\ get_active_version (mem s') = Some (set_active v true)
    /\ _find_version (mem s') id = Some (set_active v true).
Proof.
  rewrite activate_version_eq.
  destruct (_find_version (mem s) id) as [v|] eqn:F; [|discriminate].
  destruct (integrity_ok P (world s) v); [|discriminate].
  intros H. injection H as <-. exists v. split; [reflexivity|].
  unfold get_active_version, _find_version in *. cbn.
  rewrite find_active_activated, find_id_activated, F. cbn.
  apply find_some in F. destruct F as [_ F]. rewrite F. tauto.
Qed.

(** X8: [mark_as_stable] of a recorded identifier returns whatever the
    state of the file of the version: the version found under the
    identifier is stable afterwards, the versions that were stable still
    are, and no [active] flag changes; on a version that is stable
    already, the versions are left as they are. *)
Theorem marked_version_is_stable id s v :
  _find_version (mem s) id = Some v ->
  exists s',
    mark_as_stable P id s = (Ok tt, s')
    /\ _find_version (mem s') id = Some (set_stable v true)
    /\ In (set_stable v true) (get_stable_versions (mem s'))
    /\ (forall w, In w (get_stable_versions (mem s)) ->
          In w (get_stable_versions (mem s')))
    /\ map active (versions (mem s')) = map active (versions (mem s))
    /\ (stable v = true -> versions (mem s') = versions (mem s)).
Proof.
  intros F. rewrite mark_as_stable_eq, F. eexists. split; [reflexivity|].
  unfold _find_version, get_stable_versions in *. cbn.
  assert (Hfound : find (fun x => PyStr.eqb (version_id x) id)
                     (mark_first id (versions (mem s)))
                   = Some (set_stable v true))
    by (rewrite find_mark_first, F; reflexivity).
  split; [exact Hfound|].
  split; [apply filter_In; split;
          [apply find_some in Hfound; tauto|reflexivity]|].
  split.
  - intros w Hw. apply filter_In in Hw. destruct Hw as [Hin Hs].
    apply filter_In. split; [|exact Hs]. apply mark_first_kept; assumption.
  - split; [apply mark_first_flags|].
    intros Hs. apply mark_first_same. intros v' Hv'. congruence.
Qed.

Lemma restored_world w v id c :
  restorable w v id = true ->
  files w (snapshot_path (file v) id) = Some c ->
  copy_world (snapshot_path (file v) id) (file v) w = fs_set (file v) c w.
Proof.
  unfold restorable, copy_world. intros Hr Hc. rewrite Hc in *.
  apply negb_true_iff in Hr. apply orb_false_iff in Hr.
  destruct Hr as [-> ->]. reflexivity.
Qed.

Lemma integrity_ok_restored w v c :
  integrity_ok P (fs_set (file v) c w) v
  = PyStr.eqb (sha256_hex P c) (hash v).
Proof. unfold integrity_ok. rewrite fs_set_same. reflexivity. Qed.

Lemma save_world_other l w p :
  p <> VERSION_FILE -> files (save_world P l w) p = files w p.
Proof.
  intros Hne. unfold save_world.
  destruct (readonly w VERSION_FILE); [reflexivity|].
  apply fs_set_other. apply eqb_neq. exact Hne.
Qed.

Lemma save_world_tick l w : tick (save_world P l w) = tick w.
Proof. unfold save_world. destruct (readonly w VERSION_FILE); reflexivity. Qed.

(** X9: the rollback to a version whose live file fails the integrity
    check, and whose snapshot has the recorded hash and can be copied
    back, returns: the live file then has the content of the snapshot, the
    version is the active one, and the history has two more entries, the
    activation and the rollback. *)
Theorem rollback_restores_snapshot id s v c :
  _find_version (mem s) id = Some v ->
  integrity_ok P (world s) v = false ->
  restorable (world s) v id = true ->
  files (world s) (snapshot_path (file v) id) = Some c ->
  sha256_hex P c = hash v ->
  file v <> VERSION_FILE ->
  exists s',
    rollback_to_version P id s = (Ok tt, s')
    /\ files (world s') (file v) = Some c
    /\ integrity_ok P (world s') v = true
    /\ get_active_version (mem s') = Some (set_active v true)
    /\ history_list (mem s')
       = history_list (mem s)
         ++ [history_entry P (u "activate") id (tick (world s));
             history_entry P (u "rollback") id (S (tick (world s)))].
Proof.
  intros F Hi Hr Hc Hh Hne.
  rewrite rollback_to_version_eq, F, Hi, Hr, (@restored_world _ _ _ _ Hr Hc).
  unfold rollback_tail. rewrite activate_version_eq.
  cbn [mem with_world world]. rewrite F, integrity_ok_restored, Hh, eqb_refl.
  eexists. split; [reflexivity|].
  assert (Hfile : forall l,
             files (save_world P l
                      (tick_world 1 (fs_set (file v) c (world s))))
               (file v) = Some c).
  { intros l. rewrite save_world_other by exact Hne. cbn. rewrite eqb_refl.
    reflexivity. }
  cbn [world mem after_activate tick_world files with_world].
  split; [apply Hfile|].
  split.
  { unfold integrity_ok. cbn [files tick_world]. rewrite Hfile, Hh.
    apply eqb_refl. }
  split.
  { unfold get_active_version. cbn [versions add_entry].
    rewrite find_active_activated. unfold _find_version in F. rewrite F.
    reflexivity. }
  unfold history_list at 1. cbn [history add_entry].
  unfold history_list at 1. cbn [history add_entry].
  rewrite <- app_assoc. cbn [app world mem]. rewrite save_world_tick.
  reflexivity.
Qed.

(** X10: a rollback can fail after it has written: when the live file
    fails the integrity check and the snapshot that is copied back does
    not have the recorded hash either, [VersionIntegrityError] is raised
    and the live file is left with the content of the snapshot; the ledger
    is as before. *)
Theorem failed_rollback_overwrites id s v c :
  _find_version (mem s) id = Some v ->
  integrity_ok P (world s) v = false ->
  restorable (world s) v id = true ->
  files (world s) (snapshot_path (file v) id) = Some c ->
  sha256_hex P c <> hash v ->
  exists s',
    rollback_to_version P id s = (Raise VersionIntegrityError, s')
    /\ files (world s') (file v) = Some c
    /\ mem s' = mem s.
Proof.
  intros F Hi Hr Hc Hh.
  rewrite rollback_to_version_eq, F, Hi, Hr, (@restored_world _ _ _ _ Hr Hc).
  unfold rollback_tail. rewrite activate_version_eq.
  cbn [mem with_world world]. rewrite F, integrity_ok_restored.
  apply eqb_neq in Hh. rewrite Hh.
  eexists. split; [reflexivity|]. cbn [world with_world mem].
  split; [apply fs_set_same|reflexivity].
Qed.

End WithPlatform.

Lemma created_version_is_found_witness :
  exists v s',
    create_version Demo.platform (u "core.md") [] (u "patch") Demo.two
    = (Ok v, s')
    /\ _find_version (mem s') (version_id v) = Some v.
Proof.
  assert (H : exists v s',
             create_version Demo.platform (u "core.md") [] (u "patch")
               Demo.two = (Ok v, s'))
    by (eexists; eexists; vm_compute; reflexivity).
  destruct H as (v & s' & H). exists v, s'. split; [exact H|].
  exact (proj1 (@created_version_is_found _ _ _ _ _ _ _ H)).
Defined.

Lemma activated_version_is_active_witness :
  exists s' v,
    activate_version Demo.platform (u "v1.1.0") Demo.two = (Ok tt, s')
    /\ get_active_version (mem s') = Some (set_active v true).
Proof.
  assert (H : exists s',
             activate_version Demo.platform (u "v1.1.0") Demo.two
             = (Ok tt, s'))
    by (eexists; vm_compute; reflexivity).
  destruct H as (s' & H).
  destruct (@activated_version_is_active _ _ _ _ H) as (v & _ & Hv & _).
  exists s', v. split; [exact H|exact Hv].
Defined.

(** Version 1.1.0 of [Cases.missing], whose file is read by nobody. *)
Lemma marked_version_is_stable_witness :
  exists s',
    mark_as_stable Demo.platform (u "v1.0.0") Cases.missing = (Ok tt, s')
    /\ In (set_stable
             (Demo.ver "v1.0.0" "a.md" (Demo.bytes "tide") false false) true)
          (get_stable_versions (mem s')).
Proof.
  destruct (@marked_version_is_stable Demo.platform (u "v1.0.0")
              Cases.missing
              (Demo.ver "v1.0.0" "a.md" (Demo.bytes "tide") false false)
              eq_refl) as (s' & H1 & _ & H2 & _).
  exists s'. split; [exact H1|exact H2].
Defined.

Lemma rollback_restores_snapshot_witness :
  exists s',
    rollback_to_version Demo.platform (u "v1.0.0")
      (Cases.drifted (Demo.bytes "tide")) = (Ok tt, s')
    /\ files (world s') (u "core.md") = Some (Demo.bytes "tide").
Proof.
  destruct (@rollback_restores_snapshot Demo.platform (u "v1.0.0")
              (Cases.drifted (Demo.bytes "tide"))
              (Demo.ver "v1.0.0" "core.md" (Demo.bytes "tide") true false)
              (Demo.bytes "tide") eq_refl eq_refl eq_refl eq_refl eq_refl)
    as (s' & H1 & H2 & _).
  - discriminate.
  - exists s'. split; [exact H1|exact H2].
Defined.

Lemma failed_rollback_overwrites_witness :
  exists s',
    rollback_to_version Demo.platform (u "v1.0.0")
      (Cases.drifted (Demo.bytes "dime")) = (Raise VersionIntegrityError, s')
    /\ files (world s') (u "core.md") = Some (Demo.bytes "dime").
Proof.
  destruct (@failed_rollback_overwrites Demo.platform (u "v1.0.0")
              (Cases.drifted (Demo.bytes "dime"))
              (Demo.ver "v1.0.0" "core.md" (Demo.bytes "tide") true false)
              (Demo.bytes "dime") eq_refl eq_refl eq_refl eq_refl)
    as (s' & H1 & H2 & _).
  - discriminate.
  - exists s'. split; [exact H1|exact H2].
Defined.

End RoundTrips.

(** ** The file of the active version *)

Module ActiveFile.
Import PyIntFacts IntStr SemVerFacts OpFacts Run Monotone Activation
  Persistence.

Section WithPlatform.

Variable P : Platform.

Lemma integrity_ok_inv w v :
  integrity_ok P w v = true ->
  exists c, files w (file v) = Some c /\ sha256_hex P c = hash v.
Proof.
  unfold integrity_ok. destruct (files w (file v)) as [c|]; [|discriminate].
  intros H. apply eqb_eq in H. exists c. tauto.
Qed.

Lemma activate_hash id s s' v :
  activate_version P id s = (Ok tt, s') ->
  _find_version (mem s) id = Some v ->
  file v <> VERSION_FILE ->
  exists c, files (world s') (file v) = Some c /\ sha256_hex P c = hash v.
Proof.
  rewrite activate_version_eq. intros H F Hne. rewrite F in H.
  destruct (integrity_ok P (world s) v) eqn:Hi; [|discriminate].
  injection H as <-. apply integrity_ok_inv in Hi.
  destruct Hi as (c & Hc & Hh). exists c. split; [|exact Hh].
  cbn [world after_activate]. unfold save_world.
  destruct (readonly (tick_world 1 (world s)) VERSION_FILE); [exact Hc|].
  rewrite fs_set_other by (apply eqb_neq; exact Hne). exact Hc.
Qed.

Lemma rollback_tail_hash id s s' v :
  rollback_tail P id s = (Ok tt, s') ->
  _find_version (mem s) id = Some v ->
  file v <> VERSION_FILE ->
  exists c, files (world s') (file v) = Some c /\ sha256_hex P c = hash v.
Proof.
  unfold rollback_tail. intros H F Hne.
  destruct (activate_version P id s) as [[[]|e] s2] eqn:Ea; [|discriminate].
  injection H as <-. cbn [world tick_world files].
  eapply activate_hash; eassumption.
Qed.

(** X23: the file of a version that was just activated has the recorded
    hash: after [activate_version] or [rollback_to_version] returned, the
    live file of the version exists and its SHA-256 digest is the one in
    the ledger, for every version whose file is not the ledger itself. *)
Theorem active_file_has_recorded_hash id s s' v :
  _find_version (mem s) id = Some v ->
  file v <> VERSION_FILE ->
  activate_version P id s = (Ok tt, s')
  \/ rollback_to_version P id s = (Ok tt, s') ->
  exists c, files (world s') (file v) = Some c /\ sha256_hex P c = hash v.
Proof.
  intros F Hne [H|H].
  - eapply activate_hash; eassumption.
  - rewrite rollback_to_version_eq, F in H.
    destruct (integrity_ok P (world s) v).
    + eapply rollback_tail_hash; eassumption.
    + destruct (restorable (world s) v id); [|discriminate].
      eapply rollback_tail_hash; [exact H|exact F|exact Hne].
Qed.

End WithPlatform.

(** The rollback that copies the snapshot of [Cases.drifted] back. *)
Lemma active_file_has_recorded_hash_witness :
  exists s' c,
    rollback_to_version Demo.platform (u "v1.0.0")
      (Cases.drifted (Demo.bytes "tide")) = (Ok tt, s')
    /\ files (world s') (u "core.md") = Some c
    /\ Demo.digest c = Demo.digest (Demo.bytes "tide").
Proof.
  assert (H : exists s',
             rollback_to_version Demo.platform (u "v1.0.0")
               (Cases.drifted (Demo.bytes "tide")) = (Ok tt, s'))
    by (eexists; vm_compute; reflexivity).
  destruct H as (s' & H).
  destruct (@active_file_has_recorded_hash Demo.platform (u "v1.0.0")
              (Cases.drifted (Demo.bytes "tide")) s'
              (Demo.ver "v1.0.0" "core.md" (Demo.bytes "tide") true false)
              eq_refl) as (c & H1 & H2).
  - discriminate.
  - right. exact H.
  - exists s', c. split; [exact H|]. split; [exact H1|exact H2].
Defined.

End ActiveFile.

(** ** A controller started on the files another one left *)

Module Restart.
Import PyIntFacts IntStr SemVerFacts OpFacts Run Monotone Activation
  Persistence.

Section WithPlatform.

Variable P : Platform.

Lemma init_eq s :
  init P s =
  match files (world s) VERSION_FILE with
  | None => (Ok tt, {| mem := empty_ledger; world := world s |})
  | Some content =>
      match json_load P content with
      | JsonLedger l => (Ok tt, {| mem := l; world := world s |})
      | JsonDecodeError =>
          if readonly (world s) (archive_path P (tick (world s)))
          then (Raise OSError, with_world s (tick_world 1 (world s)))
          else (Ok tt,
                {| mem := empty_ledger;
                   world := fs_set (archive_path P (tick (world s))) content
                              (tick_world 1 (world s)) |})
      | JsonUnicodeError => (Raise UnicodeDecodeError, s)
      | JsonOtherShape => (Raise KeyError, s)
      | JsonNotObject => (Raise TypeError, s)
      end
  end.
Proof.
  unfold init, _load_versions.
  unfold bind at 1. unfold bind at 1. rewrite exists_eq.
  destruct (files (world s) VERSION_FILE) as [content|] eqn:Hf;
    [|reflexivity].
  cbv beta iota.
  erewrite bind_ok by (apply read_bytes_eq; exact Hf).
  destruct (json_load P content); try reflexivity.
  unfold _backup_corrupt_file.
  unfold bind at 1. unfold bind at 1. rewrite now_eq.
  cbv beta iota zeta. unfold copy2.
  unfold bind at 1.
  erewrite read_bytes_eq by (cbn [with_world world tick_world files]; exact Hf).
  cbv beta iota.
  change (basename VERSION_FILE) with VERSION_FILE.
  fold (archive_path P (tick (world s))).
  rewrite (proj2 (eqb_neq _ _)).
  2:{ apply eqb_neq. apply archive_path_not_version_file. }
  unfold write_bytes. cbn [with_world world tick_world readonly mem].
  unfold archive_path in *.
  destruct (readonly (world s) _); reflexivity.
Qed.


Lemma saved_file c s s' :
  saving c = true ->
  exec P c s = (Ok tt, s') ->
  readonly (world s) VERSION_FILE = false ->
  files (world s') VERSION_FILE = Some (json_dump P (mem s')).
Proof.
  intros Hc H Hro.
  destruct c as [p d t|id|id|id| |id1 id2]; try discriminate;
    cbn [exec forget] in H.
  - rewrite create_version_eq in H.
    destruct (files (world s) p) as [c|]; [|discriminate].
    destruct (next_version_id P t (versions (mem s))) as [id|];
      [|discriminate].
    cbn in H. injection H as <-. cbn [mem world].
    rewrite copy_world_other by apply backup_path_not_version_file.
    apply save_world_written. exact Hro.
  - rewrite activate_version_eq in H.
    destruct (_find_version (mem s) id) as [v|]; [|discriminate].
    destruct (integrity_ok P (world s) v); [|discriminate].
    injection H as <-. cbn [mem world after_activate].
    apply save_world_written. exact Hro.
  - rewrite mark_as_stable_eq in H.
    destruct (_find_version (mem s) id) as [v|]; [|discriminate].
    injection H as <-. cbn [mem world after_mark].
    apply save_world_written. exact Hro.
Qed.

(** X11: the ledger survives a restart: after a [create_version], an
    [activate_version] or a [mark_as_stable] that returned, with a version
    file that can be written and a ledger that [json.load] reads back from
    what [json.dump] wrote, a new controller on the same files starts with
    the ledger the first one had in memory. *)
Theorem ledger_survives_restart c s s' m0 :
  saving c = true ->
  exec P c s = (Ok tt, s') ->
  readonly (world s) VERSION_FILE = false ->
  json_load P (json_dump P (mem s')) = JsonLedger (mem s') ->
  init P {| mem := m0; world := world s' |} = (Ok tt, s').
Proof.
  intros Hc H Hro Hj. rewrite init_eq. cbn [world].
  rewrite (saved_file _ _ Hc H Hro), Hj. rewrite state_eta. reflexivity.
Qed.

End WithPlatform.

(** A first version is created, and a second controller is started. *)
Lemma ledger_survives_restart_witness :
  exists s',
    exec (Cases.reloading Cases.first_ledger)
      (Create (u "core.md") [] (u "minor"))
      (Demo.start Demo.core_fs Demo.writable) = (Ok tt, s')
    /\ mem s' = Cases.first_ledger
    /\ init (Cases.reloading Cases.first_ledger)
         {| mem := empty_ledger; world := world s' |} = (Ok tt, s').
Proof.
  assert (H : exists s',
             exec (Cases.reloading Cases.first_ledger)
               (Create (u "core.md") [] (u "minor"))
               (Demo.start Demo.core_fs Demo.writable) = (Ok tt, s')
             /\ mem s' = Cases.first_ledger)
    by (eexists; split; vm_compute; reflexivity).
  destruct H as (s' & H & Hm). exists s'. split; [exact H|].
  split; [exact Hm|].
  apply (@ledger_survives_restart (Cases.reloading Cases.first_ledger)
           (Create (u "core.md") [] (u "minor"))
           (Demo.start Demo.core_fs Demo.writable) s' empty_ledger
           eq_refl H eq_refl).
  rewrite Hm. vm_compute. reflexivity.
Defined.

End Restart.

(** ** A comparison that writes *)

Module Restores.
Import PyIntFacts IntStr SemVerFacts OpFacts Run Monotone Activation
  Persistence Comparison.

Lemma then_ret A (m : M A) s a s' :
  m s = (Ok a, s') -> (m ;;; ret tt) s = (Ok tt, s').
Proof. intros H. unfold bind. rewrite H. reflexivity. Qed.

(** X13: a comparison can write: when the live file of the first
    version is missing and its snapshot can be copied back,
    [compare_versions] copies it back and compares its text, whatever
    hash the version records; the restored file is left in place. *)
Theorem compare_restores_missing_file id1 id2 s v1 v2 c1 l1 l2 :
  _find_version (mem s) id1 = Some v1 ->
  _find_version (mem s) id2 = Some v2 ->
  files (world s) (file v1) = None ->
  restorable (world s) v1 id1 = true ->
  files (world s) (snapshot_path (file v1) id1) = Some c1 ->
  Text.read_text_lines c1 = Some l1 ->
  text_at (world s) (file v2) = Some l2 ->
  compare_versions id1 id2 s
  = (Ok (compare_contents id1 id2 l1 l2),
     with_world s (fs_set (file v1) c1 (world s))).
Proof.
  intros F1 F2 Hmiss Hr Hc Hl1 T2.
  destruct (text_at_inv _ _ T2) as (c2 & Hc2 & Hl2).
  assert (Hne : PyStr.eqb (file v2) (file v1) = false).
  { apply eqb_neq. intros E. rewrite E in Hc2. congruence. }
  pose (s1 := with_world s (fs_set (file v1) c1 (world s))).
  assert (Hs1 : _restore_from_backup id1 s = (Ok true, s1)).
  { rewrite restore_from_backup_eq, F1, Hr.
    unfold restorable, copy_world in *. rewrite Hc in *.
    apply negb_true_iff in Hr. apply orb_false_iff in Hr.
    destruct Hr as [-> ->]. reflexivity. }
  assert (L1 : live (world s1) (file v1) = true).
  { unfold live, s1. cbn [world with_world]. rewrite fs_set_same.
    reflexivity. }
  assert (L2 : live (world s1) (file v2) = true).
  { unfold live, s1. cbn [world with_world].
    rewrite fs_set_other by exact Hne. rewrite Hc2. reflexivity. }
  unfold compare_versions. erewrite bind_ok by apply get_eq.
  rewrite F1, F2. cbv zeta.
  erewrite bind_ok by apply exists_live.
  erewrite bind_ok by apply exists_live.
  unfold live at 1 2. rewrite Hmiss, Hc2. cbn [negb orb].
  erewrite bind_ok.
  2:{ erewrite bind_ok by apply exists_live.
      unfold live at 1. rewrite Hmiss. cbn [negb].
      erewrite bind_ok by (eapply then_ret; exact Hs1).
      erewrite bind_ok by apply exists_live.
      rewrite L2. cbn [negb].
      erewrite bind_ok by reflexivity.
      erewrite bind_ok by apply exists_live.
      erewrite bind_ok by apply exists_live.
      rewrite L1, L2. reflexivity. }
  rewrite compare_reads. unfold text_at, s1. cbn [world with_world].
  rewrite fs_set_same, Hl1, fs_set_other by exact Hne.
  rewrite Hc2, Hl2. reflexivity.
Qed.

(** The missing file of [Cases.missing] comes back with the content of
    its snapshot, which is not the content the version was created from. *)
Lemma compare_restores_missing_file_witness :
  compare_versions (u "v1.0.0") (u "v1.1.0") Cases.missing
  = (Ok (compare_contents (u "v1.0.0") (u "v1.1.0") [u "dime"] [u "diet"]),
     with_world Cases.missing
       (fs_set (u "a.md") (Demo.bytes "dime") (world Cases.missing))).
Proof.
  apply (@compare_restores_missing_file (u "v1.0.0") (u "v1.1.0")
           Cases.missing
           (Demo.ver "v1.0.0" "a.md" (Demo.bytes "tide") false false)
           (Demo.ver "v1.1.0" "b.md" (Demo.bytes "diet") false false)
           (Demo.bytes "dime") [u "dime"] [u "diet"]);
    reflexivity.
Defined.

End Restores.

(** ** All the ways a comparison ends *)

Module Outcomes.
Import PyIntFacts IntStr SemVerFacts OpFacts Run Monotone Activation
  Persistence Comparison.

Lemma restore_step id v s :
  _find_version (mem s) id = Some v ->
  (e <- exists_ (file v) ;;
   if negb e then _restore_from_backup id ;;; ret tt else ret tt) s
  = (Ok tt, with_world s (restore_world (world s) v id)).
Proof.
  intros Hf. erewrite bind_ok by apply exists_live. unfold restore_world.
  destruct (live (world s) (file v)); cbn [negb].
  - unfold ret, with_world. rewrite state_eta. reflexivity.
  - unfold bind. rewrite restore_from_backup_eq, Hf. reflexivity.
Qed.

Lemma restore_world_same w v id :
  live w (file v) = true -> restore_world w v id = w.
Proof. unfold restore_world. intros ->. reflexivity. Qed.

Lemma compare_versions_eq id1 id2 s :
  compare_versions id1 id2 s =
  match _find_version (mem s) id1, _find_version (mem s) id2 with
  | Some v1, Some v2 =>
      let s' := with_world s (compare_world (world s) v1 id1 v2 id2) in
      match files (world s') (file v1), files (world s') (file v2) with
      | Some _, Some _ =>
          match text_at (world s') (file v1), text_at (world s') (file v2)
          with
          | Some l1, Some l2 => (Ok (compare_contents id1 id2 l1 l2), s')
          | _, _ => (Raise UnicodeDecodeError, s')
          end
      | _, _ => (Raise FileNotFoundError, s')
      end
  | _, _ => (Raise VersionNotFoundError, s)
  end.
Proof.
  unfold compare_versions. erewrite bind_ok by apply get_eq.
  destruct (_find_version (mem s) id1) as [v1|] eqn:F1; [|reflexivity].
  destruct (_find_version (mem s) id2) as [v2|] eqn:F2; [|reflexivity].
  cbv zeta.
  erewrite bind_ok by apply exists_live.
  erewrite bind_ok by apply exists_live.
  set (w' := compare_world (world s) v1 id1 v2 id2).
  assert (Hreads : forall s0,
             live (world s0) (file v1) = true ->
             live (world s0) (file v2) = true ->
             (content1 <- read_lines (file v1) ;;
              content2 <- read_lines (file v2) ;;
              ret (compare_contents id1 id2 content1 content2)) s0
             = match files (world s0) (file v1), files (world s0) (file v2)
               with
               | Some _, Some _ =>
                   match text_at (world s0) (file v1),
                         text_at (world s0) (file v2) with
                   | Some l1, Some l2 =>
                       (Ok (compare_contents id1 id2 l1 l2), s0)
                   | _, _ => (Raise UnicodeDecodeError, s0)
                   end
               | _, _ => (Raise FileNotFoundError, s0)
               end).
  { intros s0 L1 L2. rewrite compare_reads. unfold live in L1, L2.
    destruct (files (world s0) (file v1)); [|discriminate].
    destruct (files (world s0) (file v2)); [|discriminate].
    destruct (text_at (world s0) (file v1)); [|reflexivity].
    destruct (text_at (world s0) (file v2)); reflexivity. }
  destruct (negb (live (world s) (file v1)) || negb (live (world s) (file v2)))
    eqn:Ec.
  - (* a file is missing: the restores are tried *)
    assert (Hblock :
              (e1 <- exists_ (file v1) ;;
               (if negb e1 then _restore_from_backup id1 ;;; ret tt
                else ret tt) ;;;
               e2 <- exists_ (file v2) ;;
               (if negb e2 then _restore_from_backup id2 ;;; ret tt
                else ret tt) ;;;
               e1 <- exists_ (file v1) ;;
               e2 <- exists_ (file v2) ;;
               (if negb e1 || negb e2 then raise FileNotFoundError
                else ret tt)) s
              = if live w' (file v1) && live w' (file v2)
                then (Ok tt, with_world s w')
                else (Raise FileNotFoundError, with_world s w')).
    { pose proof (@restore_step id1 v1 s F1) as R1.
      unfold bind at 1. unfold bind at 1 in R1.
      rewrite exists_live in *. cbv beta iota in *.
      unfold bind at 1. rewrite R1. cbv beta iota.
      set (s1 := with_world s (restore_world (world s) v1 id1)).
      pose proof (@restore_step id2 v2 s1 F2) as R2.
      unfold bind at 1. unfold bind at 1 in R2.
      rewrite exists_live in *. cbv beta iota in *.
      unfold bind at 1. rewrite R2. cbv beta iota.
      change (with_world s1 (restore_world (world s1) v2 id2))
        with (with_world s w').
      erewrite bind_ok by apply exists_live.
      erewrite bind_ok by apply exists_live.
      cbn [world with_world].
      destruct (live w' (file v1)), (live w' (file v2)); reflexivity. }
    unfold bind at 1. rewrite Hblock.
    destruct (live w' (file v1)) eqn:L1; destruct (live w' (file v2)) eqn:L2;
      cbn [andb]; cbv beta iota.
    + apply Hreads; assumption.
    + unfold live in L1, L2. cbn [world with_world].
      destruct (files w' (file v1)); [|reflexivity].
      destruct (files w' (file v2)); [discriminate|reflexivity].
    + unfold live in L1. cbn [world with_world].
      destruct (files w' (file v1)); [discriminate|reflexivity].
    + unfold live in L1. cbn [world with_world].
      destruct (files w' (file v1)); [discriminate|reflexivity].
  - (* both files are there *)
    apply orb_false_iff in Ec. destruct Ec as [L1 L2].
    apply negb_false_iff in L1. apply negb_false_iff in L2.
    assert (Hw : w' = world s).
    { unfold w', compare_world.
      rewrite (@restore_world_same _ _ id1 L1), (@restore_world_same _ _ id2 L2).
      reflexivity. }
    rewrite Hw. unfold with_world. rewrite state_eta.
    erewrite bind_ok by reflexivity. apply Hreads; assumption.
Qed.

(** X22: the ways [compare_versions] ends on regular files.  When it
    raises [VersionNotFoundError], an identifier is not recorded and
    nothing is changed; otherwise it first copies back the snapshot of
    each file that is missing; then, when it raises [FileNotFoundError], a
    file is still missing; when it raises [UnicodeDecodeError], both files
    are there and one is not UTF-8 text; and when it returns, it returns
    the comparison of the two texts.  In these three cases the files
    copied back stay, and the ledger is never changed. *)
Theorem compare_outcomes id1 id2 s :
  match compare_versions id1 id2 s with
  | (Ok r, s') =>
      exists v1 v2 l1 l2,
        _find_version (mem s) id1 = Some v1
        /\ _find_version (mem s) id2 = Some v2
        /\ s' = with_world s (compare_world (world s) v1 id1 v2 id2)
        /\ text_at (world s') (file v1) = Some l1
        /\ text_at (world s') (file v2) = Some l2
        /\ r = compare_contents id1 id2 l1 l2
  | (Raise VersionNotFoundError, s') =>
      s' = s /\ (~ In id1 (ids (mem s)) \/ ~ In id2 (ids (mem s)))
  | (Raise FileNotFoundError, s') =>
      exists v1 v2,
        _find_version (mem s) id1 = Some v1
        /\ _find_version (mem s) id2 = Some v2
        /\ s' = with_world s (compare_world (world s) v1 id1 v2 id2)
        /\ (files (world s') (file v1) = None
            \/ files (world s') (file v2) = None)
  | (Raise UnicodeDecodeError, s') =>
      exists v1 v2 c1 c2,
        _find_version (mem s) id1 = Some v1
        /\ _find_version (mem s) id2 = Some v2
        /\ s' = with_world s (compare_world (world s) v1 id1 v2 id2)
        /\ files (world s') (file v1) = Some c1
        /\ files (world s') (file v2) = Some c2
        /\ (Text.read_text_lines c1 = None \/ Text.read_text_lines c2 = None)
  | (Raise _, _) => True
  end.
Proof.
  rewrite compare_versions_eq.
  destruct (_find_version (mem s) id1) as [v1|] eqn:F1.
  2:{ split; [reflexivity|]. left. apply find_version_none. exact F1. }
  destruct (_find_version (mem s) id2) as [v2|] eqn:F2.
  2:{ split; [reflexivity|]. right. apply find_version_none. exact F2. }
  cbv zeta.
  set (s' := with_world s (compare_world (world s) v1 id1 v2 id2)).
  unfold text_at.
  destruct (files (world s') (file v1)) as [c1|] eqn:E1.
  2:{ exists v1, v2. tauto. }
  destruct (files (world s') (file v2)) as [c2|] eqn:E2.
  2:{ exists v1, v2. tauto. }
  destruct (Text.read_text_lines c1) as [l1|] eqn:T1.
  2:{ exists v1, v2, c1, c2. tauto. }
  destruct (Text.read_text_lines c2) as [l2|] eqn:T2.
  2:{ exists v1, v2, c1, c2. tauto. }
  exists v1, v2, l1, l2. unfold text_at. rewrite E1, E2. tauto.
Qed.

End Outcomes.

(** ** Identifiers at the edges *)

Module Identifiers.
Import PyIntFacts IntStr SemVerFacts OpFacts Run Monotone Activation
  Persistence.

Lemma map_opt_none A B (f : A -> option B) l x :
  In x l -> f x = None -> map_opt f l = None.
Proof.
  induction l as [|y l IH]; intros Hin Hx; [destruct Hin|].
  cbn [map_opt]. destruct Hin as [->|Hin]; [rewrite Hx; reflexivity|].
  destruct (f y); [|reflexivity]. rewrite IH by assumption. reflexivity.
Qed.

Section WithPlatform.

Variable P : Platform.

Lemma increment_of_key id kind k :
  version_key P id = Some k ->
  _increment_version P id kind
  = Some (let parts := pad3 k in
          if PyStr.eqb kind (u "major") then
            fmt (nth 0 parts 0 + 1) 0 0
          else if PyStr.eqb kind (u "minor") then
            fmt (nth 0 parts 0) (nth 1 parts 0 + 1) 0
          else fmt (nth 0 parts 0) (nth 1 parts 0) (nth 2 parts 0 + 1))%Z.
Proof.
  unfold version_key, _increment_version. intros ->. cbv zeta.
  destruct (PyStr.eqb kind (u "major")); [reflexivity|].
  destruct (PyStr.eqb kind (u "minor")); reflexivity.
Qed.

(** X14: [_increment_version] at the edges.  A version type that is
    neither [major] nor [minor] increments the patch number; a leading
    [v] more or less changes nothing; an identifier with a part that is not
    an integer has no successor (the [ValueError] of [int]); and for an
    identifier of fewer than 4300 characters, whose numbers and their
    successors stay within the digits CPython converts, missing numbers
    count as 0 and numbers after the third are dropped. *)
Theorem increment_edge_cases id kind :
  (PyStr.eqb kind (u "major") = false ->
   PyStr.eqb kind (u "minor") = false ->
   _increment_version P id kind = _increment_version P id (u "patch"))
  /\ _increment_version P (118%N :: id) kind = _increment_version P id kind
  /\ (version_key P id = None -> _increment_version P id kind = None)
  /\ (length id < 4300 ->
      (forall m, version_key P id = Some [m] ->
         _increment_version P id (u "major") = Some (fmt (m + 1) 0 0)
         /\ _increment_version P id (u "minor") = Some (fmt m 1 0)
         /\ _increment_version P id (u "patch") = Some (fmt m 0 1))
      /\ (forall m n, version_key P id = Some [m; n] ->
            _increment_version P id (u "major") = Some (fmt (m + 1) 0 0)
            /\ _increment_version P id (u "minor") = Some (fmt m (n + 1) 0)
            /\ _increment_version P id (u "patch") = Some (fmt m n 1))
      /\ (forall m n p rest, version_key P id = Some (m :: n :: p :: rest) ->
            _increment_version P id (u "major") = Some (fmt (m + 1) 0 0)
            /\ _increment_version P id (u "minor") = Some (fmt m (n + 1) 0)
            /\ _increment_version P id (u "patch")
               = Some (fmt m n (p + 1)))).
Proof.
  split.
  { intros H1 H2. unfold _increment_version.
    destruct (map_opt (py_int P) (split 46 (lstrip 118 id))); [|reflexivity].
    rewrite H1, H2. reflexivity. }
  split; [reflexivity|].
  split; [apply increment_none|].
  intros _. split.
  { intros m H. rewrite !(@increment_of_key _ _ _ H). repeat split. }
  split.
  { intros m n H. rewrite !(@increment_of_key _ _ _ H). repeat split. }
  intros m n p rest H. rewrite !(@increment_of_key _ _ _ H). repeat split.
Qed.

(** X15: one identifier that is not numeric blocks the ledger: as long
    as a recorded version has an identifier with a part [int] refuses,
    every [create_version] of an existing file raises [ValueError] and
    changes nothing, and so does [rollback_to_last_stable] when that
    version is stable. *)
Theorem malformed_id_blocks_create s v :
  In v (versions (mem s)) ->
  version_key P (version_id v) = None ->
  (forall path d kind c,
     files (world s) path = Some c ->
     create_version P path d kind s = (Raise ValueError, s))
  /\ (stable v = true ->
      rollback_to_last_stable P s = (Raise ValueError, s)).
Proof.
  intros Hin Hk.
  assert (Hkeyed : keyed P v = None) by (unfold keyed; rewrite Hk; reflexivity).
  split.
  - intros path d kind c Hf. rewrite create_version_eq, Hf.
    unfold next_version_id, sorted_versions_desc.
    rewrite (@map_opt_none _ _ _ _ _ Hin Hkeyed).
    destruct (versions (mem s)); [destruct Hin|reflexivity].
  - intros Hs. rewrite rollback_to_last_stable_eq.
    assert (Hin' : In v (get_stable_versions (mem s)))
      by (apply filter_In; split; assumption).
    unfold sorted_versions_desc.
    rewrite (@map_opt_none _ _ _ _ _ Hin' Hkeyed).
    destruct (get_stable_versions (mem s)); [destruct Hin'|reflexivity].
Qed.

End WithPlatform.

(** The successors of the two-part identifier [v2.7]. *)
Lemma increment_edge_cases_witness :
  _increment_version Demo.platform (u "v2.7") (u "major") = Some (u "v3.0.0")
  /\ _increment_version Demo.platform (u "v2.7") (u "minor")
     = Some (u "v2.8.0")
  /\ _increment_version Demo.platform (u "v2.7") (u "patch")
     = Some (u "v2.7.1").
Proof.
  destruct (@increment_edge_cases Demo.platform (u "v2.7") (u "patch"))
    as (_ & _ & _ & H).
  destruct H as (_ & H & _); [vm_compute; lia|].
  exact (H 2%Z 7%Z eq_refl).
Defined.

(** A release candidate among the versions. *)
Lemma malformed_id_blocks_create_witness :
  create_version Demo.platform (u "core.md") [] (u "minor")
    (Demo.state_of [Demo.ver "v1.0.0" "core.md" (Demo.bytes "tide") true true;
                    Demo.ver "v1.1.0-rc1" "core.md" (Demo.bytes "tide")
                      false false]
       Demo.core_fs Demo.writable)
  = (Raise ValueError,
     Demo.state_of [Demo.ver "v1.0.0" "core.md" (Demo.bytes "tide") true true;
                    Demo.ver "v1.1.0-rc1" "core.md" (Demo.bytes "tide")
                      false false]
       Demo.core_fs Demo.writable).
Proof.
  apply (proj1 (@malformed_id_blocks_create Demo.platform
                  (Demo.state_of
                     [Demo.ver "v1.0.0" "core.md" (Demo.bytes "tide") true true;
                      Demo.ver "v1.1.0-rc1" "core.md" (Demo.bytes "tide")
                        false false]
                     Demo.core_fs Demo.writable)
                  (Demo.ver "v1.1.0-rc1" "core.md" (Demo.bytes "tide")
                     false false)
                  (or_intror (or_introl eq_refl)) eq_refl)
          (u "core.md") [] (u "minor") (Demo.bytes "tide")).
  reflexivity.
Defined.

End Identifiers.

(** ** The matching blocks match *)

Module Blocks.
Import Difflib MatcherFacts SelfMatch Ordered.

Section Matcher.

Variable E : Type.
Variable eqb : E -> E -> bool.
Hypothesis eqb_spec : forall x y, eqb x y = true <-> x = y.
Variables a b : list E.
Variable b2j : list (E * list nat).
Hypothesis b2j_sound : forall x j,
  In j (b2j_get eqb b2j (Some x)) -> nth_error b j = Some x.

Lemma elem_eq_true x y :
  elem_eq eqb x y = true -> exists e, x = Some e /\ y = Some e.
Proof.
  destruct x as [x|], y as [y|]; cbn; try discriminate.
  intros H. apply eqb_spec in H. subst y. exists x. tauto.
Qed.

Lemma row_matching blo bhi i x js j2len : forall newj2len best,
  nth_error a i = Some x ->
  (forall j, In j js -> nth_error b j = Some x) ->
  (forall j, ends_at a b i j (j2len j)) ->
  (forall j, ends_at a b (S i) j (newj2len j)) ->
  matching a b best ->
  (forall j, ends_at a b (S i) j
               (fst (row blo bhi i js j2len newj2len best) j))
  /\ matching a b (snd (row blo bhi i js j2len newj2len best)).
Proof.
  induction js as [|j js IH]; intros newj2len best Hx Hjs Hold Hnew Hbest;
    cbn [row]; [split; assumption|].
  assert (Hjs' : forall j', In j' js -> nth_error b j' = Some x)
    by (intros j' Hj'; apply Hjs; right; exact Hj').
  destruct (j <? blo); [apply IH; assumption|].
  destruct (bhi <=? j); [split; assumption|].
  destruct best as [[bi bj] bs].
  set (k := match j with O => 0 | S j' => j2len j' end + 1).
  assert (Hk : ends_at a b (S i) j k).
  { unfold ends_at, k. destruct j as [|j'].
    - cbn [Nat.add]. split; [lia|]. split; [lia|].
      intros t Ht. assert (t = 0) by lia. subst t. exists x.
      rewrite Nat.sub_0_r. cbn [Nat.sub]. rewrite Nat.sub_0_r.
      split; [exact Hx|]. apply Hjs. left. reflexivity.
    - destruct (Hold j') as (B1 & B2 & Hm).
      split; [lia|]. split; [lia|].
      intros t Ht. destruct t as [|t].
      + exists x. cbn [Nat.sub]. rewrite !Nat.sub_0_r.
        split; [exact Hx|]. apply Hjs. left. reflexivity.
      + destruct (Hm t) as (e & H1 & H2); [lia|]. exists e.
        replace (S i - 1 - S t) with (i - 1 - t) by lia.
        replace (S j' - S t) with (j' - t) by lia. tauto. }
  apply IH; try assumption.
  - intros j0. unfold upd. destruct (j0 =? j) eqn:Ej; [|apply Hnew].
    apply Nat.eqb_eq in Ej. subst j0. exact Hk.
  - destruct (bs <? k); [|exact Hbest].
    destruct Hk as (B1 & B2 & Hm). unfold matching. intros t Ht.
    destruct (Hm (k - 1 - t)) as (e & H1 & H2); [lia|]. exists e.
    replace (i + 1 - k + t) with (S i - 1 - (k - 1 - t)) by lia.
    replace (j + 1 - k + t) with (j - (k - 1 - t)) by lia. tauto.
Qed.

Lemma ends_at_zero i j : ends_at a b i j 0.
Proof. unfold ends_at. split; [lia|]. split; [lia|]. intros t Ht. lia. Qed.

Lemma rows_matching blo bhi n : forall i j2len best,
  (forall j, ends_at a b i j (j2len j)) ->
  matching a b best ->
  matching a b (rows eqb a b2j blo bhi (seq i n) j2len best).
Proof.
  induction n as [|n IH]; intros i j2len best Hold Hbest; cbn [seq rows];
    [exact Hbest|].
  destruct (nth_error a i) as [x|] eqn:Hx.
  - destruct (@row_matching blo bhi i x (b2j_get eqb b2j (Some x)) j2len
                (fun _ => 0) best Hx (b2j_sound x) Hold
                (fun j => ends_at_zero (S i) j) Hbest) as [H1 H2].
    destruct (row blo bhi i (b2j_get eqb b2j (Some x)) j2len (fun _ => 0) best)
      as [newj2len best'].
    apply IH; assumption.
  - cbn [b2j_get row]. apply IH; [|exact Hbest].
    intros j. apply ends_at_zero.
Qed.

Lemma extend_left_matching junk alo blo besti : forall bestj bestsize,
  matching a b (besti, bestj, bestsize) ->
  matching a b (extend_left eqb a b junk alo blo besti bestj bestsize).
Proof.
  induction besti as [|i' IH]; intros bestj bestsize H; cbn [extend_left];
    [exact H|].
  destruct bestj as [|j']; [exact H|].
  destruct ((alo <? S i') && (blo <? S j')
            && Bool.eqb (isbjunk (nth_error b j')) junk
            && elem_eq eqb (nth_error a i') (nth_error b j')) eqn:Ec;
    [|exact H].
  apply andb_prop in Ec. destruct Ec as [_ Ee].
  apply elem_eq_true in Ee. destruct Ee as (e & H1 & H2).
  apply IH. unfold matching in *. intros t Ht. destruct t as [|t].
  - exists e. rewrite !Nat.add_0_r. tauto.
  - destruct (H t) as (e' & H1' & H2'); [lia|]. exists e'.
    replace (i' + S t) with (S i' + t) by lia.
    replace (j' + S t) with (S j' + t) by lia. tauto.
Qed.

Lemma extend_right_matching junk ahi bhi besti bestj fuel : forall bestsize,
  matching a b (besti, bestj, bestsize) ->
  matching a b (extend_right eqb a b fuel junk ahi bhi besti bestj bestsize).
Proof.
  induction fuel as [|fuel IH]; intros bestsize H; cbn [extend_right];
    [exact H|].
  destruct ((besti + bestsize <? ahi) && (bestj + bestsize <? bhi)
            && Bool.eqb (isbjunk (nth_error b (bestj + bestsize))) junk
            && elem_eq eqb (nth_error a (besti + bestsize))
                 (nth_error b (bestj + bestsize))) eqn:Ec; [|exact H].
  apply andb_prop in Ec. destruct Ec as [_ Ee].
  apply elem_eq_true in Ee. destruct Ee as (e & H1 & H2).
  apply IH. unfold matching in *. intros t Ht.
  destruct (Nat.eq_dec t bestsize) as [->|Hne].
  - exists e. tauto.
  - apply H. lia.
Qed.

Lemma find_longest_match_matching alo ahi blo bhi :
  matching a b (find_longest_match eqb a b b2j alo ahi blo bhi).
Proof.
  unfold find_longest_match.
  assert (H0 : matching a b
                 (rows eqb a b2j blo bhi (seq alo (ahi - alo)) (fun _ => 0)
                    (alo, blo, 0))).
  { apply rows_matching; [intros j; apply ends_at_zero|].
    unfold matching. intros t Ht. lia. }
  destruct (rows eqb a b2j blo bhi (seq alo (ahi - alo)) (fun _ => 0)
              (alo, blo, 0)) as [[i0 j0] k0].
  pose proof (@extend_left_matching false alo blo i0 j0 k0 H0) as H1.
  destruct (extend_left eqb a b false alo blo i0 j0 k0) as [[i1 j1] k1].
  pose proof (@extend_right_matching false ahi bhi i1 j1 ahi k1 H1) as H2.
  destruct (extend_right eqb a b ahi false ahi bhi i1 j1 k1) as [[i2 j2] k2].
  pose proof (@extend_left_matching true alo blo i2 j2 k2 H2) as H3.
  destruct (extend_left eqb a b true alo blo i2 j2 k2) as [[i3 j3] k3].
  apply extend_right_matching. exact H3.
Qed.

Lemma blocks_loop_matching fuel : forall queue acc bl,
  Forall (matching a b) acc ->
  blocks_loop eqb a b b2j fuel queue acc = Some bl ->
  Forall (matching a b) bl.
Proof.
  induction fuel as [|fuel IH]; intros queue acc bl Hacc H;
    destruct queue as [|[[[alo ahi] blo] bhi] queue]; cbn [blocks_loop] in H;
    try discriminate; try (injection H as <-; exact Hacc).
  pose proof (find_longest_match_matching alo ahi blo bhi) as Hm.
  destruct (find_longest_match eqb a b b2j alo ahi blo bhi) as [[i j] k].
  destruct (k =? 0); [eapply IH; eassumption|].
  eapply IH; [|exact H].
  apply Forall_app. split; [exact Hacc|]. constructor; [exact Hm|constructor].
Qed.

End Matcher.

Lemma collapse_matching E (a b : list E) l : forall cur,
  matching a b cur -> Forall (matching a b) l ->
  Forall (matching a b) (collapse cur l).
Proof.
  induction l as [|[[i2 j2] k2] l IH]; intros [[i1 j1] k1] Hc Hl;
    cbn [collapse].
  - destruct (k1 =? 0); [constructor|]. constructor; [exact Hc|constructor].
  - inversion Hl as [|? ? H2 Hl']; subst.
    destruct ((i1 + k1 =? i2) && (j1 + k1 =? j2)) eqn:Ec.
    + apply andb_prop in Ec. destruct Ec as [E1 E2].
      apply Nat.eqb_eq in E1. apply Nat.eqb_eq in E2.
      apply IH; [|exact Hl']. unfold matching in *. intros t Ht.
      destruct (Nat.lt_ge_cases t k1) as [Hlt|Hge]; [apply Hc; exact Hlt|].
      destruct (H2 (t - k1)) as (e & H3 & H4); [lia|]. exists e.
      replace (i1 + t) with (i2 + (t - k1)) by lia.
      replace (j1 + t) with (j2 + (t - k1)) by lia. tauto.
    + apply Forall_app. split; [|apply IH; assumption].
      destruct (k1 =? 0); [constructor|]. constructor; [exact Hc|constructor].
Qed.

Section Blocks.

Variable E : Type.
Variable eqb : E -> E -> bool.
Hypothesis eqb_spec : forall x y, eqb x y = true <-> x = y.
Variables a b : list E.

Lemma chain_b_sound x j :
  In j (b2j_get eqb (chain_b eqb b) (Some x)) -> nth_error b j = Some x.
Proof.
  destruct (@chain_b_lookup E eqb eqb_spec b x) as [H|H]; rewrite H;
    [intros []|].
  intros Hj. apply (proj1 (@positions_In E eqb eqb_spec x b 0 j)) in Hj.
  destruct Hj as [_ Hj]. rewrite Nat.sub_0_r in Hj. exact Hj.
Qed.

(** Every block of [get_matching_blocks] matches. *)
Lemma get_matching_blocks_matching :
  Forall (matching a b) (get_matching_blocks eqb a b).
Proof.
  unfold get_matching_blocks, raw_blocks.
  destruct (blocks_loop eqb a b (chain_b eqb b) (2 * length a + 1)
              [(0, length a, 0, length b)] []) as [bl|] eqn:Ebl;
    [|constructor].
  apply Forall_app. split.
  - apply collapse_matching.
    + unfold matching. intros t Ht. lia.
    + pose proof (@blocks_loop_matching E eqb eqb_spec a b (chain_b eqb b)
                    chain_b_sound _ _ _ _ (Forall_nil _) Ebl) as Hbl.
      apply Forall_forall. intros y Hy.
      apply (proj1 (sort_blocks_In _ _)) in Hy.
      rewrite Forall_forall in Hbl. apply Hbl. exact Hy.
  - constructor; [|constructor]. unfold matching. intros t Ht. lia.
Qed.

End Blocks.

End Blocks.

(** ** Texts without a difference *)

Module SameText.
Import Difflib MatcherFacts SelfMatch Ordered Counts Blocks.

Lemma chain_sum_le la lb l : forall i j,
  chain_to la lb i j l -> size_sum l + i <= la /\ size_sum l + j <= lb.
Proof.
  induction l as [|[[ai bj] size] l IH]; intros i j H; cbn [chain_to] in H.
  - cbn. lia.
  - destruct H as (H1 & H2 & H3). apply IH in H3.
    rewrite size_sum_cons. cbn [snd]. lia.
Qed.

Lemma nth_error_eq A (a b : list A) :
  length a = length b ->
  (forall p, p < length a -> nth_error a p = nth_error b p) -> a = b.
Proof.
  revert b. induction a as [|x a IH]; intros [|y b] Hl H; try discriminate;
    [reflexivity|].
  cbn [length] in *. f_equal.
  - specialize (H 0 ltac:(lia)). cbn in H. congruence.
  - apply IH; [lia|]. intros p Hp. apply (H (S p)). lia.
Qed.

Section Tiling.

Variable E : Type.
Variables a b : list E.

(** Blocks in order whose sizes add up to the lengths of both sequences
    cover them side by side. *)
Lemma tiled l : forall i,
  chain_to (length a) (length b) i i l ->
  size_sum l + i = length a -> size_sum l + i = length b ->
  Forall (matching a b) l ->
  forall p, i <= p -> p < length a -> nth_error a p = nth_error b p.
Proof.
  induction l as [|[[ai bj] size] l IH]; intros i Hc Ha Hb Hm p Hp Hlt.
  - cbn in Ha. lia.
  - cbn [chain_to] in Hc. destruct Hc as (H1 & H2 & H3).
    rewrite size_sum_cons in Ha, Hb. cbn [snd] in Ha, Hb.
    destruct (chain_sum_le _ _ _ _ _ H3) as [B1 B2].
    assert (ai = i) by lia. assert (bj = i) by lia. subst ai bj.
    inversion Hm as [|? ? Hx Hm']; subst.
    destruct (Nat.lt_ge_cases p (i + size)) as [Hin|Hout].
    + destruct (Hx (p - i)) as (e & E1 & E2); [lia|].
      replace (i + (p - i)) with p in * by lia. congruence.
    + apply (IH (i + size)); try assumption; lia.
Qed.

Lemma tiled_eq l :
  chain_to (length a) (length b) 0 0 l ->
  size_sum l = length a -> size_sum l = length b ->
  Forall (matching a b) l -> a = b.
Proof.
  intros Hc Ha Hb Hm. apply nth_error_eq; [lia|].
  intros p Hp. apply (tiled Hc); try assumption; lia.
Qed.

End Tiling.

Section Sequences.

Variable E : Type.
Variable eqb : E -> E -> bool.
Hypothesis eqb_spec : forall x y, eqb x y = true <-> x = y.
Variables a b : list E.

Lemma blocks_cover :
  exists l,
    get_matching_blocks eqb a b = l ++ [(length a, length b, 0)]
    /\ chain_to (length a) (length b) 0 0 l
    /\ Forall (matching a b) l
    /\ matches eqb a b = size_sum l.
Proof.
  destruct (get_matching_blocks_chain eqb a b) as (l & Hl & Hc).
  exists l. split; [exact Hl|]. split; [exact Hc|].
  pose proof (@get_matching_blocks_matching E eqb eqb_spec a b) as Hm.
  rewrite matches_eq, Hl in *. apply Forall_app in Hm.
  split; [tauto|]. rewrite size_sum_app2. cbn. lia.
Qed.

(** When nothing is added and nothing deleted, the sequences are equal. *)
Lemma no_change_eq :
  total (added1 b) (get_opcodes eqb a b) = 0 ->
  total (removed1 a) (get_opcodes eqb a b) = 0 -> a = b.
Proof.
  unfold get_opcodes.
  destruct blocks_cover as (l & -> & Hc & Hm & _). intros Ha Hr.
  pose proof (@opcodes_added _ a b l _ _ Hc) as Ea.
  pose proof (@opcodes_removed _ a b l _ _ Hc) as Er.
  assert (Hsum : forall x m n, x = 0 -> x + m + 0 = n -> m = n)
    by (intros; lia).
  apply (tiled_eq Hc); [| |exact Hm].
  - eapply Hsum; [exact Hr|exact Er].
  - eapply Hsum; [exact Ha|exact Ea].
Qed.

(** When every element is matched, the sequences are equal. *)
Lemma all_matched_eq :
  matches eqb a b = length a -> matches eqb a b = length b -> a = b.
Proof.
  destruct blocks_cover as (l & _ & Hc & Hm & ->). intros Ha Hb.
  apply (tiled_eq Hc); assumption.
Qed.

Lemma ratio_one_eq : (ratio eqb a b == 1)%Q -> a = b.
Proof.
  unfold ratio, calculate_ratio. destruct (matches_le eqb a b) as [H1 H2].
  destruct (length a + length b) as [|n] eqn:En.
  - intros _. destruct a, b; try discriminate. reflexivity.
  - unfold Qeq. cbn [Qnum Qden]. rewrite pos_of_nat_Z by discriminate.
    intros H. apply all_matched_eq; lia.
Qed.

End Sequences.

(** *** The diff of two lists of lines *)

Lemma unified_diff_empty_eq a b fromfile tofile n :
  unified_diff a b fromfile tofile n = [] -> a = b.
Proof.
  unfold unified_diff.
  destruct (get_grouped_opcodes PyStr.eqb a b n) as [|g groups] eqn:Eg;
    [|discriminate].
  intros _.
  apply (@no_change_eq _ PyStr.eqb OpFacts.eqb_eq).
  - rewrite <- (@total_get_grouped_opcodes _ PyStr.eqb a b (added1 b)
                 (fun _ _ _ _ => eq_refl) n), Eg. reflexivity.
  - rewrite <- (@total_get_grouped_opcodes _ PyStr.eqb a b (removed1 a)
                 (fun _ _ _ _ => eq_refl) n), Eg. reflexivity.
Qed.

Lemma unified_diff_concat a b fromfile tofile n :
  concat (unified_diff a b fromfile tofile n) = [] ->
  unified_diff a b fromfile tofile n = [].
Proof.
  unfold unified_diff.
  destruct (get_grouped_opcodes PyStr.eqb a b n); [reflexivity|].
  change (u "--- " ++ fromfile ++ [10%N])
    with (45%N :: 45%N :: 45%N :: 32%N :: fromfile ++ [10%N]).
  cbn [concat app]. discriminate.
Qed.

Lemma readlines_of_text w p l :
  text_at w p = Some l -> l = Text.readlines (concat l).
Proof.
  intros H. destruct (Comparison.text_at_inv _ _ H) as (c & _ & Hc).
  unfold Text.read_text_lines in Hc.
  destruct (Text.utf8_decode (map Byte.to_N c)) as [t|]; [|discriminate].
  injection Hc as <-. rewrite Comparison.concat_readlines. reflexivity.
Qed.

(** X16: [compare_versions] finds no difference exactly when there is
    none: the diff it returns is empty if and only if the two live files
    have the same lines, and the similarity is 100 if and only if they
    have. *)
Theorem no_difference_iff_same_text id1 id2 s r s' :
  compare_versions id1 id2 s = (Ok r, s') ->
  exists v1 v2 l1 l2,
    _find_version (mem s) id1 = Some v1
    /\ _find_version (mem s) id2 = Some v2
    /\ text_at (world s') (file v1) = Some l1
    /\ text_at (world s') (file v2) = Some l2
    /\ (diff r = [] <-> l1 = l2)
    /\ ((similarity r == 100)%Q <-> l1 = l2).
Proof.
  intros H.
  destruct (Comparison.compare_ok_inv _ _ _ H)
    as (v1 & v2 & l1 & l2 & F1 & F2 & T1 & T2 & ->).
  exists v1, v2, l1, l2. do 4 (split; [assumption|]).
  split; split.
  - cbn [diff compare_contents]. intros Hd.
    apply unified_diff_concat in Hd. apply unified_diff_empty_eq in Hd.
    exact Hd.
  - intros ->. apply compare_contents_same.
  - rewrite Comparison.similarity_eq. intros Hs.
    assert (Hr : (ratio N.eqb (concat l1) (concat l2) == 1)%Q).
    { apply (Qmult_inj_r _ _ 100); [discriminate|]. rewrite Hs. reflexivity. }
    apply (@ratio_one_eq _ N.eqb nat_eqb_spec) in Hr.
    rewrite (readlines_of_text _ _ T1), (readlines_of_text _ _ T2), Hr.
    reflexivity.
  - intros ->. apply compare_contents_same.
Qed.

Lemma no_difference_iff_same_text_witness :
  exists r,
    compare_versions (u "v1.0.0") (u "v1.1.0") Demo.anagrams
    = (Ok r, Demo.anagrams)
    /\ (diff r = [] <-> [u "tide"] = [u "diet"]).
Proof.
  assert (H : exists r,
             compare_versions (u "v1.0.0") (u "v1.1.0") Demo.anagrams
             = (Ok r, Demo.anagrams))
    by (eexists; vm_compute; reflexivity).
  destruct H as (r & H). exists r. split; [exact H|].
  destruct (no_difference_iff_same_text _ _ _ H)
    as (v1 & v2 & l1 & l2 & F1 & F2 & T1 & T2 & Hd & _).
  injection F1 as <-. injection F2 as <-.
  injection T1 as <-. injection T2 as <-. exact Hd.
Defined.

(** *** The header lines in the counts *)

Section Totals.

Variable E : Type.
Variable eqb : E -> E -> bool.
Variables a b : list E.

Lemma total_added_le : total (added1 b) (get_opcodes eqb a b) <= length b.
Proof.
  unfold get_opcodes.
  destruct (get_matching_blocks_chain eqb a b) as (l & -> & Hc).
  pose proof (@opcodes_added _ a b l _ _ Hc) as Ea.
  assert (Hle : forall x m n, x + m + 0 = n -> x <= n) by (intros; lia).
  eapply Hle. exact Ea.
Qed.

Lemma total_removed_le : total (removed1 a) (get_opcodes eqb a b) <= length a.
Proof.
  unfold get_opcodes.
  destruct (get_matching_blocks_chain eqb a b) as (l & -> & Hc).
  pose proof (@opcodes_removed _ a b l _ _ Hc) as Er.
  assert (Hle : forall x m n, x + m + 0 = n -> x <= n) by (intros; lia).
  eapply Hle. exact Er.
Qed.

End Totals.

Lemma unified_diff_counts a b fromfile tofile n :
  unified_diff a b fromfile tofile n <> [] ->
  length (filter (startswith 43) (unified_diff a b fromfile tofile n))
  = 1 + total (added1 b) (get_opcodes PyStr.eqb a b)
  /\ length (filter (startswith 45) (unified_diff a b fromfile tofile n))
     = 1 + total (removed1 a) (get_opcodes PyStr.eqb a b).
Proof.
  rewrite <- (@total_get_grouped_opcodes _ PyStr.eqb a b (added1 b)
               (fun _ _ _ _ => eq_refl) n).
  rewrite <- (@total_get_grouped_opcodes _ PyStr.eqb a b (removed1 a)
               (fun _ _ _ _ => eq_refl) n).
  unfold unified_diff.
  destruct (get_grouped_opcodes PyStr.eqb a b n) as [|g groups];
    [intros H; contradiction H; reflexivity|].
  intros _. rewrite <- (@hunks_added a b), <- (@hunks_removed a b).
  change (u "--- " ++ fromfile ++ [10%N])
    with (45%N :: 45%N :: 45%N :: 32%N :: fromfile ++ [10%N]).
  change (u "+++ " ++ tofile ++ [10%N])
    with (43%N :: 43%N :: 43%N :: 32%N :: tofile ++ [10%N]).
  cbn [filter startswith N.eqb Pos.eqb length]. split; reflexivity.
Qed.

(** X17: the counts of [compare_versions] include the two header lines
    of the diff.  With an empty diff both counts are 0; otherwise each is
    at least 1, also when nothing was added or nothing deleted, and
    [additions] is at most the number of lines of the second file plus 1,
    [deletions] at most that of the first plus 1. *)
Theorem counts_include_headers id1 id2 s r s' :
  compare_versions id1 id2 s = (Ok r, s') ->
  exists v1 v2 l1 l2,
    _find_version (mem s) id1 = Some v1
    /\ _find_version (mem s) id2 = Some v2
    /\ text_at (world s') (file v1) = Some l1
    /\ text_at (world s') (file v2) = Some l2
    /\ (diff r = [] -> additions r = 0 /\ deletions r = 0)
    /\ (diff r <> [] ->
        1 <= additions r /\ additions r <= 1 + length l2
        /\ 1 <= deletions r /\ deletions r <= 1 + length l1).
Proof.
  intros H.
  destruct (Comparison.compare_ok_inv _ _ _ H)
    as (v1 & v2 & l1 & l2 & F1 & F2 & T1 & T2 & ->).
  exists v1, v2, l1, l2. do 4 (split; [assumption|]).
  cbn [diff additions deletions compare_contents]. split.
  - intros Hd. apply unified_diff_concat in Hd. rewrite Hd. split; reflexivity.
  - intros Hd.
    assert (Hne : unified_diff l1 l2 (diff_label id1) (diff_label id2) 3 <> [])
      by (intros E0; apply Hd; rewrite E0; reflexivity).
    destruct (unified_diff_counts _ _ _ _ _ Hne) as [-> ->].
    pose proof (total_added_le PyStr.eqb l1 l2).
    pose proof (total_removed_le PyStr.eqb l1 l2). lia.
Qed.

Lemma counts_include_headers_witness :
  exists r,
    compare_versions (u "v1.0.0") (u "v1.1.0") Demo.letters
    = (Ok r, Demo.letters)
    /\ (diff r <> [] -> 1 <= additions r /\ additions r <= 1 + 4).
Proof.
  assert (H : exists r,
             compare_versions (u "v1.0.0") (u "v1.1.0") Demo.letters
             = (Ok r, Demo.letters))
    by (eexists; vm_compute; reflexivity).
  destruct H as (r & H). exists r. split; [exact H|].
  destruct (counts_include_headers _ _ _ H)
    as (v1 & v2 & l1 & l2 & F1 & F2 & T1 & T2 & _ & Hd).
  injection F1 as <-. injection F2 as <-.
  injection T1 as <-. injection T2 as <-.
  intros Hne. destruct (Hd Hne) as (H1 & H2 & _). split; [exact H1|exact H2].
Defined.

End SameText.

(** ** Line ends *)

Module LineEnds.
Import OpFacts Comparison SelfMatch.





End LineEnds.

(** ** The changelog *)

Module ChangelogFacts.
Import PyIntFacts IntStr SemVerFacts OpFacts Run Monotone Activation
  Persistence Comparison Identifiers.

Lemma insert_asc_In A (x : list Z * A) l y :
  In y (insert_asc x l) <-> y = x \/ In y l.
Proof.
  induction l as [|z l IH]; cbn [insert_asc].
  - cbn. intuition.
  - destruct (key_lt (fst z) (fst x)); cbn [In]; rewrite ?IH; intuition.
Qed.

Lemma sorted_asc_In A (l : list (list Z * A)) y :
  In y (sorted_asc l) <-> In y l.
Proof.
  induction l as [|x l IH]; [reflexivity|].
  unfold sorted_asc in *. cbn [fold_right In].
  rewrite insert_asc_In, IH. intuition.
Qed.

Lemma index_of_none id vs : forall i,
  ~ In id (map version_id vs) -> index_of id vs i = None.
Proof.
  induction vs as [|v vs IH]; intros i H; [reflexivity|].
  cbn [index_of]. destruct (PyStr.eqb (version_id v) id) eqn:E.
  - apply eqb_eq in E. contradiction H. left. exact E.
  - apply IH. intros Hin. apply H. right. exact Hin.
Qed.

Lemma index_of_bound id vs : forall i j,
  index_of id vs i = Some j -> j < i + length vs.
Proof.
  induction vs as [|v vs IH]; intros i j H; [discriminate|].
  cbn [index_of length] in *.
  destruct (PyStr.eqb (version_id v) id).
  - injection H as <-. lia.
  - apply IH in H. lia.
Qed.

Section WithPlatform.

Variable P : Platform.
Variable F : Formatter.

Lemma sorted_versions_asc_In vs sorted v :
  sorted_versions_asc P vs = Some sorted -> (In v sorted <-> In v vs).
Proof.
  unfold sorted_versions_asc.
  destruct (map_opt (keyed P) vs) as [kvs|] eqn:E; [|discriminate].
  intros H. injection H as <-. split.
  - intros Hin. apply in_map_iff in Hin. destruct Hin as (kv & <- & Hkv).
    apply (proj1 (sorted_asc_In _ _)) in Hkv.
    destruct (@map_opt_In _ _ _ _ _ _ E Hkv) as (x & Hx & Hk).
    apply keyed_inv in Hk. destruct Hk as [-> _]. exact Hx.
  - intros Hin.
    destruct (@map_opt_In_inv _ _ _ _ _ _ E Hin) as (kv & Hkv & Hk).
    apply keyed_inv in Hk. destruct Hk as [<- _].
    apply in_map. apply sorted_asc_In. exact Hkv.
Qed.

Lemma sorted_versions_asc_total vs :
  (forall v, In v vs -> version_key P (version_id v) <> None) ->
  exists sorted, sorted_versions_asc P vs = Some sorted.
Proof.
  intros H. unfold sorted_versions_asc.
  destruct (@map_opt_total _ _ (keyed P) vs) as (kvs & ->).
  - intros v Hv. unfold keyed. specialize (H v Hv).
    destruct (version_key P (version_id v)); [discriminate|congruence].
  - eexists. reflexivity.
Qed.

Lemma compare_untouched id1 id2 s :
  (forall v, In v (versions (mem s)) -> live (world s) (file v) = true) ->
  snd (compare_versions id1 id2 s) = s.
Proof.
  intros Hl. unfold compare_versions. erewrite bind_ok by apply get_eq.
  destruct (_find_version (mem s) id1) as [v1|] eqn:F1; [|reflexivity].
  destruct (_find_version (mem s) id2) as [v2|] eqn:F2; [|reflexivity].
  cbv zeta.
  erewrite bind_ok by apply exists_live.
  erewrite bind_ok by apply exists_live.
  rewrite (Hl v1) by (apply find_version_In in F1; tauto).
  rewrite (Hl v2) by (apply find_version_In in F2; tauto).
  cbn [negb orb]. erewrite bind_ok by reflexivity.
  rewrite compare_reads.
  destruct (files (world s) (file v1)); [|reflexivity].
  destruct (text_at (world s) (file v1)); [|reflexivity].
  destruct (files (world s) (file v2)); [|reflexivity].
  destruct (text_at (world s) (file v2)); reflexivity.
Qed.

Lemma changelog_diff_returns prev_id id s :
  exists lines s',
    changelog_diff F prev_id id s = (Ok lines, s')
    /\ mem s' = mem s
    /\ ((forall v, In v (versions (mem s)) -> live (world s) (file v) = true)
        -> s' = s).
Proof.
  unfold changelog_diff, try_with.
  pose proof (compare_mem prev_id id s) as Hm.
  pose proof (@compare_untouched prev_id id s) as Hu.
  unfold bind at 1.
  destruct (compare_versions prev_id id s) as [[d|e] s1]; cbn [snd] in *.
  - eexists. exists s1. split; [reflexivity|]. split; assumption.
  - eexists. exists s1. split; [reflexivity|]. split; assumption.
Qed.

Lemma changelog_loop_returns sorted start_idx is_ :
  (forall v, In v sorted -> strftime_iso F (timestamp v) <> None) ->
  (forall i, In i is_ -> i < length sorted) ->
  forall s, exists lines s',
    changelog_loop F sorted start_idx is_ s = (Ok lines, s')
    /\ mem s' = mem s
    /\ ((forall v, In v (versions (mem s)) -> live (world s) (file v) = true)
        -> s' = s).
Proof.
  intros Hts. induction is_ as [|i is_ IH]; intros Hi s; cbn [changelog_loop].
  - exists [], s. split; [reflexivity|]. split; [reflexivity|]. tauto.
  - assert (Hlt : i < length sorted) by (apply Hi; left; reflexivity).
    destruct (nth_error sorted i) as [v|] eqn:Ev;
      [|apply nth_error_None in Ev; lia].
    cbn [of_option]. erewrite bind_ok by reflexivity.
    assert (Hv : In v sorted) by (eapply nth_error_In; exact Ev).
    destruct (strftime_iso F (timestamp v)) as [stamp|] eqn:Est;
      [|contradiction (Hts v Hv)].
    cbn [of_option]. erewrite bind_ok by reflexivity. cbv zeta.
    assert (Hd : exists d s1,
               (if (0 <? i) && (start_idx <? i)
                then prev_v <- of_option IndexError (nth_error sorted (i - 1)) ;;
                     changelog_diff F (version_id prev_v) (version_id v)
                else ret []) s = (Ok d, s1)
               /\ mem s1 = mem s
               /\ ((forall v, In v (versions (mem s)) ->
                      live (world s) (file v) = true) -> s1 = s)).
    { destruct ((0 <? i) && (start_idx <? i)).
      - destruct (nth_error sorted (i - 1)) as [pv|] eqn:Ep;
          [|apply nth_error_None in Ep; lia].
        cbn [of_option]. erewrite bind_ok by reflexivity.
        apply changelog_diff_returns.
      - exists [], s. split; [reflexivity|]. split; [reflexivity|]. tauto. }
    destruct Hd as (d & s1 & Hd & Hm1 & Hu1).
    erewrite bind_ok by exact Hd.
    destruct (IH (fun j Hj => Hi j (or_intror Hj)) s1)
      as (rest & s2 & Hr & Hm2 & Hu2).
    erewrite bind_ok by exact Hr.
    eexists. exists s2. split; [reflexivity|]. split; [congruence|].
    intros Hl. specialize (Hu1 Hl). subst s1. apply Hu2. exact Hl.
Qed.

Lemma changelog_after_sort from_version to_version s sorted :
  sorted_versions_asc P (versions (mem s)) = Some sorted ->
  (forall v, In v sorted -> strftime_iso F (timestamp v) <> None) ->
  exists text s',
    generate_changelog P F from_version to_version s = (Ok text, s')
    /\ mem s' = mem s
    /\ ((forall v, In v (versions (mem s)) -> live (world s) (file v) = true)
        -> s' = s).
Proof.
  intros Es Hts. unfold generate_changelog.
  erewrite bind_ok by apply get_eq. rewrite Es.
  cbn [of_option]. erewrite bind_ok by reflexivity.
  destruct sorted as [|v0 rest] eqn:Esorted.
  { exists NO_VERSIONS, s. split; [reflexivity|]. split; [reflexivity|]. tauto. }
  rewrite <- Esorted in *. cbv zeta.
  assert (Hlen : 0 < length sorted) by (rewrite Esorted; cbn; lia).
  assert (Hb : forall bound default,
             default < length sorted ->
             bound_index bound sorted default < length sorted).
  { intros [[|c id]|] default Hdef; cbn [bound_index]; try exact Hdef.
    destruct (index_of (c :: id) sorted 0) as [j|] eqn:Ej; [|exact Hdef].
    apply index_of_bound in Ej. exact Ej. }
  pose proof (Hb from_version 0 Hlen) as Hs.
  assert (Hlast : length sorted - 1 < length sorted) by lia.
  pose proof (Hb to_version (length sorted - 1) Hlast) as He.
  destruct (nth_error sorted (bound_index from_version sorted 0))
    as [vs|] eqn:Evs; [|apply nth_error_None in Evs; lia].
  destruct (nth_error sorted
              (bound_index to_version sorted (length sorted - 1)))
    as [ve|] eqn:Eve; [|apply nth_error_None in Eve; lia].
  cbn [of_option]. erewrite bind_ok by reflexivity.
  erewrite bind_ok by reflexivity.
  destruct (@changelog_loop_returns sorted
              (bound_index from_version sorted 0)
              (seq (bound_index from_version sorted 0)
                 (bound_index to_version sorted (length sorted - 1) + 1
                  - bound_index from_version sorted 0))) with (s := s)
    as (body & s' & Hbody & Hm & Hu).
  - exact Hts.
  - intros i Hi. apply in_seq in Hi. lia.
  - erewrite bind_ok by exact Hbody.
    eexists. exists s'. split; [reflexivity|]. split; assumption.
Qed.

(** X19: [generate_changelog] does not fail on files: when every
    recorded identifier is numeric and every time stamp is read by
    [fromisoformat], it returns a text for any bounds, whatever files are
    missing or unreadable, and the ledger is as before; when the file of
    every version exists, nothing at all is changed. *)
Theorem changelog_returns from_version to_version s :
  (forall v, In v (versions (mem s)) ->
             version_key P (version_id v) <> None) ->
  (forall v, In v (versions (mem s)) ->
             strftime_iso F (timestamp v) <> None) ->
  exists text s',
    generate_changelog P F from_version to_version s = (Ok text, s')
    /\ mem s' = mem s
    /\ ((forall v, In v (versions (mem s)) -> live (world s) (file v) = true)
        -> s' = s).
Proof.
  intros Hk Hts.
  destruct (sorted_versions_asc_total _ Hk) as (sorted & Es).
  apply (@changelog_after_sort from_version to_version s sorted Es).
  intros v Hv. apply Hts.
  exact (proj1 (@sorted_versions_asc_In _ _ _ Es) Hv).
Qed.

Lemma changelog_same_bounds from1 to1 from2 to2 s :
  (forall sorted,
     sorted_versions_asc P (versions (mem s)) = Some sorted ->
     bound_index from1 sorted 0 = bound_index from2 sorted 0
     /\ bound_index to1 sorted (length sorted - 1)
        = bound_index to2 sorted (length sorted - 1)) ->
  generate_changelog P F from1 to1 s = generate_changelog P F from2 to2 s.
Proof.
  intros H. unfold generate_changelog.
  erewrite bind_ok by apply get_eq.
  erewrite (@bind_ok _ _ get) by apply get_eq.
  destruct (sorted_versions_asc P (versions (mem s))) as [sorted|] eqn:Es;
    cbn [of_option]; [|reflexivity].
  erewrite bind_ok by reflexivity.
  erewrite (@bind_ok _ _ (ret sorted)) by reflexivity.
  destruct (H sorted eq_refl) as [H1 H2].
  destruct sorted as [|v0 rest]; [reflexivity|].
  cbv zeta. rewrite H1, H2. reflexivity.
Qed.

Lemma unknown_bound id sorted default s :
  sorted_versions_asc P (versions (mem s)) = Some sorted ->
  ~ In id (ids (mem s)) ->
  bound_index (Some id) sorted default = default.
Proof.
  intros Es Hid. destruct id as [|c id]; [reflexivity|].
  cbn [bound_index]. rewrite index_of_none; [reflexivity|].
  intros Hin. apply Hid. apply in_map_iff in Hin.
  destruct Hin as (v & Hv & Hin). unfold ids. apply in_map_iff.
  exists v. split; [exact Hv|].
  exact (proj1 (@sorted_versions_asc_In _ _ _ Es) Hin).
Qed.

(** X20: the bounds of [generate_changelog] at the edges.  A bound that
    is no recorded identifier, or the empty string, is ignored without a
    word: the changelog is the one from the first version, or to the
    last.  With an empty ledger the text says that there is no version,
    whatever the bounds.  One identifier that is not numeric makes every
    changelog raise [ValueError], also when the version lies outside the
    bounds. *)
Theorem changelog_bounds s :
  (forall f to_version,
     ~ In f (ids (mem s)) ->
     generate_changelog P F (Some f) to_version s
     = generate_changelog P F None to_version s)
  /\ (forall from_version t,
        ~ In t (ids (mem s)) ->
        generate_changelog P F from_version (Some t) s
        = generate_changelog P F from_version None s)
  /\ (forall from_version to_version,
        generate_changelog P F (Some []) to_version s
        = generate_changelog P F None to_version s
        /\ generate_changelog P F from_version (Some []) s
           = generate_changelog P F from_version None s)
  /\ (versions (mem s) = [] ->
      forall from_version to_version,
        generate_changelog P F from_version to_version s
        = (Ok NO_VERSIONS, s))
  /\ (forall v from_version to_version,
        In v (versions (mem s)) ->
        version_key P (version_id v) = None ->
        generate_changelog P F from_version to_version s
        = (Raise ValueError, s)).
Proof.
  split.
  { intros f t Hf. apply changelog_same_bounds. intros sorted Es.
    split; [|reflexivity]. eapply unknown_bound; eassumption. }
  split.
  { intros f t Ht. apply changelog_same_bounds. intros sorted Es.
    split; [reflexivity|]. eapply unknown_bound; eassumption. }
  split.
  { intros f t. split; apply changelog_same_bounds; intros sorted Es;
      split; reflexivity. }
  split.
  { intros Hv f t. unfold generate_changelog.
    erewrite bind_ok by apply get_eq. rewrite Hv. reflexivity. }
  intros v f t Hin Hk. unfold generate_changelog.
  erewrite bind_ok by apply get_eq. unfold sorted_versions_asc.
  rewrite (@map_opt_none _ _ (keyed P) _ v Hin); [reflexivity|].
  unfold keyed. rewrite Hk. reflexivity.
Qed.

Lemma index_of_found id vs : forall k j,
  index_of id vs k = Some j ->
  exists v, nth_error vs (j - k) = Some v /\ version_id v = id /\ k <= j.
Proof.
  induction vs as [|x vs IH]; intros k j H; [discriminate|].
  cbn [index_of] in H. destruct (PyStr.eqb (version_id x) id) eqn:E.
  - injection H as <-. exists x. rewrite Nat.sub_diag.
    apply eqb_eq in E. split; [reflexivity|]. split; [exact E|lia].
  - destruct (IH _ _ H) as (v & Hv & Hid & Hle). exists v.
    replace (j - k) with (S (j - S k)) by lia. cbn [nth_error].
    split; [exact Hv|]. split; [exact Hid|lia].
Qed.

(** X21: bounds in the wrong order are not an error: when both bounds
    are recorded identifiers and the first comes after the second in the
    order of the version numbers, [generate_changelog] returns the title
    line alone, from the first bound to the second, and changes
    nothing. *)
Theorem changelog_reversed_bounds s sorted c1 f c2 t i j :
  sorted_versions_asc P (versions (mem s)) = Some sorted ->
  index_of (c1 :: f) sorted 0 = Some i ->
  index_of (c2 :: t) sorted 0 = Some j ->
  j < i ->
  generate_changelog P F (Some (c1 :: f)) (Some (c2 :: t)) s
  = (Ok (TITLE ++ (c1 :: f) ++ TO ++ (c2 :: t) ++ [41; 10]%N), s).
Proof.
  intros Es Hi Hj Hlt. unfold generate_changelog.
  erewrite bind_ok by apply get_eq. rewrite Es. cbn [of_option].
  erewrite bind_ok by reflexivity.
  destruct (index_of_found _ _ _ Hi) as (vi & Hvi & Hidi & _).
  destruct (index_of_found _ _ _ Hj) as (vj & Hvj & Hidj & _).
  rewrite Nat.sub_0_r in Hvi, Hvj.
  destruct sorted as [|v0 rest] eqn:Esorted; [discriminate|].
  rewrite <- Esorted in *. cbv zeta. cbn [bound_index].
  rewrite Hi, Hj, Hvi, Hvj. cbn [of_option].
  erewrite bind_ok by reflexivity. erewrite bind_ok by reflexivity.
  replace (j + 1 - i) with 0 by lia. cbn [seq changelog_loop].
  erewrite bind_ok by reflexivity. cbn [ret concat].
  rewrite app_nil_r, Hidi, Hidj. reflexivity.
Qed.

End WithPlatform.

Lemma changelog_reversed_bounds_witness :
  generate_changelog Demo.platform ChangelogCases.formatter
    (Some (u "v1.1.0")) (Some (u "v1.0.0")) Demo.letters
  = (Ok (TITLE ++ u "v1.1.0" ++ TO ++ u "v1.0.0" ++ [41; 10]%N),
     Demo.letters).
Proof.
  apply (@changelog_reversed_bounds Demo.platform ChangelogCases.formatter
           Demo.letters (versions (mem Demo.letters))
           118%N (u "1.1.0") 118%N (u "1.0.0") 1 0);
    [reflexivity|reflexivity|reflexivity|lia].
Defined.

(** The changelog of [Cases.missing], whose first file is not there. *)
Lemma changelog_returns_witness :
  exists text s',
    generate_changelog Demo.platform ChangelogCases.formatter None None
      Cases.missing = (Ok text, s')
    /\ mem s' = mem Cases.missing.
Proof.
  destruct (@changelog_returns Demo.platform ChangelogCases.formatter
              None None Cases.missing) as (text & s' & H1 & H2 & _).
  - intros v [<-|[<-|[]]]; discriminate.
  - intros v _. discriminate.
  - exists text, s'. split; [exact H1|exact H2].
Defined.

End ChangelogFacts.

(** ** The example run *)

(** ** The constructor *)

Module Constructor.
Import PyIntFacts IntStr SemVerFacts OpFacts Run Monotone Activation
  Persistence Restart.

Lemma mkdir_exist_ok_eq p s :
  mkdir_exist_ok p s
  = if can_mkdir p (world s)
    then (Ok tt, with_world s (mkdir_world p (world s)))
    else (Raise OSError, s).
Proof.
  unfold mkdir_exist_ok, can_mkdir, mkdir_world, with_world.
  destruct (dirs (world s) p); cbn [orb].
  - rewrite state_eta. reflexivity.
  - destruct (files (world s) p); [reflexivity|].
    destruct (readonly (world s) p); reflexivity.
Qed.

Lemma mkdir_world_files p w : files (mkdir_world p w) = files w.
Proof. unfold mkdir_world. destruct (dirs w p); reflexivity. Qed.



Lemma constructor_eq P s :
  __init__ P s
  = if can_mkdir BACKUP_DIR (world s)
    then init P (with_world s (mkdir_world BACKUP_DIR (world s)))
    else (Raise OSError, s).
Proof.
  unfold __init__, bind. rewrite mkdir_exist_ok_eq.
  destruct (can_mkdir BACKUP_DIR (world s)); reflexivity.
Qed.

Section WithPlatform.

Variable P : Platform.


End WithPlatform.



End Constructor.

Module MainRun.
Import PyIntFacts IntStr SemVerFacts OpFacts Run Monotone Activation
  Persistence Comparison RoundTrips Restart ChangelogFacts Constructor.

Section WithPlatform.

Variable P : Platform.
Variable F : Formatter.
Variable c : list byte.

Lemma kept_save l w : kept c w -> kept c (save_world P l w).
Proof.
  unfold kept. intros H. rewrite save_world_other; [exact H|discriminate].
Qed.

Lemma kept_snapshot id w :
  kept c w ->
  kept c (copy_world CORE_STANDARDS (snapshot_path CORE_STANDARDS id) w).
Proof.
  unfold kept. intros H. rewrite copy_world_other; [exact H|reflexivity].
Qed.

(** A creation of a version of the core standards in a ledger whose next
    identifier is [id]. *)
Lemma create_core descr kind s id :
  kept c (world s) ->
  next_version_id P kind (versions (mem s)) = Some id ->
  exists v s',
    create_version P CORE_STANDARDS descr kind s = (Ok v, s')
    /\ v = created_version P CORE_STANDARDS descr id c (tick (world s))
    /\ versions (mem s') = versions (mem s) ++ [v]
    /\ map action (history_list (mem s'))
       = map action (history_list (mem s)) ++ [u "create"]
    /\ kept c (world s').
Proof.
  intros Hk Hn. rewrite create_version_eq. unfold kept in Hk.
  rewrite Hk, Hn. cbv zeta. eexists. eexists. split; [reflexivity|].
  split; [reflexivity|]. split; [reflexivity|]. split.
  - cbn [mem]. unfold history_list at 1. cbn [history add_entry].
    rewrite map_app. reflexivity.
  - cbn [world]. apply kept_snapshot. apply kept_save. exact Hk.
Qed.

Lemma activate_core id s v :
  kept c (world s) ->
  _find_version (mem s) id = Some v ->
  file v = CORE_STANDARDS -> hash v = sha256_hex P c ->
  exists s',
    activate_version P id s = (Ok tt, s')
    /\ versions (mem s') = activated id (versions (mem s))
    /\ map action (history_list (mem s'))
       = map action (history_list (mem s)) ++ [u "activate"]
    /\ kept c (world s').
Proof.
  intros Hk Hf Hfile Hhash. rewrite activate_version_eq, Hf.
  unfold integrity_ok. rewrite Hfile. unfold kept in Hk. rewrite Hk, Hhash.
  rewrite eqb_refl. eexists. split; [reflexivity|].
  split; [reflexivity|]. split.
  - cbn [mem after_activate]. unfold history_list at 1.
    cbn [history add_entry]. rewrite map_app. reflexivity.
  - cbn [world after_activate]. apply kept_save. exact Hk.
Qed.

Lemma mark_core id s v :
  kept c (world s) ->
  _find_version (mem s) id = Some v ->
  exists s',
    mark_as_stable P id s = (Ok tt, s')
    /\ versions (mem s') = mark_first id (versions (mem s))
    /\ map action (history_list (mem s'))
       = map action (history_list (mem s)) ++ [u "mark_stable"]
    /\ kept c (world s').
Proof.
  intros Hk Hf. rewrite mark_as_stable_eq, Hf.
  eexists. split; [reflexivity|]. split; [reflexivity|]. split.
  - cbn [mem after_mark]. unfold history_list at 1.
    cbn [history add_entry]. rewrite map_app. reflexivity.
  - cbn [world after_mark]. apply kept_save. exact Hk.
Qed.

(** X24: the example run on a new repository.  When there is no version
    file, the core standards are a UTF-8 text and the time stamps of the
    platform are read back by [fromisoformat]: if the backup directory is
    there or can be made, [main] returns, whether the ledger and the
    snapshots can be written or not; the ledger then holds the versions
    v1.0.0, active and stable, and v1.1.0, neither; the history has the
    four entries create, activate, mark_stable, create; and the core
    standards are untouched.  If the backup directory cannot be made,
    [main] raises the [OSError] of [mkdir] and nothing is changed. *)
Theorem main_on_a_new_repository (m0 : Ledger) (w : World)
  (l : list pystr) :
  files w VERSION_FILE = None ->
  files w CORE_STANDARDS = Some c ->
  Text.read_text_lines c = Some l ->
  (forall t, strftime_iso F (now_iso P t) <> None) ->
  (can_mkdir BACKUP_DIR w = true ->
   exists s',
     main P F {| mem := m0; world := w |} = (Ok tt, s')
     /\ ids (mem s') = [u "v1.0.0"; u "v1.1.0"]
     /\ map active (versions (mem s')) = [true; false]
     /\ map stable (versions (mem s')) = [true; false]
     /\ map action (history_list (mem s'))
        = [u "create"; u "activate"; u "mark_stable"; u "create"]
     /\ files (world s') CORE_STANDARDS = Some c)
  /\ (can_mkdir BACKUP_DIR w = false ->
      main P F {| mem := m0; world := w |}
      = (Raise OSError, {| mem := m0; world := w |})).
Proof.
  intros Hnone Hcore Hl Hts. unfold main. split.
  2:{ intros Hdir. unfold bind at 1. rewrite constructor_eq. cbn [world].
      rewrite Hdir. reflexivity. }
  intros Hdir.
  (* the constructor *)
  erewrite bind_ok.
  2:{ rewrite constructor_eq. cbn [world]. rewrite Hdir.
      rewrite init_eq. cbn [world with_world mem].
      rewrite mkdir_world_files, Hnone. reflexivity. }
  assert (Hcore' : kept c (mkdir_world BACKUP_DIR w))
    by (unfold kept; rewrite mkdir_world_files; exact Hcore).
  (* the first version *)
  destruct (@create_core INITIAL_DESCRIPTION (u "major")
              {| mem := empty_ledger; world := mkdir_world BACKUP_DIR w |}
              (u "v1.0.0") Hcore' eq_refl)
    as (v1 & s1 & H1 & Ev1 & V1 & A1 & K1).
  erewrite bind_ok by exact H1.
  cbn [versions mem empty_ledger history_list history app map] in V1, A1.
  assert (Id1 : version_id v1 = u "v1.0.0") by (rewrite Ev1; reflexivity).
  rewrite Id1.
  assert (F1 : _find_version (mem s1) (u "v1.0.0") = Some v1).
  { unfold _find_version. rewrite V1. cbn [find]. rewrite Id1. reflexivity. }
  destruct (@activate_core (u "v1.0.0") s1 v1 K1 F1)
    as (s2 & H2 & V2 & A2 & K2); [rewrite Ev1; reflexivity..|].
  erewrite bind_ok by exact H2.
  rewrite V1 in V2. cbn [activated map] in V2. rewrite Id1 in V2.
  rewrite eqb_refl in V2.
  assert (F2 : _find_version (mem s2) (u "v1.0.0")
               = Some (set_active v1 true)).
  { unfold _find_version. rewrite V2. cbn [find set_active version_id].
    rewrite Id1. reflexivity. }
  destruct (@mark_core (u "v1.0.0") s2 _ K2 F2) as (s3 & H3 & V3 & A3 & K3).
  erewrite bind_ok by exact H3.
  rewrite V2 in V3. cbn [mark_first set_active version_id] in V3.
  rewrite Id1, eqb_refl in V3.
  (* the second version *)
  assert (N3 : next_version_id P (u "minor") (versions (mem s3))
               = Some (u "v1.1.0")).
  { rewrite V3. unfold next_version_id, sorted_versions_desc, keyed.
    cbn [map_opt set_stable set_active version_id]. rewrite Id1.
    change (u "v1.0.0") with (fmt 1 0 0) at 1. rewrite version_key_fmt.
    cbn [option_map sorted_desc fold_right insert_desc map snd].
    cbn [set_stable set_active version_id]. rewrite Id1. reflexivity. }
  destruct (@create_core UPDATE_DESCRIPTION (u "minor") s3 (u "v1.1.0") K3 N3)
    as (v2 & s4 & H4 & Ev2 & V4 & A4 & K4).
  erewrite bind_ok by exact H4.
  assert (Id2 : version_id v2 = u "v1.1.0") by (rewrite Ev2; reflexivity).
  rewrite Id2. rewrite V3 in V4. cbn [app] in V4.
  (* the comparison *)
  assert (T4 : text_at (world s4) CORE_STANDARDS = Some l).
  { unfold text_at. unfold kept in K4. rewrite K4. exact Hl. }
  erewrite bind_ok.
  2:{ apply (@compare_live (u "v1.0.0") (u "v1.1.0") s4
               (set_stable (set_active v1 true) true) v2 l l).
      - unfold _find_version. rewrite V4.
        cbn [find set_stable set_active version_id]. rewrite Id1.
        reflexivity.
      - unfold _find_version. rewrite V4.
        cbn [find set_stable set_active version_id]. rewrite Id1, Id2.
        reflexivity.
      - cbn [file set_stable set_active]. rewrite Ev1. exact T4.
      - rewrite Ev2. exact T4. }
  (* the changelog *)
  assert (S4 : sorted_versions_asc P (versions (mem s4))
               = Some [set_stable (set_active v1 true) true; v2]).
  { rewrite V4. unfold sorted_versions_asc, keyed.
    cbn [map_opt set_stable set_active version_id]. rewrite Id1, Id2.
    change (u "v1.0.0") with (fmt 1 0 0) at 1.
    change (u "v1.1.0") with (fmt 1 1 0) at 1.
    rewrite !version_key_fmt. reflexivity. }
  destruct (@changelog_after_sort P F None None s4 _ S4)
    as (text & s5 & H5 & M5 & U5).
  { intros v [<-|[<-|[]]].
    - cbn [timestamp set_stable set_active]. rewrite Ev1. apply Hts.
    - rewrite Ev2. apply Hts. }
  assert (E5 : s5 = s4).
  { apply U5. intros v Hv. rewrite V4 in Hv.
    assert (Hfile : file v = CORE_STANDARDS).
    { destruct Hv as [<-|[<-|[]]]; [rewrite Ev1|rewrite Ev2]; reflexivity. }
    unfold live. rewrite Hfile. unfold kept in K4. rewrite K4. reflexivity. }
  subst s5. erewrite bind_ok by exact H5.
  exists s4. split; [reflexivity|].
  unfold ids. rewrite V4, A4, A3, A2, A1.
  cbn [map set_stable set_active version_id active stable app].
  rewrite Id1, Id2, Ev2. cbn [active stable created_version].
  repeat split. exact K4.
Qed.

End WithPlatform.

Lemma main_on_a_new_repository_witness :
  exists s',
    main Demo.platform ChangelogCases.formatter MainCases.fresh
    = (Ok tt, s')
    /\ ids (mem s') = [u "v1.0.0"; u "v1.1.0"].
Proof.
  destruct (@main_on_a_new_repository Demo.platform ChangelogCases.formatter
              (Demo.bytes "tide") empty_ledger (world MainCases.fresh)
              [u "tide"] eq_refl eq_refl eq_refl)
    as (Hruns & _).
  - intros t. discriminate.
  - destruct (Hruns eq_refl) as (s' & H1 & H2 & _).
    exists s'. split; [exact H1|exact H2].
Defined.

End MainRun.
